(** * Frame.py: line segmentation of a scanned page

    A shallow embedding of [scr/Frame.py] (class [Frame]) and of the parts of
    its collaborators that the class relies on, followed by the properties of
    the validation, kernel-size, clustering-guard and rectangle-expansion
    code.

    Integers are unbounded ([Z]); [float64] values are IEEE 754 binary64
    numbers ([spec_float] with 53 bits of precision), so that the division,
    the product and the cast of [expand_rects] round as numpy rounds them. *)

From Stdlib Require Import ZArith List Lia Bool String SpecFloat Reals Lra.
From Stdlib Require Import Sorted Permutation.
From stdpp Require Import base list.

Local Open Scope Z_scope.

(** ** Python outcomes: a value, or a raised exception *)

Inductive exn : Type :=
  | AssertionError
  | IndexError
  | TypeError (msg : string)
  | ValueError
  | OverflowError
  | ZeroDivisionError
  | Cv2Error.

Inductive result (A : Type) : Type :=
  | Ok (a : A)
  | Raise (e : exn).

Arguments Ok {A} a.
Arguments Raise {A} e.

#[global] Instance result_ret : MRet result := fun A a => Ok a.

#[global] Instance result_bind : MBind result := fun A B k r =>
  match r with
  | Ok a => k a
  | Raise e => Raise e
  end.

#[global] Instance result_fmap : FMap result := fun A B f r =>
  match r with
  | Ok a => Ok (f a)
  | Raise e => Raise e
  end.

(** [[f(x) for x in l]], stopping at the first exception. *)
Fixpoint rmap {A B} (f : A -> result B) (l : list A) : result (list B) :=
  match l with
  | [] => Ok []
  | x :: t => y ← f x; ys ← rmap f t; Ok (y :: ys)
  end.

(** A [for] loop threading the mutated object through the iterations. *)
Fixpoint rfold {A S} (body : S -> A -> result S) (l : list A) (s : S) : result S :=
  match l with
  | [] => Ok s
  | x :: t => s' ← body s x; rfold body t s'
  end.

(** [range(lo, hi)] *)
Definition py_range (lo hi : Z) : list Z :=
  map (fun k => lo + Z.of_nat k) (seq 0 (Z.to_nat (hi - lo))).

(** Subscript [a[i]] of a Python sequence or a one-dimensional numpy array:
    negative subscripts count from the end, anything else out of range raises
    [IndexError]. *)
Definition py_index {A} (a : list A) (i : Z) : result A :=
  let n := Z.of_nat (length a) in
  let j := if i <? 0 then i + n else i in
  if (0 <=? j) && (j <? n) then
    match a !! Z.to_nat j with
    | Some x => Ok x
    | None => Raise IndexError
    end
  else Raise IndexError.

(** [assert c] *)
Definition py_assert (c : bool) : result unit :=
  if c then Ok tt else Raise AssertionError.

(** ** IEEE 754 binary64, the [float64] of numpy and the [float] of Python *)

Module F64.

Definition prec : Z := 53.
Definition emax : Z := 1024.

(** Conversion of an integer to the nearest double. *)
Definition of_int (z : Z) : spec_float := binary_normalize prec emax z 0 false.

Definition div : spec_float -> spec_float -> spec_float := SFdiv prec emax.
Definition mul : spec_float -> spec_float -> spec_float := SFmul prec emax.
Definition sub : spec_float -> spec_float -> spec_float := SFsub prec emax.
Definition add : spec_float -> spec_float -> spec_float := SFadd prec emax.
Definition ltb : spec_float -> spec_float -> bool := SFltb.

(** Magnitude of a finite double, rounded toward zero. *)
Definition mag_floor (m : positive) (e : Z) : Z := Z.shiftl (Zpos m) e.

(** What the conversion of a NaN or an infinity to a 32-bit integer gives on
    x86-64: the most negative integer. *)
Definition int32_indefinite : Z := - 2 ^ 31.

(** [astype] to the integer type of the contour points: truncation toward
    zero.  A NaN or an infinity has no integer value; numpy converts it all
    the same, with a [RuntimeWarning] only, and the array holds what the
    processor gives.  No cast raises. *)
Definition trunc (f : spec_float) : result Z :=
  match f with
  | S754_zero _ => Ok 0
  | S754_finite s m e => Ok (cond_Zopp s (mag_floor m e))
  | S754_infinity _ | S754_nan => Ok int32_indefinite
  end.

(** [math.ceil]: raises on NaN ([ValueError]) and on the infinities
    ([OverflowError]). *)
Definition ceil (f : spec_float) : result Z :=
  match f with
  | S754_zero _ => Ok 0
  | S754_finite false m e => Ok (- Z.shiftl (Zneg m) e)
  | S754_finite true m e => Ok (- Z.shiftl (Zpos m) e)
  | S754_infinity _ => Raise OverflowError
  | S754_nan => Raise ValueError
  end.

End F64.

(** ** numpy operations on one-dimensional arrays *)

(** [np.roll(a, -1)]: every element moves one place to the front, the first
    one wraps around to the end. *)
Definition np_roll_m1 {A} (a : list A) : list A :=
  match a with
  | [] => []
  | x :: t => t ++ [x]
  end.

(** [a[:-1]] *)
Definition np_init {A} (a : list A) : list A := take (length a - 1)%nat a.

(** [a[1::2]] *)
Fixpoint np_odd_items {A} (a : list A) : list A :=
  match a with
  | _ :: y :: t => y :: np_odd_items t
  | _ => []
  end.

(** Elementwise operations; the operands below always have equal shapes.
    Integers are unbounded here: an array of a fixed-width integer type holds
    the same values as long as they stay within the range of the type. *)
Definition np_add (a b : list Z) : list Z := zip_with Z.add a b.
Definition np_sub (a b : list Z) : list Z := zip_with Z.sub a b.

(** [a / b] on integer arrays is true division in [float64]. *)
Definition np_true_divide (a b : list Z) : list spec_float :=
  zip_with (fun x y => F64.div (F64.of_int x) (F64.of_int y)) a b.

(** [r * d] for a [float64] array and an integer array. *)
Definition np_mul_float_int (r : list spec_float) (d : list Z) : list spec_float :=
  zip_with (fun x y => F64.mul x (F64.of_int y)) r d.

(** Modelled from the spec: [Type_Alias.Point_dtype] is missing; contour
    points and rectangle edges are integers, taken as the 32-bit integers of
    OpenCV's contours.  [a.astype(Point_dtype)] on a [float64] array
    truncates every element toward zero. *)
Definition np_astype_int (a : list spec_float) : result (list Z) :=
  rmap F64.trunc a.

(** ** Rect.py: rectangles and the ordered rectangle collection *)

(** Modelled from the spec: [Rect.py] is missing.  A rectangle has four
    integer edges; its height is the distance between the top and the bottom
    edge; [expand_above] and [expand_below] shift the top or the bottom edge
    outward by the given number of pixels. *)
Record Rect : Type := mkRect { top : Z; bottom : Z; left : Z; right : Z }.

Definition height (r : Rect) : Z := bottom r - top r.

Definition expand_above (d : Z) (r : Rect) : Rect :=
  {| top := top r - d; bottom := bottom r; left := left r; right := right r |}.

Definition expand_below (d : Z) (r : Rect) : Rect :=
  {| top := top r; bottom := bottom r + d; left := left r; right := right r |}.

(** A contour is the ordered sequence of its integer (x, y) points. *)
Abbreviation Point := (Z * Z)%type.
Abbreviation Contour := (list Point).
Abbreviation Contours := (list Contour).

(** Modelled from the spec: the class [Rects] of [Rect.py] is missing.  It is
    an ordered sequence of rectangles paired one to one, in the same index
    order, with the contours they come from; [len], subscripting and
    iteration range over the rectangles, [get_contours] returns the contours
    as they were extracted. *)
Abbreviation Rects := (list (Rect * Contour)).

Definition rects_of (rs : Rects) : list Rect := rs.*1.
Definition get_contours (rs : Rects) : Contours := rs.*2.
Definition py_len (rs : Rects) : Z := Z.of_nat (length rs).

(** [self[i].method(arr[j])]: the rectangle at subscript [i] is looked up,
    the argument is read from the array, and the rectangle is mutated in
    place. *)
Definition rect_call (rs : Rects) (i : Z) (method : Z -> Rect -> Rect)
    (arr : list Z) (j : Z) : result Rects :=
  _ ← py_index rs i;
  d ← py_index arr j;
  Ok (alter (fun rc => (method d rc.1, rc.2)) (Z.to_nat (i mod py_len rs)) rs).

(** Modelled from the spec: the constructor of [Rects] wraps the bounding box
    of every contour as a rectangle. *)
Definition bounding_rect (c : Contour) : Rect :=
  match c with
  | [] => mkRect 0 0 0 0
  | p :: t =>
      {| top := foldr (fun q => Z.min q.2) p.2 t;
         bottom := foldr (fun q => Z.max q.2) p.2 t;
         left := foldr (fun q => Z.min q.1) p.1 t;
         right := foldr (fun q => Z.max q.1) p.1 t |}
  end.

Definition Rects_init (cs : Contours) : Rects :=
  map (fun c => (bounding_rect c, c)) cs.

(** Modelled from the spec: [Rects.sorted] orders the entries by top edge
    ascending, entries with equal top edges keeping their detection order. *)
Fixpoint insert_by_top (x : Rect * Contour) (l : Rects) : Rects :=
  match l with
  | [] => [x]
  | y :: t => if top x.1 <=? top y.1 then x :: y :: t else y :: insert_by_top x t
  end.

Definition Rects_sorted (rs : Rects) : Rects := foldr insert_by_top [] rs.

(** ** Frame.expand_rects *)

Section Expand.

Variable self : Rects.

Definition contours_height : list Z := map height (rects_of self).
Definition height_sq : list Z := map (fun h => h ^ 2) contours_height.
Definition denom : list Z := np_add (np_roll_m1 height_sq) height_sq.
Definition ratio_for_lower : list spec_float :=
  np_true_divide (np_init height_sq) (np_init denom).

(** [contours[i + 1][0] - contours[i][1]]: a difference of two points. *)
Definition contour_step (contours : Contours) (i : Z) : result Point :=
  c1 ← py_index contours (i + 1);
  p ← py_index c1 0;
  c0 ← py_index contours i;
  q ← py_index c0 1;
  Ok (p.1 - q.1, p.2 - q.2).

(** [a.flatten()] for an array of points. *)
Definition np_flatten (a : list Point) : list Z :=
  flat_map (fun p => [p.1; p.2]) a.

(** The vertical distances between neighbouring contours. *)
Definition dist : result (list Z) :=
  d ← rmap (contour_step (get_contours self)) (py_range 0 (py_len self - 1));
  Ok (np_odd_items (np_flatten d)).

Definition plus_for_lower_rect : result (list Z) :=
  d ← dist;
  np_astype_int (np_mul_float_int ratio_for_lower d).

Definition plus_for_upper_rect : result (list Z) :=
  d ← dist;
  lower ← plus_for_lower_rect;
  Ok (np_sub d lower).

End Expand.

(** One iteration of the loop of [expand_rects]. *)
Definition expand_body (Len : Z) (upper lower : list Z) (rs : Rects) (i : Z)
  : result Rects :=
  rs1 ← (if i <? Len - 1 then
           rs' ← rect_call rs i expand_below upper i;
           rect_call rs' (i + 1) expand_above lower i
         else Ok rs);
  rs2 ← (if i =? 0 then rect_call rs1 i expand_above upper i else Ok rs1);
  if i =? Len - 1 then rect_call rs2 i expand_below lower (i - 1) else Ok rs2.

Definition expand_rects (self : Rects) : result Rects :=
  let Len := py_len self in
  lower ← plus_for_lower_rect self;
  upper ← plus_for_upper_rect self;
  rfold (expand_body Len upper lower) (py_range 0 Len) self.

(** ** Python numbers: [float] arithmetic used by the kernel-size formulas *)

Inductive PyNum : Type :=
  | PyInt (z : Z)
  | PyFloat (f : spec_float).

Module PyFloat.

Definition one : spec_float := F64.of_int 1.
Definition half : spec_float := F64.div one (F64.of_int 2).

Definition is_zero (f : spec_float) : bool :=
  match f with S754_zero _ => true | _ => false end.

Definition sign (f : spec_float) : bool :=
  match f with
  | S754_zero s | S754_infinity s | S754_finite s _ _ => s
  | S754_nan => false
  end.

(** C's [fmod]: the exact remainder of the truncated quotient, with the sign
    of the dividend. *)
Definition fmod (x y : spec_float) : spec_float :=
  match x, y with
  | S754_nan, _ | _, S754_nan => S754_nan
  | S754_infinity _, _ | _, S754_zero _ => S754_nan
  | _, S754_infinity _ => x
  | S754_zero _, _ => x
  | S754_finite sx mx ex, S754_finite _ my ey =>
      let e0 := Z.min ex ey in
      let vx := Z.shiftl (Zpos mx) (ex - e0) in
      let vy := Z.shiftl (Zpos my) (ey - e0) in
      binary_normalize F64.prec F64.emax (cond_Zopp sx (vx mod vy)) e0 sx
  end.

(** C's [floor], from double to double. *)
Definition floor (x : spec_float) : spec_float :=
  match x with
  | S754_finite s m e =>
      if 0 <=? e then x
      else binary_normalize F64.prec F64.emax
             (Z.shiftl (cond_Zopp s (Zpos m)) e) 0 s
  | _ => x
  end.

(** [v // w] on floats, as CPython computes it: the remainder is taken with
    [fmod], the quotient of the rest is corrected for the sign of the
    remainder and snapped to the nearest integral value. *)
Definition floordiv (v w : spec_float) : result spec_float :=
  if is_zero w then Raise ZeroDivisionError
  else
    let md := fmod v w in
    let dv := F64.div (F64.sub v md) w in
    let dv :=
      if negb (is_zero md) && negb (Bool.eqb (F64.ltb w (S754_zero false))
                                             (F64.ltb md (S754_zero false)))
      then F64.sub dv one else dv in
    if negb (is_zero dv) then
      let fl := floor dv in
      Ok (if F64.ltb half (F64.sub dv fl) then F64.add fl one else fl)
    else Ok (S754_zero (sign (F64.div v w))).

(** The conversion of an [int] operand of a float operation; integers beyond
    the range of the doubles raise [OverflowError]. *)
Definition of_int (n : Z) : result spec_float :=
  match F64.of_int n with
  | S754_infinity _ => Raise OverflowError
  | f => Ok f
  end.

(** [rate * n // 100] for a float [rate] and an integer [n]. *)
Definition percent_of (rate : spec_float) (n : Z) : result spec_float :=
  x ← of_int n;
  floordiv (F64.mul rate x) (F64.of_int 100).

(** [max(s, 1)]: the integer [1] replaces [s] exactly when [1 > s]. *)
Definition max_with_1 (s : spec_float) : PyNum :=
  if F64.ltb s one then PyInt 1 else PyFloat s.

(** [math.ceil] of an [int] or a [float]. *)
Definition ceil (x : PyNum) : result Z :=
  match x with
  | PyInt z => Ok z
  | PyFloat f => F64.ceil f
  end.

End PyFloat.

(** ** Images *)

Inductive Dtype : Type := uint8 | int8 | uint16 | int32 | int64 | float32 | float64.

Definition Dtype_eqb (a b : Dtype) : bool :=
  match a, b with
  | uint8, uint8 | int8, int8 | uint16, uint16 | int32, int32
  | int64, int64 | float32, float32 | float64, float64 => true
  | _, _ => false
  end.

(** An [ndarray]: element type, shape and the elements in row-major order. *)
Record ndarray (A : Type) : Type :=
  mkArray { dtype : Dtype; shape : list Z; items : list A }.

Arguments mkArray {A} dtype shape items.
Arguments dtype {A} n.
Arguments shape {A} n.
Arguments items {A} n.

Definition ndim {A} (a : ndarray A) : Z := Z.of_nat (length (shape a)).
Definition np_size {A} (a : ndarray A) : Z := foldr Z.mul 1 (shape a).

Abbreviation Mat := (ndarray Z).

(** What a caller may pass where an image is expected. *)
Inductive PyObj : Type :=
  | NotAnArray
  | NDArray (a : Mat).

(** Modelled from the spec: [Type_Alias.Pixel_dtype] is missing; image samples
    are unsigned 8-bit. *)
Definition Pixel_dtype : Dtype := uint8.

(** ** The class [Frame] *)

(** The instance variables of a [Frame]; the rectangle collection is the
    [Rects] part the class inherits. *)
Record Frame : Type := mkFrame {
  img : Mat;
  gray_img : Mat;
  frame_height : Z;
  frame_width : Z;
  frame_rects : Rects
}.

(** The class constants [__blur_rate = 1.5] and [__offset_rate = 3.0]. *)
Definition blur_rate : spec_float := F64.div (F64.of_int 3) (F64.of_int 2).
Definition offset_rate : spec_float := F64.of_int 3.

(** [Frame.__check_rgb_img] *)
Definition check_rgb_img (o : PyObj) : result bool :=
  match o with
  | NotAnArray => Raise AssertionError
  | NDArray a =>
      _ ← py_assert (Dtype_eqb (dtype a) Pixel_dtype);
      _ ← py_assert ((ndim a =? 2) || (ndim a =? 3));
      _ ← (if Z.of_nat (length (shape a)) =? 3 then
             last_dim ← py_index (shape a) (-1);
             py_assert (last_dim =? 3)
           else Ok tt);
      Ok true
  end.

(** [Frame.__to_odd] *)
Definition to_odd (x : PyNum) : result Z :=
  y ← PyFloat.ceil x;
  Ok (if y mod 2 =? 1 then y else y - 1).

(** The kernel dimension handed to [cv2.GaussianBlur] by
    [Frame.__get_effective_zone], from the value [s] of
    [offset_percent * dim // 100]. *)
Definition effective_zone_ksize_of (s : spec_float) : result Z :=
  gauss ← to_odd (PyFloat.max_with_1 s);
  to_odd (PyInt gauss).

Definition effective_zone_ksize (dim : Z) : result Z :=
  s ← PyFloat.percent_of offset_rate dim;
  effective_zone_ksize_of s.

(** The kernel dimension handed to [cv2.GaussianBlur] by
    [Frame.__generate_frame]. *)
Definition generate_frame_ksize (dim : Z) : result Z :=
  s ← PyFloat.percent_of blur_rate dim;
  to_odd (PyFloat s).

Definition err_msg : string := "img has multiple columns. It must be of 1 column.".

(** [a.reshape(-1, 1)] *)
Definition reshape_column {A} (a : ndarray A) : ndarray A :=
  mkArray (dtype a) [np_size a; 1] (items a).

(** [np.array(con, dtype=Point_dtype)]: the contours must all have the same
    number of points to form one array. *)
Definition np_array_contours (con : list Contour) : result Contours :=
  match con with
  | [] => Ok []
  | c :: t =>
      if forallb (fun c' => Nat.eqb (length c') (length c)) t then Ok con
      else Raise ValueError
  end.

Section FrameClass.

(** *** Collaborators outside the repository

    OpenCV, numpy and scikit-learn are used through these operations; each of
    the calls that can fail returns an outcome. *)

(** [cv2.cvtColor(img, cv2.COLOR_BGR2GRAY)] *)
Variable cv2_cvtColor_BGR2GRAY : Mat -> result Mat.
(** [cv2.GaussianBlur(src, (kx, ky), sigma)] *)
Variable cv2_GaussianBlur : Mat -> Z * Z -> Z -> result Mat.
(** [np.average(img, axis=1)] *)
Variable np_average_rows : Mat -> ndarray spec_float.
(** [KMeans(n_clusters).fit(x)], then [predict(x)] and [cluster_centers_] *)
Variable KMeans_fit_predict :
  Z -> ndarray spec_float -> result (list Z * list spec_float).
(** The outlines of the content of the blurred page: threshold, inversion,
    [cv2.findContours] and [cv2.boundingRect], as (x, y, w, h). *)
Variable zone_boxes : Mat -> Z -> result (list (Z * Z * Z * Z)).
(** The mask painted from the row labels, the cluster centres and the
    horizontal zone, inverted and thresholded. *)
Variable paint_mask : Z -> Z -> list Z -> list spec_float -> Z -> Z -> result Mat.
(** [cv2.findContours(mask, cv2.RETR_EXTERNAL, cv2.CHAIN_APPROX_SIMPLE)] *)
Variable cv2_findContours : Mat -> result (list Contour).
(** [cv2.drawContours(img, contours, -1, color, lw)] *)
Variable cv2_drawContours : Mat -> Contours -> Mat.

(** [Frame.__get_effective_zone], with its default arguments. *)
Definition get_effective_zone (gray : Mat) (w h : Z) : result (Z * Z * Z * Z) :=
  gauss_x ← effective_zone_ksize w;
  gauss_y ← effective_zone_ksize h;
  img_blur ← cv2_GaussianBlur gray (gauss_x, gauss_y) 0;
  boxes ← zone_boxes img_blur 250;
  Ok (foldl (fun '(l, r, u, d) '(x, y, bw, bh) =>
               (Z.min l x, Z.max r (x + bw), Z.min u y, Z.max d (y + bh)))
            (w, 0, h, 0) boxes).

(** The local function [generate_row_label_Kmeans] of
    [Frame.__generate_frame]. *)
Definition generate_row_label_Kmeans (a : ndarray spec_float) (n_clusters : Z)
  : result (list Z * list spec_float) :=
  rows ← py_index (shape a) 0;
  if negb (rows =? np_size a) then Raise (TypeError err_msg)
  else KMeans_fit_predict n_clusters (reshape_column a).

(** [Frame.__generate_frame], with its default argument.  The painting of
    the mask is one call here, after the zone; the source chooses the absence
    label and paints the rows before it calls [__get_effective_zone], which
    shows only in which of two exceptions surfaces when both steps fail. *)
Definition generate_frame (gray : Mat) (w h : Z) : result Mat :=
  kx ← generate_frame_ksize w;
  ky ← generate_frame_ksize h;
  img_blur ← cv2_GaussianBlur gray (kx, ky) 3;
  lc ← generate_row_label_Kmeans (np_average_rows img_blur) 3;
  zone ← get_effective_zone gray w h;
  paint_mask h w lc.1 lc.2 zone.1.1.1 zone.1.1.2.

(** [Frame.__find_rects] *)
Definition find_rects (gray : Mat) (w h : Z) : result Rects :=
  mask ← generate_frame gray w h;
  con ← cv2_findContours mask;
  cs ← np_array_contours con;
  Ok (Rects_sorted (Rects_init cs)).

(** [Frame.__init__] *)
Definition Frame_init (o : PyObj) : result Frame :=
  ok ← check_rgb_img o;
  _ ← py_assert ok;
  match o with
  | NotAnArray => Raise AssertionError
  | NDArray a =>
      gray ← cv2_cvtColor_BGR2GRAY a;
      h ← py_index (shape a) 0;
      w ← py_index (shape a) 1;
      rs ← find_rects gray w h;
      Ok (mkFrame a gray h w rs)
  end.

(** [Frame.expand_rects], on the frame that owns the rectangles. *)
Definition Frame_expand_rects (f : Frame) : result Frame :=
  rs ← expand_rects (frame_rects f);
  Ok (mkFrame (img f) (gray_img f) (frame_height f) (frame_width f) rs).

(** [Frame.draw_contours] *)
Definition draw_contours (f : Frame) : Frame * Mat :=
  let drawn := cv2_drawContours (img f) (get_contours (frame_rects f)) in
  (mkFrame drawn (gray_img f) (frame_height f) (frame_width f) (frame_rects f),
   drawn).

(** [Frame.get_processed_img] *)
Definition get_processed_img (f : Frame) : result (Frame * Mat) :=
  f' ← Frame_expand_rects f;
  Ok (draw_contours f').

End FrameClass.

(** ** Vocabulary of the statements *)

(** The vertical gap between two neighbouring contours, as [expand_rects]
    reads it: from the second point of the upper contour to the first point of
    the lower one. *)
Definition gap_of (c0 c1 : Contour) : Z := (c1 !!! 0%nat).2 - (c0 !!! 1%nat).2.

Definition gaps (cs : Contours) : list Z := zip_with gap_of cs (tail cs).

Definition pair_gap (rc0 rc1 : Rect * Contour) : Z := gap_of rc0.2 rc1.2.

(** The ratio the code computes for a pair: the squared height [h0] of the
    upper rectangle over the sum of both squared heights. *)
Definition ratio_of (h0 h1 : Z) : spec_float :=
  F64.div (F64.of_int (h0 ^ 2)) (F64.of_int (h1 ^ 2 + h0 ^ 2)).

(** The increment the code computes for the lower rectangle of a pair. *)
Definition lower_share (h0 h1 g : Z) : result Z :=
  F64.trunc (F64.mul (ratio_of h0 h1) (F64.of_int g)).

Definition pair_share (rc0 rc1 : Rect * Contour) : result Z :=
  lower_share (height rc0.1) (height rc1.1) (gap_of rc0.2 rc1.2).

(** The ratio as the specification words it: the squared height of the lower
    rectangle over the sum of both squared heights. *)
Definition spec_ratio_of (h0 h1 : Z) : spec_float :=
  F64.div (F64.of_int (h1 ^ 2)) (F64.of_int (h0 ^ 2 + h1 ^ 2)).

Definition spec_lower_share (h0 h1 g : Z) : result Z :=
  F64.trunc (F64.mul (spec_ratio_of h0 h1) (F64.of_int g)).

(** The exact share of a gap of magnitude [|g|] that the squared heights
    assign to the lower rectangle, rounded down. *)
Definition exact_share (h0 h1 g : Z) : Z := h0 ^ 2 * Z.abs g / (h1 ^ 2 + h0 ^ 2).

(** An increment [l] for the lower rectangle has the sign of the gap, does not
    exceed it in magnitude and is within one pixel of the exact share. *)
Definition share_ok (rc0 rc1 : Rect * Contour) (l : Z) : Prop :=
  exists k, l = Z.sgn (pair_gap rc0 rc1) * k
            /\ 0 <= k <= Z.abs (pair_gap rc0 rc1)
            /\ exact_share (height rc0.1) (height rc1.1) (pair_gap rc0 rc1) - 1 <= k
               <= exact_share (height rc0.1) (height rc1.1) (pair_gap rc0 rc1) + 1.

(** The rectangles are of pixel size: heights are not negative and below
    [2 ^ 26], no two neighbours both have height zero, every contour has at
    least two points and neighbouring contours are less than [2 ^ 32] apart. *)
Definition pixel_sized (self : Rects) : Prop :=
  Forall (fun rc => 0 <= height rc.1 < 2 ^ 26 /\ (2 <= length rc.2)%nat) self
  /\ forall (i : nat) rc0 rc1,
       self !! i = Some rc0 -> self !! S i = Some rc1 ->
       0 < height rc0.1 + height rc1.1 /\ Z.abs (pair_gap rc0 rc1) < 2 ^ 32.

(** No contour overlaps the next one. *)
Definition non_overlapping (self : Rects) : Prop :=
  forall (i : nat) rc0 rc1,
    self !! i = Some rc0 -> self !! S i = Some rc1 -> 0 <= pair_gap rc0 rc1.

(** Reading order: top edges ascend. *)
Definition top_le (x y : Rect * Contour) : Prop := top x.1 <= top y.1.

(** A rectangle lies within a frame of the given height and width. *)
Definition in_frame (h w : Z) (r : Rect) : Prop :=
  0 <= top r /\ top r <= bottom r /\ bottom r <= h
  /\ 0 <= left r /\ left r <= right r /\ right r <= w.

(** What the first [k] iterations of the loop of [expand_rects] have taken
    from the top edge and added to the bottom edge of the rectangle at
    position [j], for [N] rectangles. *)
Definition top_shift (upper lower : list Z) (k j : nat) : Z :=
  if decide (j = 0%nat) then (if decide (1 <= k)%nat then upper !!! 0%nat else 0)
  else if decide (j <= k)%nat then lower !!! (j - 1)%nat else 0.

Definition bottom_shift (N : nat) (upper lower : list Z) (k j : nat) : Z :=
  if decide (j < k)%nat then
    (if decide (j = (N - 1)%nat) then lower !!! (N - 2)%nat else upper !!! j)
  else 0.

Definition shifted (N : nat) (upper lower : list Z) (k j : nat)
    (rc : Rect * Contour) : Rect * Contour :=
  ({| top := top rc.1 - top_shift upper lower k j;
      bottom := bottom rc.1 + bottom_shift N upper lower k j;
      left := left rc.1; right := right rc.1 |}, rc.2).

Definition after_iterations (N : nat) (upper lower : list Z) (k : nat)
    (self : Rects) : Rects :=
  imap (shifted N upper lower k) self.

(** The real number [m * 2 ^ e]. *)
Definition F2R (m e : Z) : R := (IZR m * powerRZ 2 e)%R.

(** A float with a full mantissa of [prec] digits, of sign [s], magnitude [x]
    and exponent between [elo] and [ehi]. *)
Definition normal (prec : Z) (f : spec_float) (s : bool) (x : R) (elo ehi : Z) : Prop :=
  exists m e, f = S754_finite s m e /\ Zdigits2 (Zpos m) = prec
              /\ elo <= e <= ehi /\ F2R (Zpos m) e = x.

(** Positive finite numbers. *)
Definition is_pos_finite (f : spec_float) : bool :=
  match f with S754_finite false _ _ => true | _ => false end.

Definition num_positive (x : PyNum) : Prop :=
  match x with
  | PyInt z => 0 < z
  | PyFloat f => is_pos_finite f = true
  end.

(** The shape and dtype invariants of an input image. *)
Definition valid_image_b (o : PyObj) : bool :=
  match o with
  | NotAnArray => false
  | NDArray a =>
      Dtype_eqb (dtype a) uint8
      && match shape a with
         | [_; _] => true
         | [_; _; c] => c =? 3
         | _ => false
         end
  end.

(** *** Sample data *)

(** A text line from row [t] to row [b] of a page 100 pixels wide, with the
    four corners of its outline: top left, bottom left, bottom right, top
    right. *)
Definition line_box (t b : Z) : Rect * Contour :=
  (mkRect t b 0 100, [(0, t); (0, b); (100, b); (100, t)]).

Definition two_lines : Rects := [line_box 0 10; line_box 30 50].
Definition three_lines : Rects := [line_box 0 10; line_box 30 50; line_box 70 75].
Definition overlapping_lines : Rects := [line_box 20 40; line_box 30 50].

Definition blank (dims : list Z) : Mat :=
  mkArray uint8 dims (replicate (Z.to_nat (foldr Z.mul 1 dims)) 255).

(** A frame 45 pixels high and 100 wide holding two lines of equal height. *)
Definition small_frame : Frame :=
  mkFrame (blank [45; 100; 3]) (blank [45; 100]) 45 100
          [line_box 0 10; line_box 30 40].

(** Stand-ins for the collaborators, used to run the construction. *)
Definition demo_cvtColor (a : Mat) : result Mat :=
  if ndim a =? 3 then Ok (blank (take 2 (shape a))) else Raise Cv2Error.
Definition demo_blur (a : Mat) (_ : Z * Z) (_ : Z) : result Mat := Ok a.
Definition demo_average (a : Mat) : ndarray spec_float :=
  mkArray float64 (take 1 (shape a))
    (replicate (Z.to_nat (default 0 (shape a !! 0%nat))) (S754_zero false)).
Definition demo_KMeans (_ : Z) (_ : ndarray spec_float)
  : result (list Z * list spec_float) := Ok ([], []).
Definition demo_zone (_ : Mat) (_ : Z) : result (list (Z * Z * Z * Z)) := Ok [].
Definition demo_mask (h w : Z) (_ : list Z) (_ : list spec_float) (_ _ : Z)
  : result Mat := Ok (blank [h; w]).
Definition demo_findContours (_ : Mat) : result (list Contour) :=
  Ok [[(0, 30); (0, 50); (100, 50); (100, 30)]; [(0, 0); (0, 10); (100, 10); (100, 0)]].
Definition demo_init : PyObj -> result Frame :=
  Frame_init demo_cvtColor demo_blur demo_average demo_KMeans demo_zone demo_mask
             demo_findContours.

(** ** Vocabulary of the further properties *)

(** ** The mask of [Frame.__generate_frame], pixel by pixel *)

(** A colour sample in OpenCV's order (blue, green, red), and an image as its
    rows. *)
Abbreviation Pixel := (Z * Z * Z)%type.
Abbreviation ColorImage := (list (list Pixel)).

Definition pixel_map (f : Z -> Z) (p : Pixel) : Pixel := (f p.1.1, f p.1.2, f p.2).

Definition image_map {A B} (f : A -> B) (im : list (list A)) : list (list B) :=
  (fun row : list A => f <$> row) <$> im.

(** [np.zeros((h, w, 3), np.uint8)] *)
Definition np_zeros_u8 (h w : Z) : result ColorImage :=
  if (h <? 0) || (w <? 0) then Raise ValueError
  else Ok (replicate (Z.to_nat h) (replicate (Z.to_nat w) (0, 0, 0))).

(** Addition of [uint8] samples wraps around. *)
Definition u8_add (v k : Z) : Z := (v + k) mod 256.

Definition is_nan (f : spec_float) : bool :=
  match f with S754_nan => true | _ => false end.

(** [np.argmax] on the flattened array: the first position of the greatest
    element, a NaN counting as the greatest; an empty array raises. *)
Fixpoint argmax_from (mp : spec_float) (max_ind i : nat) (a : list spec_float) : nat :=
  match a with
  | [] => max_ind
  | x :: t =>
      if SFleb x mp then argmax_from mp max_ind (S i) t
      else if is_nan x then i
      else argmax_from x i (S i) t
  end.

Definition np_argmax (a : list spec_float) : result Z :=
  match a with
  | [] => Raise ValueError
  | x :: t => Ok (Z.of_nat (if is_nan x then 0%nat else argmax_from x 0 1 t))
  end.

(** [np.any] *)
Definition np_any (b : list bool) : bool := existsb (fun x => x) b.

(** [frame[sel] = v] for a boolean array [sel] over the rows: the lengths
    must agree. *)
Definition assign_rows (frame : ColorImage) (sel : list bool) (v : Z)
  : result ColorImage :=
  if Nat.eqb (length sel) (length frame) then
    Ok (zip_with (fun row (b : bool) => if b then (fun _ => (v, v, v)) <$> row else row)
                 frame sel)
  else Raise IndexError.

(** The bound [a] of a slice of a sequence of length [n]: negative bounds
    count from the end, and every bound is clipped to the sequence. *)
Definition slice_bound (a n : Z) : Z :=
  if a <? 0 then Z.max (a + n) 0 else Z.min a n.

Definition in_slice (a b n : Z) (i : nat) : bool :=
  (slice_bound a n <=? Z.of_nat i) && (Z.of_nat i <? slice_bound b n).

(** [frame[r0:r1, c0:c1] = v] *)
Definition assign_block (frame : ColorImage) (r0 r1 c0 c1 : Z) (v : Z) : ColorImage :=
  imap (fun y row =>
          if in_slice r0 r1 (Z.of_nat (length frame)) y then
            imap (fun x p =>
                    if in_slice c0 c1 (Z.of_nat (length row)) x then (v, v, v) else p)
                 row
          else row)
       frame.

(** [cv2.bitwise_not] on a [uint8] sample. *)
Definition cv2_bitwise_not (v : Z) : Z := Z.lxor v 255.

(** [cv2.threshold(src, thresh, maxval, cv2.THRESH_BINARY)] on a sample. *)
Definition cv2_threshold_binary (thresh maxval v : Z) : Z :=
  if thresh <? v then maxval else 0.

(** The part of [Frame.__generate_frame] from the choice of the absence label
    to the painting of the rows. *)
Definition paint_rows (h w : Z) (labels : list Z) (centers : list spec_float)
  : result ColorImage :=
  label_for_absence ← np_argmax centers;
  zeros ← np_zeros_u8 h w;
  let frame := image_map (pixel_map (fun v => u8_add v 255)) zeros in
  let differs := (fun l => negb (l =? label_for_absence)) <$> labels in
  if np_any differs then assign_rows frame differs 0 else Ok frame.

Section Mask.

(** [cv2.cvtColor(frame, cv2.COLOR_BGR2GRAY)] on one pixel. *)
Variable gray_of : Pixel -> Z.

(** The part of [Frame.__generate_frame] after the call of
    [__get_effective_zone]. *)
Definition finish_frame (h w : Z) (frame : ColorImage) (left_end right_end : Z)
  : list (list Z) :=
  let frame := assign_block frame 0 h 0 left_end 255 in
  let frame := assign_block frame 0 h right_end w 255 in
  let frame := image_map (pixel_map cv2_bitwise_not) frame in
  let frame := image_map (pixel_map (cv2_threshold_binary 127 255)) frame in
  image_map gray_of frame.

Definition mask_rows (h w : Z) (labels : list Z) (centers : list spec_float)
    (left_end right_end : Z) : result (list (list Z)) :=
  frame ← paint_rows h w labels centers;
  Ok (finish_frame h w frame left_end right_end).

(** The mask as an image of [h] rows and [w] columns. *)
Definition paint_mask_rows (h w : Z) (labels : list Z) (centers : list spec_float)
    (left_end right_end : Z) : result Mat :=
  rows ← mask_rows h w labels centers left_end right_end;
  Ok (mkArray uint8 [h; w] (concat rows)).

End Mask.

(** The luma of a pixel with the weights of ITU-R BT.601, for running the
    painting. *)
Definition demo_gray (p : Pixel) : Z :=
  (114 * p.1.1 + 587 * p.1.2 + 299 * p.2 + 500) / 1000.

(** The value of a mask pixel in row [y] and column [x]: white where the row
    is not labelled as absence and the column lies in the zone. *)
Definition mask_value (labels : list Z) (absence w left_end right_end : Z)
    (y x : nat) : Z :=
  match labels !! y with
  | Some l =>
      if negb (l =? absence)
         && (slice_bound left_end w <=? Z.of_nat x)
         && (Z.of_nat x <? slice_bound right_end w)
      then 255 else 0
  | None => 0
  end.

(** Two collections with the same number of entries, the same contours and
    the same left and right edges. *)
Definition same_frame_of_reference (rs rs' : Rects) : Prop :=
  length rs' = length rs
  /\ get_contours rs' = get_contours rs
  /\ left <$> rects_of rs' = left <$> rects_of rs
  /\ right <$> rects_of rs' = right <$> rects_of rs.

(** The images that pass the validation: [uint8] samples in two dimensions,
    or in three with three channels. *)
Inductive accepted_image : PyObj -> Prop :=
  | accepted_gray (a : Mat) (h w : Z) :
      dtype a = uint8 -> shape a = [h; w] -> accepted_image (NDArray a)
  | accepted_colour (a : Mat) (h w : Z) :
      dtype a = uint8 -> shape a = [h; w; 3] -> accepted_image (NDArray a).

(** The greatest odd integer not above [y]. *)
Definition largest_odd_le (y : Z) : Z := 2 * ((y + 1) / 2) - 1.

(** The box (x, y, w, h) lies within the zone. *)
Definition box_in_zone (zone box : Z * Z * Z * Z) : Prop :=
  let '(l, r, u, d) := zone in
  let '(x, y, bw, bh) := box in
  l <= x /\ x + bw <= r /\ u <= y /\ y + bh <= d.

(** A clustering that labels the rows 0, 1, 0, 1, ..., cluster 0 being the
    brightest. *)
Definition demo_KMeans_rows (_ : Z) (a : ndarray spec_float)
  : result (list Z * list spec_float) :=
  Ok (imap (fun i _ => Z.of_nat i mod 2) (items a),
      [F64.of_int 255; F64.of_int 128; F64.of_int 0]).


(** Two lines of one row each, at rows 10 and 30: rectangles of height
    zero. *)
Definition flat_lines : Rects := [line_box 10 10; line_box 30 30].

(** The double [f] is the number [N / 2 ^ j], for an integer [N] that is not
    negative: positive zero, or a positive double with a full mantissa. *)
Definition dyadic (f : spec_float) (N j : Z) : Prop :=
  (N = 0 /\ f = S754_zero false)
  \/ (0 < N
      /\ exists m e, f = S754_finite false m e /\ Zdigits2 (Zpos m) = 53
                     /\ -52 - j <= e <= - j /\ F2R (Zpos m) e = F2R N (- j)).


(** * Properties *)

(** ** Outcomes, subscripts and ranges *)

Lemma py_index_lookup {A} (a : list A) (k : nat) (x : A) :
  a !! k = Some x -> py_index a (Z.of_nat k) = Ok x.
Proof.
  intros Hk. pose proof (lookup_lt_Some _ _ _ Hk) as Hlt.
  unfold py_index.
  destruct (Z.ltb_spec (Z.of_nat k) 0) as [Hneg|_]; [lia|].
  destruct (Z.leb_spec 0 (Z.of_nat k)) as [_|Hneg]; [|lia].
  destruct (Z.ltb_spec (Z.of_nat k) (Z.of_nat (length a))) as [_|Hge]; [|lia].
  simpl. rewrite Nat2Z.id, Hk. reflexivity.
Qed.

Lemma py_range_nat (n : nat) : py_range 0 (Z.of_nat n) = map Z.of_nat (seq 0 n).
Proof.
  unfold py_range. rewrite Z.sub_0_r, Nat2Z.id. apply map_ext. intros; lia.
Qed.

Lemma py_range_pred (n : nat) :
  py_range 0 (Z.of_nat n - 1) = map Z.of_nat (seq 0 (n - 1)).
Proof.
  unfold py_range. replace (Z.to_nat (Z.of_nat n - 1 - 0)) with (n - 1)%nat by lia.
  apply map_ext. intros; lia.
Qed.

Lemma rfold_app {A S} (body : S -> A -> result S) (l1 l2 : list A) (s : S) :
  rfold body (l1 ++ l2) s = (s' ← rfold body l1 s; rfold body l2 s').
Proof.
  revert s. induction l1 as [|x l1 IH]; intros s; simpl; [reflexivity|].
  destruct (body s x) as [s'|e]; simpl; [apply IH | reflexivity].
Qed.

Lemma rmap_length {A B} (f : A -> result B) (l : list A) (ys : list B) :
  rmap f l = Ok ys -> length ys = length l.
Proof.
  revert ys. induction l as [|x l IH]; intros ys; simpl.
  - intros [= <-]. reflexivity.
  - destruct (f x) as [y|e]; simpl; [|discriminate].
    destruct (rmap f l) as [ys'|e]; simpl; [|discriminate].
    intros [= <-]. simpl. f_equal. apply IH. reflexivity.
Qed.

Lemma rmap_lookup {A B} (f : A -> result B) (l : list A) (ys : list B) (i : nat) (x : A) :
  rmap f l = Ok ys -> l !! i = Some x ->
  exists y, f x = Ok y /\ ys !! i = Some y.
Proof.
  revert ys i. induction l as [|x0 l IH]; intros ys i; simpl; [intros _ [=]|].
  destruct (f x0) as [y0|e] eqn:E0; simpl; [|discriminate].
  destruct (rmap f l) as [ys'|e]; simpl; [|discriminate].
  intros [= <-]. destruct i as [|i]; simpl.
  - intros [= <-]. eauto.
  - intros Hi. apply (IH ys' i); [reflexivity | exact Hi].
Qed.

Lemma rmap_total {A B} (f : A -> result B) (g : A -> B) (l : list A) :
  Forall (fun x => f x = Ok (g x)) l -> rmap f l = Ok (map g l).
Proof.
  induction 1 as [|x l Hx _ IH]; simpl; [reflexivity|].
  rewrite Hx, IH. reflexivity.
Qed.

Lemma rmap_fmap {A B C} (f : B -> result C) (g : A -> B) (l : list A) :
  rmap f (map g l) = rmap (fun x => f (g x)) l.
Proof. induction l as [|x l IH]; simpl; [reflexivity | rewrite IH; reflexivity]. Qed.

Lemma rmap_defined {A B} (f : A -> result B) (l : list A) :
  Forall (fun x => exists y, f x = Ok y) l -> exists ys, rmap f l = Ok ys.
Proof.
  induction 1 as [|x l [y Hy] _ [ys IH]]; simpl.
  - exists []. reflexivity.
  - exists (y :: ys). rewrite Hy, IH. reflexivity.
Qed.

(** ** The loop of [expand_rects] in closed form *)

Lemma after_iterations_length N upper lower k (self : Rects) :
  length (after_iterations N upper lower k self) = length self.
Proof. apply length_imap. Qed.

Lemma after_iterations_0 N upper lower (self : Rects) :
  after_iterations N upper lower 0 self = self.
Proof.
  apply list_eq. intros j. unfold after_iterations.
  rewrite list_lookup_imap. destruct (self !! j) as [[[t b l r] c]|]; simpl; [|reflexivity].
  unfold shifted, top_shift, bottom_shift. simpl.
  repeat case_decide; try lia; do 3 f_equal; lia.
Qed.

Lemma rect_call_nat (rs : Rects) (k m : nat) method (arr : list Z) :
  (k < length rs)%nat -> (m < length arr)%nat ->
  rect_call rs (Z.of_nat k) method arr (Z.of_nat m)
  = Ok (alter (fun rc => (method (arr !!! m) rc.1, rc.2)) k rs).
Proof.
  intros Hk Hm. unfold rect_call.
  destruct (lookup_lt_is_Some_2 rs k Hk) as [x Hx].
  rewrite (py_index_lookup _ _ _ Hx). simpl.
  rewrite (py_index_lookup arr m (arr !!! m))
    by (apply list_lookup_lookup_total_lt; exact Hm).
  simpl. unfold py_len. rewrite Z.mod_small by lia. rewrite Nat2Z.id. reflexivity.
Qed.

(** Both sides are the collection [self] with some rectangles moved: compare
    them position by position. *)
Ltac lookup_cases self :=
  f_equal; apply list_eq; intros j; unfold after_iterations;
  rewrite ?list_lookup_alter; repeat case_decide; subst;
  rewrite ?list_lookup_imap;
  repeat match goal with
    | |- context [self !! ?i] =>
        let E := fresh "E" in
        destruct (self !! i) as [[[t b l r] c]|] eqn:E;
        [apply lookup_lt_Some in E|]; simpl
    end;
  try reflexivity;
  unfold shifted, expand_above, expand_below, top_shift, bottom_shift; simpl;
  rewrite ?Nat.sub_0_r;
  repeat case_decide; try lia;
  repeat match goal with
    | |- context [?a !!! ?i] =>
        match goal with
        | |- context [a !!! ?i'] =>
            lazymatch i with i' => fail | _ => replace i with i' by lia end
        end
    end;
  do 3 f_equal; try lia.

Section Loop.

Variable N : nat.
Variables upper lower : list Z.
Hypothesis HN : (2 <= N)%nat.
Hypothesis Hupper : length upper = (N - 1)%nat.
Hypothesis Hlower : length lower = (N - 1)%nat.

Lemma expand_body_step (self : Rects) (k : nat) :
  length self = N -> (k < N)%nat ->
  expand_body (Z.of_nat N) upper lower (after_iterations N upper lower k self) (Z.of_nat k)
  = Ok (after_iterations N upper lower (S k) self).
Proof.
  intros Hlen Hk. unfold expand_body.
  pose proof (after_iterations_length N upper lower k self) as Hl0.
  destruct (Z.ltb_spec (Z.of_nat k) (Z.of_nat N - 1)) as [Hlt|Hge].
  - assert (Hkn : (k < N - 1)%nat) by lia.
    rewrite rect_call_nat by lia. simpl.
    replace (Z.of_nat k + 1) with (Z.of_nat (S k)) by lia.
    rewrite rect_call_nat by (rewrite ?length_alter; lia). simpl.
    destruct (Z.eqb_spec (Z.of_nat k) (Z.of_nat N - 1)) as [?|_]; [lia|].
    destruct (Z.eqb_spec (Z.of_nat k) 0) as [Hz|Hnz].
    + assert (k = 0%nat) by lia. subst k.
      rewrite rect_call_nat by (rewrite ?length_alter; lia). simpl.
      lookup_cases self.
    + simpl. lookup_cases self.
  - assert (Hkn : k = (N - 1)%nat) by lia.
    destruct (Z.eqb_spec (Z.of_nat k) 0) as [Hz|Hnz]; [lia|]. simpl.
    destruct (Z.eqb_spec (Z.of_nat k) (Z.of_nat N - 1)) as [_|?]; [|lia].
    replace (Z.of_nat k - 1) with (Z.of_nat (k - 1)) by lia.
    rewrite rect_call_nat by lia.
    lookup_cases self.
Qed.

Lemma expand_loop_prefix (self : Rects) (k : nat) :
  length self = N -> (k <= N)%nat ->
  rfold (expand_body (Z.of_nat N) upper lower) (map Z.of_nat (seq 0 k)) self
  = Ok (after_iterations N upper lower k self).
Proof.
  intros Hlen. induction k as [|k IH]; intros Hk.
  - simpl. rewrite after_iterations_0. reflexivity.
  - rewrite seq_S, map_app, rfold_app. rewrite IH by lia. simpl.
    rewrite expand_body_step by lia. reflexivity.
Qed.

(** The whole loop, from the unexpanded collection. *)
Lemma expand_loop (self : Rects) :
  length self = N ->
  rfold (expand_body (Z.of_nat N) upper lower) (py_range 0 (Z.of_nat N)) self
  = Ok (after_iterations N upper lower N self).
Proof.
  intros Hlen. rewrite py_range_nat. apply expand_loop_prefix; [exact Hlen | lia].
Qed.

End Loop.

Lemma after_iterations_final (N : nat) (upper lower : list Z) (self : Rects)
    (j : nat) (rc : Rect * Contour) :
  length self = N -> self !! j = Some rc ->
  after_iterations N upper lower N self !! j
  = Some ({| top := top rc.1 - (if decide (j = 0%nat) then upper !!! 0%nat
                                else lower !!! (j - 1)%nat);
             bottom := bottom rc.1 + (if decide (j = (N - 1)%nat)
                                      then lower !!! (N - 2)%nat else upper !!! j);
             left := left rc.1; right := right rc.1 |}, rc.2).
Proof.
  intros Hlen Hj. pose proof (lookup_lt_Some _ _ _ Hj) as Hlt.
  unfold after_iterations. rewrite list_lookup_imap, Hj. simpl.
  unfold shifted, top_shift, bottom_shift.
  repeat case_decide; try lia; reflexivity.
Qed.

(** ** The increment arrays in closed form *)

Lemma gaps_length (cs : Contours) : length (gaps cs) = (length cs - 1)%nat.
Proof.
  unfold gaps. rewrite length_zip_with.
  destruct cs as [|c cs]; [reflexivity|]. cbn [tail length]. lia.
Qed.

Lemma np_odd_items_flatten {A} (g : A -> Point) (l : list A) :
  np_odd_items (np_flatten (map g l)) = map (fun i => (g i).2) l.
Proof. induction l as [|x l IH]; simpl; [reflexivity | f_equal; exact IH]. Qed.

Lemma contour_step_total (cs : Contours) (n : nat) :
  Forall (fun c => (2 <= length c)%nat) cs -> (S n < length cs)%nat ->
  contour_step cs (Z.of_nat n)
  = Ok (((cs !!! S n) !!! 0%nat).1 - ((cs !!! n) !!! 1%nat).1,
        gap_of (cs !!! n) (cs !!! S n)).
Proof.
  intros Hall Hn. unfold contour_step.
  assert (H1 : cs !! S n = Some (cs !!! S n)) by (apply list_lookup_lookup_total_lt; lia).
  assert (H0 : cs !! n = Some (cs !!! n)) by (apply list_lookup_lookup_total_lt; lia).
  pose proof (Forall_lookup_1 _ _ _ _ Hall H1) as L1.
  pose proof (Forall_lookup_1 _ _ _ _ Hall H0) as L0. simpl in L0, L1.
  replace (Z.of_nat n + 1) with (Z.of_nat (S n)) by lia.
  rewrite (py_index_lookup _ _ _ H1). simpl.
  rewrite (py_index_lookup (cs !!! S n) 0 ((cs !!! S n) !!! 0%nat))
    by (apply list_lookup_lookup_total_lt; lia). simpl.
  rewrite (py_index_lookup _ _ _ H0). simpl.
  rewrite (py_index_lookup (cs !!! n) 1 ((cs !!! n) !!! 1%nat))
    by (apply list_lookup_lookup_total_lt; lia). simpl.
  reflexivity.
Qed.

(** [dist] is the list of the gaps between neighbouring contours. *)
Lemma dist_closed (self : Rects) :
  Forall (fun c => (2 <= length c)%nat) (get_contours self) ->
  dist self = Ok (gaps (get_contours self)).
Proof.
  intros Hall. unfold dist. set (cs := get_contours self) in *.
  assert (Hlen : py_len self = Z.of_nat (length cs)).
  { unfold py_len, cs, get_contours. rewrite length_fmap. reflexivity. }
  rewrite Hlen, py_range_pred.
  set (g := fun i : Z =>
              (((cs !!! S (Z.to_nat i)) !!! 0%nat).1 - ((cs !!! Z.to_nat i) !!! 1%nat).1,
               gap_of (cs !!! Z.to_nat i) (cs !!! S (Z.to_nat i)))).
  rewrite (rmap_total _ g).
  - simpl. f_equal. rewrite np_odd_items_flatten.
    apply list_eq_same_length with (length cs - 1)%nat.
    + apply gaps_length.
    + rewrite !length_map, length_seq. reflexivity.
    + intros i x y Hi Hx Hy.
      rewrite !list_lookup_fmap, lookup_seq_lt in Hx by lia. simpl in Hx.
      injection Hx as <-. rewrite Nat2Z.id.
      unfold gaps in Hy. rewrite lookup_zip_with, lookup_tail in Hy.
      rewrite (list_lookup_lookup_total_lt cs i) in Hy by lia.
      rewrite (list_lookup_lookup_total_lt cs (S i)) in Hy by lia.
      simpl in Hy. congruence.
  - apply Forall_fmap, Forall_forall. intros n Hn. simpl.
    apply elem_of_seq in Hn. unfold g. rewrite Nat2Z.id.
    apply contour_step_total; [exact Hall | lia].
Qed.

Lemma np_roll_m1_lookup {A} (a : list A) (i : nat) :
  (S i < length a)%nat -> np_roll_m1 a !! i = a !! S i.
Proof.
  destruct a as [|x t]; simpl; [lia|]. intros Hi.
  apply lookup_app_l. lia.
Qed.

Lemma np_roll_m1_length {A} (a : list A) : length (np_roll_m1 a) = length a.
Proof. destruct a as [|x t]; simpl; [reflexivity|]. rewrite length_app. simpl. lia. Qed.

(** [ratio_for_lower] pairs every height with the next one. *)
Lemma ratio_for_lower_closed (self : Rects) :
  ratio_for_lower self
  = zip_with ratio_of (map height (rects_of self)) (tail (map height (rects_of self))).
Proof.
  unfold ratio_for_lower, denom, height_sq, contours_height.
  set (hs := map height (rects_of self)).
  apply list_eq. intros i.
  unfold np_true_divide, np_init, np_add.
  rewrite !lookup_zip_with, !lookup_tail.
  rewrite !length_zip_with, !length_map.
  destruct (decide (S i < length hs)%nat) as [Hi|Hi].
  - rewrite np_roll_m1_length, length_map.
    rewrite !lookup_take_lt by lia.
    rewrite lookup_zip_with, np_roll_m1_lookup by (rewrite length_map; lia).
    rewrite !list_lookup_fmap.
    rewrite (list_lookup_lookup_total_lt hs i) by lia.
    rewrite (list_lookup_lookup_total_lt hs (S i)) by lia.
    reflexivity.
  - rewrite np_roll_m1_length, length_map.
    rewrite !lookup_take_ge by lia. simpl.
    destruct (hs !! i); simpl; [|reflexivity].
    rewrite (lookup_ge_None_2 hs (S i)) by lia. reflexivity.
Qed.

Lemma share_arrays_zip (x : Rect * Contour) (l : Rects) :
  np_mul_float_int
    (zip_with ratio_of (map height (rects_of (x :: l))) (map height (rects_of l)))
    (zip_with gap_of (get_contours (x :: l)) (get_contours l))
  = map (fun p => F64.mul (ratio_of (height p.1.1) (height p.2.1))
                          (F64.of_int (pair_gap p.1 p.2)))
        (zip (x :: l) l).
Proof.
  revert x. induction l as [|y l IH]; intros x; [reflexivity|].
  specialize (IH y). unfold np_mul_float_int, rects_of, get_contours in *.
  cbn [fmap list_fmap map zip_with zip] in *. f_equal. exact IH.
Qed.

(** [plus_for_lower_rect] computes the lower share of every pair of
    neighbours. *)
Lemma plus_for_lower_closed (self : Rects) :
  Forall (fun c => (2 <= length c)%nat) (get_contours self) ->
  plus_for_lower_rect self
  = rmap (fun p => pair_share p.1 p.2) (zip self (tail self)).
Proof.
  intros Hall. unfold plus_for_lower_rect.
  rewrite dist_closed by exact Hall. simpl.
  rewrite ratio_for_lower_closed. unfold np_astype_int, gaps.
  destruct self as [|x l]; [reflexivity|].
  cbn [tail].
  replace (tail (map height (rects_of (x :: l)))) with (map height (rects_of l)) by reflexivity.
  replace (tail (get_contours (x :: l))) with (get_contours l) by reflexivity.
  rewrite share_arrays_zip, rmap_fmap. reflexivity.
Qed.

Lemma plus_for_upper_closed (self : Rects) (lower : list Z) :
  Forall (fun c => (2 <= length c)%nat) (get_contours self) ->
  plus_for_lower_rect self = Ok lower ->
  plus_for_upper_rect self = Ok (np_sub (gaps (get_contours self)) lower).
Proof.
  intros Hall Hl. unfold plus_for_upper_rect.
  rewrite dist_closed by exact Hall. simpl. rewrite Hl. reflexivity.
Qed.

Lemma lookup_zip_tail (self : Rects) (i : nat) (rc0 rc1 : Rect * Contour) :
  zip self (tail self) !! i = Some (rc0, rc1)
  <-> self !! i = Some rc0 /\ self !! S i = Some rc1.
Proof.
  rewrite lookup_zip_with, lookup_tail.
  destruct (self !! i) as [a|]; simpl; [|split; [discriminate | intros [[=] _]]].
  destruct (self !! S i) as [b|]; simpl; [|split; [discriminate | intros [_ [=]]]].
  split; [intros [= <- <-]; auto | intros [[= <-] [= <-]]; reflexivity].
Qed.

Lemma zip_tail_length (self : Rects) : length (zip self (tail self)) = (length self - 1)%nat.
Proof.
  rewrite length_zip_with. destruct self as [|x l]; [reflexivity|]. cbn [tail length]. lia.
Qed.

Lemma gaps_lookup (self : Rects) (i : nat) (rc0 rc1 : Rect * Contour) :
  self !! i = Some rc0 -> self !! S i = Some rc1 ->
  gaps (get_contours self) !! i = Some (pair_gap rc0 rc1).
Proof.
  intros H0 H1. unfold gaps, get_contours.
  rewrite lookup_zip_with, lookup_tail, !list_lookup_fmap, H0, H1. reflexivity.
Qed.

(** [expand_rects] on two or more rectangles, in closed form. *)
Lemma expand_rects_closed (self : Rects) (lower : list Z) :
  (2 <= length self)%nat ->
  Forall (fun c => (2 <= length c)%nat) (get_contours self) ->
  plus_for_lower_rect self = Ok lower ->
  expand_rects self
  = Ok (after_iterations (length self) (np_sub (gaps (get_contours self)) lower) lower
          (length self) self).
Proof.
  intros HN Hall Hl. unfold expand_rects.
  rewrite Hl. simpl. rewrite (plus_for_upper_closed self lower Hall Hl). simpl.
  assert (Hlen : length lower = (length self - 1)%nat).
  { rewrite plus_for_lower_closed in Hl by exact Hall.
    rewrite (rmap_length _ _ _ Hl). apply zip_tail_length. }
  unfold py_len. apply expand_loop; try assumption; try reflexivity.
  unfold np_sub. rewrite length_zip_with, gaps_length, Hlen.
  unfold get_contours. rewrite length_fmap. lia.
Qed.

(** ** Rounding of binary floating-point numbers

    [binary_round_aux] shifts the mantissa to [prec] digits and rounds it to
    nearest; whatever the rounding direction, the result is one of the two
    neighbours of the exact value, so the error is below one unit in the last
    place.  Division and multiplication of numbers with a full mantissa
    inherit a relative error of at most [2 ^ (1 - prec)]. *)

Lemma digits2_pos_bounds (p : positive) :
  2 ^ (Zpos (digits2_pos p) - 1) <= Zpos p < 2 ^ Zpos (digits2_pos p).
Proof.
  induction p as [p IH|p IH|]; simpl digits2_pos.
  - rewrite Pos2Z.inj_succ, Z.pow_succ_r by lia.
    replace (Z.succ (Zpos (digits2_pos p)) - 1) with (Z.succ (Zpos (digits2_pos p) - 1)) by lia.
    rewrite Z.pow_succ_r by lia. lia.
  - rewrite Pos2Z.inj_succ, Z.pow_succ_r by lia.
    replace (Z.succ (Zpos (digits2_pos p)) - 1) with (Z.succ (Zpos (digits2_pos p) - 1)) by lia.
    rewrite Z.pow_succ_r by lia. lia.
  - simpl. lia.
Qed.

Lemma Zdigits2_bounds (m : Z) :
  0 < m -> 2 ^ (Zdigits2 m - 1) <= m < 2 ^ Zdigits2 m.
Proof. destruct m as [|p|p]; try lia. intros _. apply digits2_pos_bounds. Qed.

Lemma Zdigits2_unique (m d : Z) :
  2 ^ (d - 1) <= m < 2 ^ d -> 0 < d -> Zdigits2 m = d.
Proof.
  intros [Hlo Hhi] Hd.
  assert (Hm : 0 < m) by (pose proof (Z.pow_pos_nonneg 2 (d - 1)); lia).
  destruct (Zdigits2_bounds m Hm) as [Hlo' Hhi'].
  assert (Hdp : 0 < Zdigits2 m) by (destruct m; simpl; lia).
  destruct (Z.lt_trichotomy (Zdigits2 m) d) as [Hlt|[Heq|Hgt]]; [|exact Heq|].
  - assert (2 ^ Zdigits2 m <= 2 ^ (d - 1)) by (apply Z.pow_le_mono_r; lia). lia.
  - assert (2 ^ d <= 2 ^ (Zdigits2 m - 1)) by (apply Z.pow_le_mono_r; lia). lia.
Qed.

Lemma shr_1_m (r : shr_record) : 0 <= shr_m r -> shr_m (shr_1 r) = shr_m r / 2.
Proof.
  destruct r as [m r s]. cbn [shr_m]. intros Hm.
  destruct m as [|[p|p|]|p]; cbn [shr_1 shr_m]; try lia; try reflexivity.
  - apply Z.div_unique with 1; lia.
  - apply Z.div_unique with 0; lia.
Qed.

Lemma iter_pos_shr_1_m (p : positive) (r : shr_record) :
  0 <= shr_m r -> shr_m (SpecFloat.iter_pos shr_1 p r) = shr_m r / 2 ^ Zpos p.
Proof.
  revert r. induction p as [p IH|p IH|]; intros r Hr; simpl SpecFloat.iter_pos.
  - assert (H1 : 0 <= shr_m (shr_1 r)) by (rewrite shr_1_m by lia; apply Z.div_pos; lia).
    assert (H2 : 0 <= shr_m (SpecFloat.iter_pos shr_1 p (shr_1 r)))
      by (rewrite IH by lia; apply Z.div_pos; [lia | apply Z.pow_pos_nonneg; lia]).
    rewrite IH, IH, shr_1_m by lia.
    assert (Hp : 0 < 2 ^ Zpos p) by (apply Z.pow_pos_nonneg; lia).
    rewrite !Z.div_div by lia.
    f_equal. replace (Z.pos p~1) with (Z.pos p + Z.pos p + 1) by lia.
    rewrite !Z.pow_add_r by lia. change (2 ^ 1) with 2. lia.
  - assert (H2 : 0 <= shr_m (SpecFloat.iter_pos shr_1 p r))
      by (rewrite IH by lia; apply Z.div_pos; [lia | apply Z.pow_pos_nonneg; lia]).
    rewrite IH, IH by lia.
    assert (Hp : 0 < 2 ^ Zpos p) by (apply Z.pow_pos_nonneg; lia).
    rewrite !Z.div_div by lia.
    f_equal. replace (Z.pos p~0) with (Z.pos p + Z.pos p) by lia.
    rewrite !Z.pow_add_r by lia. reflexivity.
  - rewrite shr_1_m by lia. reflexivity.
Qed.

Lemma shr_spec (r : shr_record) (e n : Z) :
  0 <= n -> 0 <= shr_m r ->
  shr_m (fst (shr r e n)) = shr_m r / 2 ^ n /\ snd (shr r e n) = e + n.
Proof.
  intros Hn Hr. destruct n as [|p|p]; simpl; try lia.
  - rewrite Z.div_1_r. lia.
  - split; [|reflexivity]. apply iter_pos_shr_1_m. exact Hr.
Qed.

Lemma round_nearest_even_cases (m : Z) (l : location) :
  round_nearest_even m l = m \/ round_nearest_even m l = m + 1.
Proof.
  destruct l as [|[| |]]; simpl; auto. destruct (Z.even m); auto.
Qed.

Lemma shr_record_of_loc_m (m : Z) (l : location) : shr_m (shr_record_of_loc m l) = m.
Proof. destruct l as [|[| |]]; reflexivity. Qed.

Lemma powerRZ_2_pos (e : Z) : (0 < powerRZ 2 e)%R.
Proof. apply powerRZ_lt. lra. Qed.

Lemma powerRZ_2_nonneg (n : Z) : 0 <= n -> powerRZ 2 n = IZR (2 ^ n).
Proof.
  intros Hn. rewrite <- (Z2Nat.id n Hn) at 1.
  rewrite <- pow_powerRZ. rewrite pow_IZR. rewrite Z2Nat.id by exact Hn. reflexivity.
Qed.

Lemma F2R_shift (m e n : Z) : 0 <= n -> F2R m (e + n) = F2R (m * 2 ^ n) e.
Proof.
  intros Hn. unfold F2R. rewrite powerRZ_add by lra.
  rewrite mult_IZR, (powerRZ_2_nonneg n Hn). lra.
Qed.

Lemma F2R_le (m1 m2 e : Z) : m1 <= m2 -> (F2R m1 e <= F2R m2 e)%R.
Proof.
  intros H. unfold F2R. apply Rmult_le_compat_r.
  - left. apply powerRZ_2_pos.
  - apply IZR_le. exact H.
Qed.

Lemma F2R_succ (m e : Z) : F2R (m + 1) e = (F2R m e + powerRZ 2 e)%R.
Proof. unfold F2R. rewrite plus_IZR. lra. Qed.

Lemma Rabs_le_inv (x y : R) : (Rabs x <= y)%R -> (- y <= x <= y)%R.
Proof. unfold Rabs. destruct (Rcase_abs x); lra. Qed.

Section Rounding.

Variables prec emax : Z.
Hypothesis Hprec : 1 < prec.

Lemma binary_round_aux_bounds (sx : bool) (m e : Z) (loc : location) (x : R) :
  0 < m -> prec <= Zdigits2 m ->
  emin prec emax <= e + Zdigits2 m - prec -> e + Zdigits2 m + 1 <= emax ->
  (F2R m e <= x < F2R (m + 1) e)%R ->
  exists m2 e2,
    binary_round_aux prec emax sx m e loc = S754_finite sx m2 e2
    /\ Zdigits2 (Zpos m2) = prec
    /\ e + Zdigits2 m - prec <= e2 <= e + Zdigits2 m - prec + 1
    /\ (Rabs (F2R (Zpos m2) e2 - x) <= powerRZ 2 (e + Zdigits2 m - prec))%R
    /\ (powerRZ 2 (e + Zdigits2 m - 1) <= x)%R.
Proof.
  intros Hm Hd Hlo Hhi Hx.
  set (d := Zdigits2 m) in *. set (n := d - prec). set (m' := m / 2 ^ n).
  destruct (Zdigits2_bounds m Hm) as [Hm1 Hm2]. fold d in Hm1, Hm2.
  assert (Hn : 0 <= n) by (unfold n; lia).
  assert (Hpn : 0 < 2 ^ n) by (apply Z.pow_pos_nonneg; lia).
  assert (Hd1 : 2 ^ (d - 1) = 2 ^ (prec - 1) * 2 ^ n).
  { rewrite <- Z.pow_add_r by lia. f_equal. unfold n. lia. }
  assert (Hd2 : 2 ^ d = 2 ^ prec * 2 ^ n).
  { rewrite <- Z.pow_add_r by lia. f_equal. unfold n. lia. }
  assert (Hm'lo : 2 ^ (prec - 1) <= m').
  { apply Z.div_le_lower_bound; lia. }
  assert (Hm'hi : m' < 2 ^ prec).
  { apply Z.div_lt_upper_bound; lia. }
  assert (Hdiv : m' * 2 ^ n <= m < (m' + 1) * 2 ^ n).
  { unfold m'. pose proof (Z.mul_div_le m (2 ^ n) Hpn).
    pose proof (Z.mul_succ_div_gt m (2 ^ n) Hpn). lia. }
  assert (Hpp : 0 < 2 ^ (prec - 1)) by (apply Z.pow_pos_nonneg; lia).
  assert (Hpp2 : 2 ^ prec = 2 * 2 ^ (prec - 1)).
  { rewrite <- Z.pow_succ_r by lia. f_equal. lia. }
  (* the value after the first shift, and the rounded mantissa *)
  unfold binary_round_aux, shr_fexp.
  replace (fexp prec emax (Zdigits2 m + e) - e) with n
    by (unfold fexp, n; fold d; lia).
  destruct (shr_spec (shr_record_of_loc m loc) e n Hn) as [Hs1 Hs2].
  { rewrite shr_record_of_loc_m. lia. }
  rewrite shr_record_of_loc_m in Hs1.
  destruct (shr (shr_record_of_loc m loc) e n) as [mrs' e1]. simpl in Hs1, Hs2.
  fold m' in Hs1. subst e1.
  set (m1 := round_nearest_even (shr_m mrs') (loc_of_shr_record mrs')).
  assert (Hm1c : m1 = m' \/ m1 = m' + 1).
  { unfold m1. rewrite <- Hs1. apply round_nearest_even_cases. }
  (* bounds on the reals *)
  assert (Hx1 : (F2R m' (e + n) <= x)%R).
  { rewrite F2R_shift by lia. pose proof (F2R_le (m' * 2 ^ n) m e ltac:(lia)). lra. }
  assert (Hx2 : (x < F2R m' (e + n) + powerRZ 2 (e + n))%R).
  { rewrite <- F2R_succ, F2R_shift by lia.
    pose proof (F2R_le (m + 1) ((m' + 1) * 2 ^ n) e ltac:(lia)). lra. }
  assert (Hx3 : (powerRZ 2 (e + d - 1) <= x)%R).
  { replace (e + d - 1) with (e + (d - 1)) by lia.
    pose proof (F2R_shift 1 e (d - 1)) as Hs.
    unfold F2R at 1 in Hs. rewrite Rmult_1_l in Hs. rewrite Hs by lia.
    pose proof (F2R_le (1 * 2 ^ (d - 1)) m e ltac:(lia)). lra. }
  assert (Hv : (Rabs (F2R m1 (e + n) - x) <= powerRZ 2 (e + n))%R).
  { apply Rabs_le. destruct Hm1c as [-> | ->]; [|rewrite F2R_succ]; lra. }
  replace (e + d - prec) with (e + n) by (unfold n; lia).
  destruct (Z.eq_dec m1 (2 ^ prec)) as [Heq|Hne].
  - (* the rounded mantissa has one digit too many *)
    assert (Hdg : Zdigits2 m1 = prec + 1).
    { apply Zdigits2_unique; [|lia].
      replace (prec + 1 - 1) with prec by lia.
      rewrite Heq, Z.pow_add_r by lia. change (2 ^ 1) with 2. lia. }
    rewrite Hdg.
    replace (fexp prec emax (prec + 1 + (e + n)) - (e + n)) with 1
      by (unfold fexp; unfold n in *; lia).
    destruct (shr_spec (shr_record_of_loc m1 loc_Exact) (e + n) 1) as [Ht1 Ht2]; [lia| |].
    { rewrite shr_record_of_loc_m. lia. }
    rewrite shr_record_of_loc_m in Ht1.
    destruct (shr (shr_record_of_loc m1 loc_Exact) (e + n) 1) as [mrs2 e2].
    simpl in Ht1, Ht2. subst e2.
    assert (Hmr : shr_m mrs2 = 2 ^ (prec - 1)).
    { rewrite Ht1, Heq, Hpp2. change (2 ^ 1) with 2.
      rewrite Z.mul_comm, Z.div_mul by lia. reflexivity. }
    rewrite Hmr.
    destruct (2 ^ (prec - 1)) as [|p|p] eqn:Ep; try lia.
    destruct (Z.leb_spec (e + n + 1) (emax - prec)) as [_|Hbad];
      [|unfold n in Hbad; lia].
    exists p, (e + n + 1). repeat split; try lia.
    + apply Zdigits2_unique; [|lia]. rewrite <- Ep. lia.
    + rewrite F2R_shift by lia. change (2 ^ 1) with 2.
      replace (Z.pos p * 2) with m1 by lia. exact Hv.
    + exact Hx3.
  - assert (Hdg : Zdigits2 m1 = prec).
    { apply Zdigits2_unique; lia. }
    rewrite Hdg.
    replace (fexp prec emax (prec + (e + n)) - (e + n)) with 0
      by (unfold fexp; unfold n in *; lia).
    cbn [shr]. rewrite shr_record_of_loc_m.
    destruct m1 as [|p|p] eqn:Ep; try lia.
    destruct (Z.leb_spec (e + n) (emax - prec)) as [_|Hbad];
      [|unfold n in Hbad; lia].
    exists p, (e + n). repeat split; try lia; assumption.
Qed.

(** A mantissa of exactly [prec] digits goes through unchanged. *)
Lemma binary_round_aux_exact (sx : bool) (p : positive) (e : Z) :
  Zdigits2 (Zpos p) = prec -> emin prec emax <= e -> e <= emax - prec ->
  binary_round_aux prec emax sx (Zpos p) e loc_Exact = S754_finite sx p e.
Proof.
  intros Hd Hlo Hhi. unfold binary_round_aux, shr_fexp. rewrite Hd.
  replace (fexp prec emax (prec + e) - e) with 0 by (unfold fexp; lia).
  cbn [shr shr_record_of_loc shr_m loc_of_shr_record round_nearest_even].
  rewrite Hd.
  replace (fexp prec emax (prec + e) - e) with 0 by (unfold fexp; lia).
  cbn [shr shr_record_of_loc shr_m].
  destruct (Z.leb_spec e (emax - prec)); [reflexivity | lia].
Qed.


Hypothesis Hemax : 4 * prec <= emax.

Lemma Pos_iter_xO (p k : positive) : Zpos (Pos.iter xO p k) = Zpos p * 2 ^ Zpos k.
Proof.
  induction k as [|k IH] using Pos.peano_ind.
  - simpl. lia.
  - rewrite Pos.iter_succ, Pos2Z.inj_xO, IH, Pos2Z.inj_succ, Z.pow_succ_r by lia. lia.
Qed.

(** Integers below [2 ^ prec] convert exactly. *)
Lemma binary_round_int (s : bool) (p : positive) :
  Zpos p < 2 ^ prec ->
  normal prec (binary_round prec emax s p 0) s (IZR (Zpos p)) (1 - prec) 0.
Proof.
  intros Hp. unfold binary_round.
  pose proof (digits2_pos_bounds p) as [Hlo Hhi].
  set (d := Zpos (digits2_pos p)) in *.
  assert (Hd : d <= prec).
  { destruct (Z.le_gt_cases d prec) as [H|H]; [exact H|].
    assert (2 ^ prec <= 2 ^ (d - 1)) by (apply Z.pow_le_mono_r; lia). lia. }
  assert (Hd0 : 0 < d) by (unfold d; lia).
  replace (fexp prec emax (d + 0)) with (d - prec)
    by (unfold fexp, emin; lia).
  unfold shl_align. replace (d - prec - 0) with (d - prec) by lia.
  destruct (d - prec) as [|k|k] eqn:Ek; try lia.
  - rewrite binary_round_aux_exact;
      [|change (Zdigits2 (Zpos p)) with d; lia|unfold emin; lia|lia].
    exists p, 0. split; [reflexivity|]. split; [change (Zdigits2 (Zpos p)) with d; lia|].
    split; [lia|]. unfold F2R. change (powerRZ 2 0) with 1%R. lra.
  - assert (Hk : Zpos k = prec - d) by lia.
    assert (Hm : Zpos (Pos.iter xO p k) = Zpos p * 2 ^ (prec - d))
      by (rewrite Pos_iter_xO, Hk; reflexivity).
    assert (Hpk : 0 < 2 ^ (prec - d)) by (apply Z.pow_pos_nonneg; lia).
    assert (Hdg : Zdigits2 (Zpos (Pos.iter xO p k)) = prec).
    { apply Zdigits2_unique; [|lia]. rewrite Hm. split.
      - replace (prec - 1) with ((d - 1) + (prec - d)) by lia.
        rewrite Z.pow_add_r by lia. nia.
      - replace prec with (d + (prec - d)) at 2 by lia.
        rewrite Z.pow_add_r by lia. nia. }
    rewrite binary_round_aux_exact; [|exact Hdg|unfold emin; lia|lia].
    exists (Pos.iter xO p k), (Zneg k).
    split; [reflexivity|]. split; [exact Hdg|]. split; [lia|].
    rewrite Hm. replace (Zneg k) with (- (prec - d)) by lia.
    unfold F2R. rewrite mult_IZR, <- powerRZ_2_nonneg by lia.
    rewrite Rmult_assoc, <- powerRZ_add by lra.
    replace (prec - d + - (prec - d)) with 0 by lia.
    change (powerRZ 2 0) with 1%R. lra.
Qed.


(** The rounding error relative to the exact value. *)
Lemma binary_round_aux_rel (sx : bool) (m e : Z) (loc : location) (x : R) :
  0 < m -> prec <= Zdigits2 m ->
  emin prec emax <= e + Zdigits2 m - prec -> e + Zdigits2 m + 1 <= emax ->
  (F2R m e <= x < F2R (m + 1) e)%R ->
  exists m2 e2,
    binary_round_aux prec emax sx m e loc = S754_finite sx m2 e2
    /\ Zdigits2 (Zpos m2) = prec
    /\ e + Zdigits2 m - prec <= e2 <= e + Zdigits2 m - prec + 1
    /\ (Rabs (F2R (Zpos m2) e2 - x) <= x * powerRZ 2 (1 - prec))%R.
Proof.
  intros Hm Hd Hlo Hhi Hx.
  destruct (binary_round_aux_bounds sx m e loc x Hm Hd Hlo Hhi Hx)
    as (m2 & e2 & Hr & Hdg & He & Hv & Hx3).
  exists m2, e2. repeat split; try assumption; try lia.
  replace (e + Zdigits2 m - prec) with ((e + Zdigits2 m - 1) + (1 - prec)) in Hv by lia.
  rewrite powerRZ_add in Hv by lra.
  pose proof (powerRZ_2_pos (1 - prec)) as Hp.
  pose proof (powerRZ_2_pos (e + Zdigits2 m - 1)) as Hq.
  apply Rle_trans with (1 := Hv). apply Rmult_le_compat_r; lra.
Qed.

Lemma Zdigits2_lower (q k : Z) : 0 < k -> 2 ^ (k - 1) <= q -> k <= Zdigits2 q.
Proof.
  intros Hk Hq.
  assert (Hq0 : 0 < q) by (pose proof (Z.pow_pos_nonneg 2 (k - 1)); lia).
  destruct (Zdigits2_bounds q Hq0) as [_ Hhi].
  destruct (Z.le_gt_cases k (Zdigits2 q)) as [H|H]; [exact H|].
  assert (2 ^ Zdigits2 q <= 2 ^ (k - 1)).
  { apply Z.pow_le_mono_r; [lia|]. lia. }
  lia.
Qed.

Lemma Zdigits2_upper (q k : Z) : 0 < q -> q < 2 ^ k -> Zdigits2 q <= k.
Proof.
  intros Hq0 Hq.
  destruct (Zdigits2_bounds q Hq0) as [Hlo _].
  destruct (Z.le_gt_cases (Zdigits2 q) k) as [H|H]; [exact H|].
  assert (2 ^ k <= 2 ^ (Zdigits2 q - 1)).
  { apply Z.pow_le_mono_r; lia. }
  lia.
Qed.

Lemma SFmul_bounds (s1 s2 : bool) (m1 m2 : positive) (e1 e2 : Z) :
  Zdigits2 (Zpos m1) = prec -> Zdigits2 (Zpos m2) = prec ->
  emin prec emax <= e1 + e2 + prec - 1 -> e1 + e2 + 2 * prec + 1 <= emax ->
  exists m e,
    SFmul prec emax (S754_finite s1 m1 e1) (S754_finite s2 m2 e2)
    = S754_finite (xorb s1 s2) m e
    /\ Zdigits2 (Zpos m) = prec
    /\ e1 + e2 + prec - 1 <= e <= e1 + e2 + prec + 1
    /\ (Rabs (F2R (Zpos m) e - F2R (Zpos m1) e1 * F2R (Zpos m2) e2)
         <= F2R (Zpos m1) e1 * F2R (Zpos m2) e2 * powerRZ 2 (1 - prec))%R.
Proof.
  intros Hd1 Hd2 Hlo Hhi. cbn [SFmul].
  destruct (Zdigits2_bounds (Zpos m1) ltac:(lia)) as [Ha1 Ha2].
  destruct (Zdigits2_bounds (Zpos m2) ltac:(lia)) as [Hb1 Hb2].
  rewrite Hd1 in Ha1, Ha2. rewrite Hd2 in Hb1, Hb2.
  assert (Hpp : 0 < 2 ^ (prec - 1)) by (apply Z.pow_pos_nonneg; lia).
  assert (Hp2 : 2 ^ prec = 2 * 2 ^ (prec - 1)).
  { rewrite <- Z.pow_succ_r by lia. f_equal. lia. }
  assert (Hlow : 2 ^ (2 * prec - 1 - 1) <= Zpos m1 * Zpos m2).
  { replace (2 * prec - 1 - 1) with ((prec - 1) + (prec - 1)) by lia.
    rewrite Z.pow_add_r by lia. nia. }
  assert (Hupp : Zpos m1 * Zpos m2 < 2 ^ (2 * prec)).
  { replace (2 * prec) with (prec + prec) by lia.
    rewrite Z.pow_add_r by lia. nia. }
  pose proof (Zdigits2_lower (Zpos m1 * Zpos m2) (2 * prec - 1) ltac:(lia) Hlow) as Hdl.
  pose proof (Zdigits2_upper (Zpos m1 * Zpos m2) (2 * prec) ltac:(lia) Hupp) as Hdu.
  rewrite Pos2Z.inj_mul.
  assert (Hval : F2R (Zpos m1 * Zpos m2) (e1 + e2)
                 = (F2R (Zpos m1) e1 * F2R (Zpos m2) e2)%R).
  { unfold F2R. rewrite mult_IZR, powerRZ_add by lra. lra. }
  destruct (binary_round_aux_rel (xorb s1 s2) (Zpos m1 * Zpos m2) (e1 + e2) loc_Exact
              (F2R (Zpos m1) e1 * F2R (Zpos m2) e2))
    as (m & e & Hr & Hdg & He & Hv); try lia.
  { rewrite <- Hval, F2R_succ. pose proof (powerRZ_2_pos (e1 + e2)). lra. }
  exists m, e. repeat split; try assumption; try lia.
Qed.


Lemma SFdiv_core_binary_full (m1 m2 : positive) (e1 e2 : Z) :
  Zdigits2 (Zpos m1) = prec -> Zdigits2 (Zpos m2) = prec ->
  emin prec emax <= e1 - e2 - prec ->
  SFdiv_core_binary prec emax (Zpos m1) e1 (Zpos m2) e2
  = (Zpos m1 * 2 ^ prec / Zpos m2, e1 - e2 - prec,
     new_location (Zpos m2) ((Zpos m1 * 2 ^ prec) mod Zpos m2)).
Proof.
  intros Hd1 Hd2 Hlo. unfold SFdiv_core_binary. rewrite Hd1, Hd2.
  replace (Z.min (fexp prec emax (prec + e1 - (prec + e2))) (e1 - e2))
    with (e1 - e2 - prec) by (unfold fexp; lia).
  replace (e1 - e2 - (e1 - e2 - prec)) with prec by lia.
  destruct prec as [|k|k] eqn:Ek; try lia.
  rewrite Z.shiftl_mul_pow2 by lia.
  unfold Z.div, Z.modulo.
  destruct (Z.div_eucl (Zpos m1 * 2 ^ Zpos k) (Zpos m2)) as [q r]. reflexivity.
Qed.

Lemma SFdiv_bounds (s1 s2 : bool) (m1 m2 : positive) (e1 e2 : Z) :
  Zdigits2 (Zpos m1) = prec -> Zdigits2 (Zpos m2) = prec ->
  emin prec emax <= e1 - e2 - prec -> e1 - e2 + 2 <= emax ->
  exists m e,
    SFdiv prec emax (S754_finite s1 m1 e1) (S754_finite s2 m2 e2)
    = S754_finite (xorb s1 s2) m e
    /\ Zdigits2 (Zpos m) = prec
    /\ e1 - e2 - prec <= e <= e1 - e2 - prec + 2
    /\ (Rabs (F2R (Zpos m) e - F2R (Zpos m1) e1 / F2R (Zpos m2) e2)
         <= F2R (Zpos m1) e1 / F2R (Zpos m2) e2 * powerRZ 2 (1 - prec))%R.
Proof.
  intros Hd1 Hd2 Hlo Hhi. cbn [SFdiv].
  rewrite SFdiv_core_binary_full by assumption.
  destruct (Zdigits2_bounds (Zpos m1) ltac:(lia)) as [Ha1 Ha2].
  destruct (Zdigits2_bounds (Zpos m2) ltac:(lia)) as [Hb1 Hb2].
  rewrite Hd1 in Ha1, Ha2. rewrite Hd2 in Hb1, Hb2.
  assert (Hpp : 0 < 2 ^ (prec - 1)) by (apply Z.pow_pos_nonneg; lia).
  assert (Hp2 : 2 ^ prec = 2 * 2 ^ (prec - 1)).
  { rewrite <- Z.pow_succ_r by lia. f_equal. lia. }
  set (q := Zpos m1 * 2 ^ prec / Zpos m2).
  assert (Hq : q * Zpos m2 <= Zpos m1 * 2 ^ prec < (q + 1) * Zpos m2).
  { unfold q. pose proof (Z.mul_div_le (Zpos m1 * 2 ^ prec) (Zpos m2) ltac:(lia)).
    pose proof (Z.mul_succ_div_gt (Zpos m1 * 2 ^ prec) (Zpos m2) ltac:(lia)). lia. }
  assert (Hq1 : 2 ^ (prec - 1) <= q).
  { apply Z.div_le_lower_bound; [lia|]. nia. }
  assert (Hq2 : q < 2 ^ (prec + 1)).
  { apply Z.div_lt_upper_bound; [lia|].
    rewrite Z.pow_add_r by lia. change (2 ^ 1) with 2. nia. }
  pose proof (Zdigits2_lower q prec ltac:(lia) Hq1) as Hdl.
  pose proof (Zdigits2_upper q (prec + 1) ltac:(lia) Hq2) as Hdu.
  set (x := (F2R (Zpos m1) e1 / F2R (Zpos m2) e2)%R).
  assert (Hx : x = (IZR (Zpos m1 * 2 ^ prec) / IZR (Zpos m2)
                    * powerRZ 2 (e1 - e2 - prec))%R).
  { unfold x, F2R. rewrite mult_IZR, <- powerRZ_2_nonneg by lia.
    replace (e1 - e2 - prec) with (e1 + - e2 + - prec) by lia.
    rewrite !powerRZ_add, !powerRZ_neg' by lra.
    pose proof (powerRZ_2_pos e2). pose proof (powerRZ_2_pos prec).
    assert (0 < IZR (Zpos m2))%R by (apply IZR_lt; lia).
    field. repeat split; lra. }
  destruct (binary_round_aux_rel (xorb s1 s2) q (e1 - e2 - prec)
              (new_location (Zpos m2) ((Zpos m1 * 2 ^ prec) mod Zpos m2)) x)
    as (m & e & Hr & Hdg & He & Hv); try lia.
  { rewrite Hx. unfold F2R.
    pose proof (powerRZ_2_pos (e1 - e2 - prec)) as Hp.
    assert (H2 : (0 < IZR (Zpos m2))%R) by (apply IZR_lt; lia).
    destruct Hq as [Hqa Hqb].
    apply IZR_le in Hqa. apply IZR_lt in Hqb.
    rewrite (mult_IZR q) in Hqa. rewrite (mult_IZR (q + 1)) in Hqb.
    split.
    - apply Rmult_le_compat_r; [lra|].
      apply Rmult_le_reg_r with (IZR (Zpos m2)); [lra|].
      unfold Rdiv. rewrite Rmult_assoc, Rinv_l by lra. lra.
    - apply Rmult_lt_compat_r; [lra|].
      apply Rmult_lt_reg_r with (IZR (Zpos m2)); [lra|].
      unfold Rdiv. rewrite Rmult_assoc, Rinv_l by lra. lra. }
  exists m, e. repeat split; try assumption; try lia.
Qed.

End Rounding.

(** ** The lower share in binary64 *)

Lemma shiftl_floor (m : positive) (e : Z) :
  (IZR (Z.shiftl (Zpos m) e) <= F2R (Zpos m) e < IZR (Z.shiftl (Zpos m) e) + 1)%R.
Proof.
  unfold F2R. destruct (Z.le_gt_cases 0 e) as [He|He].
  - rewrite Z.shiftl_mul_pow2, mult_IZR, <- powerRZ_2_nonneg by lia. lra.
  - rewrite Z.shiftl_div_pow2 by lia.
    set (k := - e). assert (Hk : 0 < k) by (unfold k; lia).
    assert (Hp : 0 < 2 ^ k) by (apply Z.pow_pos_nonneg; lia).
    pose proof (Z.mul_div_le (Zpos m) (2 ^ k) Hp) as H1.
    pose proof (Z.mul_succ_div_gt (Zpos m) (2 ^ k) Hp) as H2.
    set (q := Zpos m / 2 ^ k) in *.
    apply IZR_le in H1. apply IZR_lt in H2.
    replace (Z.succ q) with (q + 1) in H2 by lia.
    rewrite mult_IZR, <- powerRZ_2_nonneg in H1, H2 by lia.
    rewrite plus_IZR in H2.
    replace e with (- k) by (unfold k; lia). rewrite powerRZ_neg' by lra.
    pose proof (powerRZ_2_pos k) as Hpk.
    split.
    + apply Rmult_le_reg_r with (powerRZ 2 k); [lra|].
      rewrite Rmult_assoc, Rinv_l by lra. lra.
    + apply Rmult_lt_reg_r with (powerRZ 2 k); [lra|].
      rewrite Rmult_assoc, Rinv_l by lra. lra.
Qed.

Lemma F64_of_int_pos (p : positive) :
  Zpos p < 2 ^ 53 ->
  normal 53 (F64.of_int (Zpos p)) false (IZR (Zpos p)) (-52) 0.
Proof. intros Hp. apply (binary_round_int 53 1024); lia. Qed.

Lemma eps_value : powerRZ 2 (1 - 53) = (/ 4503599627370496)%R.
Proof.
  change (1 - 53) with (- (52)). rewrite powerRZ_neg' by lra.
  rewrite (powerRZ_2_nonneg 52) by lia. reflexivity.
Qed.

(** For a pair with squared heights [a] (upper) and [d - a] (lower) and a gap
    of magnitude [p] and sign [s], the float computation of the lower share
    is defined, has the sign of the gap, does not exceed the gap and is within
    one pixel of the exact quotient. *)
Lemma share_core (a d : positive) (s : bool) (p : positive) :
  Zpos a <= Zpos d -> Zpos d < 2 ^ 53 -> Zpos p < 2 ^ 32 ->
  exists k,
    F64.trunc (F64.mul (F64.div (F64.of_int (Zpos a)) (F64.of_int (Zpos d)))
                       (binary_round 53 1024 s p 0))
    = Ok (cond_Zopp s k)
    /\ 0 <= k <= Zpos p
    /\ Zpos a * Zpos p / Zpos d - 1 <= k <= Zpos a * Zpos p / Zpos d + 1.
Proof.
  intros Had Hd Hp.
  destruct (F64_of_int_pos a ltac:(lia)) as (ma & ea & -> & Hda & Hea & Hva).
  destruct (F64_of_int_pos d Hd) as (md & ed & -> & Hdd & Hed & Hvd).
  destruct (binary_round_int 53 1024 ltac:(lia) ltac:(lia) s p ltac:(lia))
    as (mg & eg & -> & Hdg & Heg & Hvg).
  destruct (SFdiv_bounds 53 1024 ltac:(lia) ltac:(lia) false false ma md ea ed Hda Hdd)
    as (mr & er & Hr & Hdr & Her & Hvr); [unfold emin; lia | lia |].
  unfold F64.div, F64.prec, F64.emax. rewrite Hr.
  destruct (SFmul_bounds 53 1024 ltac:(lia) ltac:(lia) (xorb false false) s mr mg er eg Hdr Hdg)
    as (mv & ev & Hv & Hdv & Hev & Hvv); [unfold emin; lia | lia |].
  unfold F64.mul, F64.prec, F64.emax. rewrite Hv.
  cbn [F64.trunc xorb]. unfold F64.mag_floor.
  exists (Z.shiftl (Zpos mv) ev). split; [reflexivity|].
  pose proof (shiftl_floor mv ev) as [Hk1 Hk2].
  set (k := Z.shiftl (Zpos mv) ev) in *.
  rewrite Hva, Hvd in Hvr. rewrite Hvg in Hvv.
  set (vr := F2R (Zpos mr) er) in *. set (vv := F2R (Zpos mv) ev) in *.
  set (G := IZR (Zpos p)) in *.
  set (rho := (IZR (Zpos a) / IZR (Zpos d))%R) in *.
  rewrite eps_value in Hvr, Hvv.
  assert (HG0 : (0 < G)%R) by (apply IZR_lt; lia).
  assert (HG1 : (G < 4294967296)%R) by (apply IZR_lt; exact Hp).
  assert (HA0 : (0 < IZR (Zpos a))%R) by (apply IZR_lt; lia).
  assert (HD0 : (0 < IZR (Zpos d))%R) by (apply IZR_lt; lia).
  assert (HAD : (IZR (Zpos a) <= IZR (Zpos d))%R) by (apply IZR_le; lia).
  assert (Hrho0 : (0 < rho)%R) by (apply Rdiv_lt_0_compat; assumption).
  assert (Hrho1 : (rho <= 1)%R).
  { unfold rho. apply Rmult_le_reg_r with (IZR (Zpos d)); [lra|].
    unfold Rdiv. rewrite Rmult_assoc, Rinv_l by lra. lra. }
  (* the exact product and the product with the rounded ratio *)
  set (X := (rho * G)%R). set (Y := (vr * G)%R) in *.
  assert (HX0 : (0 < X)%R) by (apply Rmult_lt_0_compat; assumption).
  assert (HX1 : (X <= G)%R).
  { unfold X. rewrite <- (Rmult_1_l G) at 2. apply Rmult_le_compat_r; lra. }
  apply Rabs_le_inv in Hvr. apply Rabs_le_inv in Hvv.
  assert (HY : (X - X * / 4503599627370496 <= Y <= X + X * / 4503599627370496)%R).
  { unfold X, Y. destruct Hvr as [Hv1 Hv2]. split.
    - apply Rle_trans with ((rho - rho * / 4503599627370496) * G)%R; [lra|].
      apply Rmult_le_compat_r; lra.
    - apply Rle_trans with ((rho + rho * / 4503599627370496) * G)%R; [|lra].
      apply Rmult_le_compat_r; lra. }
  assert (Hk_0 : 0 <= k) by (unfold k; apply Z.shiftl_nonneg; lia).
  (* the exact integer quotient *)
  set (q := Zpos a * Zpos p / Zpos d).
  assert (Hq : q * Zpos d <= Zpos a * Zpos p < (q + 1) * Zpos d).
  { unfold q. pose proof (Z.mul_div_le (Zpos a * Zpos p) (Zpos d) ltac:(lia)).
    pose proof (Z.mul_succ_div_gt (Zpos a * Zpos p) (Zpos d) ltac:(lia)). lia. }
  assert (HqX : (IZR q <= X < IZR q + 1)%R).
  { destruct Hq as [Hq1 Hq2]. apply IZR_le in Hq1. apply IZR_lt in Hq2.
    rewrite !mult_IZR in Hq1, Hq2. rewrite plus_IZR in Hq2. fold G in Hq1, Hq2.
    assert (HXd : (X * IZR (Zpos d) = IZR (Zpos a) * G)%R).
    { unfold X, rho. field. lra. }
    clearbody X. split.
    - apply Rmult_le_reg_r with (IZR (Zpos d)); lra.
    - apply Rmult_lt_reg_r with (IZR (Zpos d)); lra. }
  clearbody X Y vv k.
  assert (Hk_hi : (IZR k < IZR q + 2)%R) by lra.
  assert (Hk_lo : (IZR q - 2 < IZR k)%R) by lra.
  assert (Hk_G : (IZR k < G + 1)%R) by lra.
  replace (IZR q + 2)%R with (IZR (q + 2)) in Hk_hi by (rewrite plus_IZR; lra).
  replace (IZR q - 2)%R with (IZR (q - 2)) in Hk_lo by (rewrite minus_IZR; lra).
  unfold G in Hk_G.
  replace (IZR (Zpos p) + 1)%R with (IZR (Zpos p + 1)) in Hk_G by (rewrite plus_IZR; lra).
  apply lt_IZR in Hk_hi, Hk_lo, Hk_G. lia.
Qed.

(** The lower share of every pair of pixel heights and every pixel gap: the
    cast is defined and the share lies between zero and the gap, within one
    pixel of the exact quotient [h0² · |g| / (h0² + h1²)]. *)
Lemma lower_share_bounds (h0 h1 g : Z) :
  0 <= h0 < 2 ^ 26 -> 0 <= h1 < 2 ^ 26 -> 0 < h0 + h1 -> Z.abs g < 2 ^ 32 ->
  exists k,
    lower_share h0 h1 g = Ok (Z.sgn g * k)
    /\ 0 <= k <= Z.abs g
    /\ h0 ^ 2 * Z.abs g / (h1 ^ 2 + h0 ^ 2) - 1 <= k
       <= h0 ^ 2 * Z.abs g / (h1 ^ 2 + h0 ^ 2) + 1.
Proof.
  intros Hh0 Hh1 Hpos Hg. unfold lower_share, ratio_of.
  assert (Ha : 0 <= h0 ^ 2 < 2 ^ 52).
  { change (2 ^ 52) with (2 ^ 26 * 2 ^ 26). nia. }
  assert (Hb : 0 <= h1 ^ 2 < 2 ^ 52).
  { change (2 ^ 52) with (2 ^ 26 * 2 ^ 26). nia. }
  assert (Hd : 0 < h1 ^ 2 + h0 ^ 2 < 2 ^ 53).
  { change (2 ^ 53) with (2 ^ 52 + 2 ^ 52). nia. }
  destruct (h1 ^ 2 + h0 ^ 2) as [|d|d] eqn:Ed; try lia.
  destruct (h0 ^ 2) as [|a|a] eqn:Ea; try lia.
  - (* the upper rectangle has height zero: the ratio is zero *)
    destruct (F64_of_int_pos d ltac:(lia)) as (md & ed & -> & _).
    exists 0. split; [|split; [lia|]].
    + rewrite Z.mul_0_r. destruct g as [|p|p]; [reflexivity| |].
      * destruct (binary_round_int 53 1024 ltac:(lia) ltac:(lia) false p
                    ltac:(simpl in Hg; lia)) as (mg & eg & Hgv & _).
        change (F64.of_int (Zpos p)) with (binary_round 53 1024 false p 0).
        rewrite Hgv. reflexivity.
      * destruct (binary_round_int 53 1024 ltac:(lia) ltac:(lia) true p
                    ltac:(simpl in Hg; lia)) as (mg & eg & Hgv & _).
        change (F64.of_int (Zneg p)) with (binary_round 53 1024 true p 0).
        rewrite Hgv. reflexivity.
    + rewrite Z.div_0_l by lia. lia.
  - destruct g as [|p|p].
    + (* no gap *)
      exists 0. split; [|split; [lia|]].
      * destruct (F64_of_int_pos a ltac:(lia)) as (ma & ea & -> & Hda & Hea & _).
        destruct (F64_of_int_pos d ltac:(lia)) as (md & ed & -> & Hdd & Hed & _).
        destruct (SFdiv_bounds 53 1024 ltac:(lia) ltac:(lia) false false ma md ea ed Hda Hdd)
          as (mr & er & Hr & _); [unfold emin; lia | lia |].
        unfold F64.div, F64.prec, F64.emax. rewrite Hr. reflexivity.
      * simpl. rewrite Z.mul_0_r, Z.div_0_l by lia. lia.
    + destruct (share_core a d false p ltac:(lia) ltac:(lia) ltac:(simpl in Hg; lia))
        as (k & Hk & Hk1 & Hk2).
      exists k. split; [|split; [exact Hk1 | exact Hk2]].
      change (F64.of_int (Zpos p)) with (binary_round 53 1024 false p 0).
      rewrite Hk. f_equal; unfold cond_Zopp; cbn [Z.sgn]; lia.
    + destruct (share_core a d true p ltac:(lia) ltac:(lia) ltac:(simpl in Hg; lia))
        as (k & Hk & Hk1 & Hk2).
      exists k. split; [|split; [exact Hk1 | exact Hk2]].
      change (F64.of_int (Zneg p)) with (binary_round 53 1024 true p 0).
      rewrite Hk. f_equal; unfold cond_Zopp; cbn [Z.sgn]; lia.
Qed.

(** ** The expansion of rectangles of pixel size *)

Lemma pixel_sized_contours (self : Rects) :
  pixel_sized self -> Forall (fun c => (2 <= length c)%nat) (get_contours self).
Proof.
  intros [Hall _]. unfold get_contours. apply Forall_fmap.
  eapply Forall_impl; [exact Hall|]. intros rc [_ H]. exact H.
Qed.

Lemma pair_share_ok (self : Rects) (i : nat) (rc0 rc1 : Rect * Contour) :
  pixel_sized self -> self !! i = Some rc0 -> self !! S i = Some rc1 ->
  exists l, pair_share rc0 rc1 = Ok l /\ share_ok rc0 rc1 l.
Proof.
  intros [Hall Hadj] H0 H1.
  destruct (Hadj i rc0 rc1 H0 H1) as [Hpos Hgap].
  pose proof (Forall_lookup_1 _ _ _ _ Hall H0) as [Hh0 _].
  pose proof (Forall_lookup_1 _ _ _ _ Hall H1) as [Hh1 _].
  destruct (lower_share_bounds (height rc0.1) (height rc1.1) (pair_gap rc0 rc1)
              Hh0 Hh1 Hpos Hgap) as (k & Hk & Hk1 & Hk2).
  exists (Z.sgn (pair_gap rc0 rc1) * k). split; [exact Hk|].
  exists k. unfold exact_share. auto.
Qed.

Lemma pixel_sized_lower (self : Rects) :
  pixel_sized self ->
  exists lower,
    plus_for_lower_rect self = Ok lower
    /\ length lower = (length self - 1)%nat
    /\ forall (i : nat) rc0 rc1,
         self !! i = Some rc0 -> self !! S i = Some rc1 ->
         exists l, lower !! i = Some l /\ pair_share rc0 rc1 = Ok l
                   /\ share_ok rc0 rc1 l.
Proof.
  intros Hps. rewrite plus_for_lower_closed by (apply pixel_sized_contours; exact Hps).
  destruct (rmap_defined (fun p => pair_share p.1 p.2) (zip self (tail self)))
    as [lower Hlower].
  { apply Forall_lookup. intros i [rc0 rc1] Hi. apply lookup_zip_tail in Hi as [H0 H1].
    destruct (pair_share_ok self i rc0 rc1 Hps H0 H1) as (l & Hl & _). eauto. }
  exists lower. split; [exact Hlower|]. split.
  - rewrite (rmap_length _ _ _ Hlower). apply zip_tail_length.
  - intros i rc0 rc1 H0 H1.
    destruct (rmap_lookup _ _ _ i (rc0, rc1) Hlower) as (l & Hl & Hli).
    { apply lookup_zip_tail. auto. }
    simpl in Hl. exists l. split; [exact Hli|]. split; [exact Hl|].
    destruct (pair_share_ok self i rc0 rc1 Hps H0 H1) as (l' & Hl' & Hok).
    congruence.
Qed.

(** What [expand_rects] does to one pair of neighbours. *)
Lemma expand_rects_pair (self : Rects) (i : nat) (rc0 rc1 : Rect * Contour) :
  pixel_sized self -> self !! i = Some rc0 -> self !! S i = Some rc1 ->
  exists lower upper self' l r0' r1',
    plus_for_lower_rect self = Ok lower
    /\ plus_for_upper_rect self = Ok upper
    /\ expand_rects self = Ok self'
    /\ lower !! i = Some l
    /\ upper !! i = Some (pair_gap rc0 rc1 - l)
    /\ pair_share rc0 rc1 = Ok l
    /\ share_ok rc0 rc1 l
    /\ self' !! i = Some (r0', rc0.2)
    /\ self' !! S i = Some (r1', rc1.2)
    /\ bottom r0' = bottom rc0.1 + (pair_gap rc0 rc1 - l)
    /\ top r1' = top rc1.1 - l.
Proof.
  intros Hps H0 H1.
  pose proof (pixel_sized_contours self Hps) as Hall.
  destruct (pixel_sized_lower self Hps) as (lower & Hlower & Hlen & Hpairs).
  destruct (Hpairs i rc0 rc1 H0 H1) as (l & Hli & Hl & Hok).
  pose proof (lookup_lt_Some _ _ _ H1) as HSi.
  pose proof (plus_for_upper_closed self lower Hall Hlower) as Hupper.
  set (upper := np_sub (gaps (get_contours self)) lower) in *.
  assert (Hui : upper !! i = Some (pair_gap rc0 rc1 - l)).
  { unfold upper, np_sub. rewrite lookup_zip_with, (gaps_lookup self i rc0 rc1 H0 H1), Hli.
    reflexivity. }
  pose proof (expand_rects_closed self lower ltac:(lia) Hall Hlower) as Hexp.
  fold upper in Hexp.
  exists lower, upper, (after_iterations (length self) upper lower (length self) self), l.
  eexists. eexists.
  repeat (split; [first [eassumption | reflexivity]|]).
  rewrite (after_iterations_final _ upper lower self i rc0 eq_refl H0).
  rewrite (after_iterations_final _ upper lower self (S i) rc1 eq_refl H1).
  split; [reflexivity|]. split; [reflexivity|]. cbn [top bottom fst].
  apply list_lookup_total_correct in Hui, Hli.
  replace (S i - 1)%nat with i by lia.
  split; repeat case_decide; lia.
Qed.

Lemma share_ok_nonneg (rc0 rc1 : Rect * Contour) (l : Z) :
  share_ok rc0 rc1 l -> 0 <= pair_gap rc0 rc1 ->
  0 <= l <= pair_gap rc0 rc1.
Proof. intros (k & -> & Hk & _) Hg. nia. Qed.

Lemma share_ok_neg (rc0 rc1 : Rect * Contour) (l : Z) :
  share_ok rc0 rc1 l -> pair_gap rc0 rc1 < 0 ->
  pair_gap rc0 rc1 <= l <= 0.
Proof. intros (k & -> & Hk & _) Hg. nia. Qed.

(** What [expand_rects] does to each rectangle when no gap is negative. *)
Lemma expand_rects_grows (self : Rects) :
  pixel_sized self -> (2 <= length self)%nat ->
  non_overlapping self ->
  exists self',
    expand_rects self = Ok self'
    /\ length self' = length self
    /\ forall (j : nat) rc,
         self !! j = Some rc ->
         exists r', self' !! j = Some (r', rc.2)
                    /\ top r' <= top rc.1 /\ bottom rc.1 <= bottom r'
                    /\ left r' = left rc.1 /\ right r' = right rc.1.
Proof.
  intros Hps HN Hgaps.
  pose proof (pixel_sized_contours self Hps) as Hall.
  destruct (pixel_sized_lower self Hps) as (lower & Hlower & Hlen & Hpairs).
  set (upper := np_sub (gaps (get_contours self)) lower).
  pose proof (expand_rects_closed self lower HN Hall Hlower) as Hexp. fold upper in Hexp.
  assert (Hinc : forall i : nat, (S i < length self)%nat ->
                   0 <= lower !!! i /\ 0 <= upper !!! i).
  { intros i Hi.
    destruct (lookup_lt_is_Some_2 self i ltac:(lia)) as [rc0 H0].
    destruct (lookup_lt_is_Some_2 self (S i) Hi) as [rc1 H1].
    destruct (Hpairs i rc0 rc1 H0 H1) as (l & Hli & _ & Hok).
    pose proof (share_ok_nonneg rc0 rc1 l Hok (Hgaps i rc0 rc1 H0 H1)) as Hl.
    assert (Hui : upper !! i = Some (pair_gap rc0 rc1 - l)).
    { unfold upper, np_sub.
      rewrite lookup_zip_with, (gaps_lookup self i rc0 rc1 H0 H1), Hli. reflexivity. }
    rewrite (list_lookup_total_correct _ _ _ Hli), (list_lookup_total_correct _ _ _ Hui).
    lia. }
  eexists. split; [exact Hexp|]. split; [apply after_iterations_length|].
  intros j rc Hj. pose proof (lookup_lt_Some _ _ _ Hj) as Hlt.
  rewrite (after_iterations_final _ upper lower self j rc eq_refl Hj).
  eexists. split; [reflexivity|]. cbn [top bottom left right].
  pose proof (Hinc 0%nat ltac:(lia)) as [_ Hu0].
  pose proof (Hinc (length self - 2)%nat ltac:(lia)) as [Hll _].
  repeat split; repeat case_decide; try lia.
  - pose proof (Hinc (j - 1)%nat ltac:(lia)). lia.
  - pose proof (Hinc j ltac:(lia)). lia.
Qed.

(** ** The expansion: fewer than two rectangles *)

(** With no rectangle at all the loop body never runs. *)
Lemma expand_rects_empty : expand_rects [] = Ok [].
Proof. reflexivity. Qed.

(** C1: on a collection of exactly one rectangle [expand_rects] does not
    complete.  Both increment arrays are empty; the branch for the first
    rectangle ([i == 0]) subscripts the empty array [plus_for_upper_rect] and
    the call ends with [IndexError], before any rectangle is changed; so does
    [get_processed_img], which starts with [expand_rects].  The claim that
    the call completes without error fails on the code. *)
Theorem expand_rects_single_raises (r : Rect) (c : Contour)
    (image gray : Mat) (h w : Z) (draw : Mat -> Contours -> Mat) :
  plus_for_lower_rect [(r, c)] = Ok []
  /\ plus_for_upper_rect [(r, c)] = Ok []
  /\ expand_body 1 [] [] [(r, c)] 0 = Raise IndexError
  /\ expand_rects [(r, c)] = Raise IndexError
  /\ Frame_expand_rects (mkFrame image gray h w [(r, c)]) = Raise IndexError
  /\ get_processed_img draw (mkFrame image gray h w [(r, c)]) = Raise IndexError.
Proof.
  assert (Hlower : plus_for_lower_rect [(r, c)] = Ok []) by reflexivity.
  assert (Hupper : plus_for_upper_rect [(r, c)] = Ok []) by reflexivity.
  assert (Hbody : expand_body 1 [] [] [(r, c)] 0 = Raise IndexError) by reflexivity.
  assert (Hexp : expand_rects [(r, c)] = Raise IndexError).
  { unfold expand_rects. rewrite Hlower, Hupper. cbn [mbind result_bind].
    change (py_len [(r, c)]) with 1. change (py_range 0 1) with [0].
    cbn [rfold]. rewrite Hbody. reflexivity. }
  do 4 (split; [assumption|]).
  unfold get_processed_img, Frame_expand_rects. cbn [frame_rects].
  rewrite Hexp. split; reflexivity.
Qed.

(** ** The expansion: pairs of neighbours *)

(** Rectangles given explicitly are of pixel size: the heights and the gaps
    are evaluated. *)
Ltac pixel_sized_by_evaluation :=
  unfold three_lines, two_lines, overlapping_lines, line_box;
  split;
  [ repeat (apply List.Forall_cons; [unfold height; simpl; lia|]); apply List.Forall_nil
  | intros i rc0 rc1;
    repeat (destruct i as [|i]; simpl;
            [intros [= <-] [= <-]; unfold pair_gap, gap_of, height; simpl; lia|]);
    simpl; intros; discriminate ].

(** C2 (as amended): for every collection of pixel size and every pair of
    neighbours [(i, i+1)] with heights [h_i] and [h_{i+1}] and gap [g],
    [expand_rects] completes, moves the top edge of the lower rectangle up by
    [l] and the bottom edge of the upper rectangle down by [g - l], where [l]
    is the double [h_i² / (h_{i+1}² + h_i²)] times [g], truncated: the share
    of the lower rectangle is weighted by the squared height of the UPPER
    rectangle.  [l] is within one pixel of the exact share
    [h_i² · |g| / (h_i² + h_{i+1}²)]. *)
Theorem expand_rects_lower_share (self : Rects) (i : nat) (rc0 rc1 : Rect * Contour) :
  pixel_sized self -> self !! i = Some rc0 -> self !! S i = Some rc1 ->
  exists l self' r0' r1',
    lower_share (height rc0.1) (height rc1.1) (pair_gap rc0 rc1) = Ok l
    /\ share_ok rc0 rc1 l
    /\ expand_rects self = Ok self'
    /\ self' !! i = Some (r0', rc0.2)
    /\ self' !! S i = Some (r1', rc1.2)
    /\ top r1' = top rc1.1 - l
    /\ bottom r0' = bottom rc0.1 + (pair_gap rc0 rc1 - l).
Proof.
  intros Hps H0 H1.
  destruct (expand_rects_pair self i rc0 rc1 Hps H0 H1)
    as (lower & upper & self' & l & r0' & r1' & _ & _ & Hexp & _ & _ & Hl & Hok
        & Hr0 & Hr1 & Hb & Ht).
  exists l, self', r0', r1'. repeat split; assumption.
Qed.

Lemma expand_rects_lower_share_witness :
  pixel_sized three_lines
  /\ exists l self' r0' r1',
       lower_share 10 20 20 = Ok l
       /\ share_ok (line_box 0 10) (line_box 30 50) l
       /\ expand_rects three_lines = Ok self'
       /\ self' !! 0%nat = Some (r0', (line_box 0 10).2)
       /\ self' !! 1%nat = Some (r1', (line_box 30 50).2)
       /\ top r1' = 30 - l
       /\ bottom r0' = 10 + (20 - l).
Proof.
  split; [pixel_sized_by_evaluation|].
  apply (expand_rects_lower_share three_lines 0 (line_box 0 10) (line_box 30 50));
    [pixel_sized_by_evaluation | reflexivity | reflexivity].
Defined.

(** C2, as stated, fails: for an upper rectangle of height 10, a lower one of
    height 20 and a gap of 20 pixels the stated fraction
    [h_{i+1}² / (h_i² + h_{i+1}²) = 0.8] gives the lower rectangle 16 pixels
    and the upper one 4; the code gives the lower rectangle 4 pixels (its top
    moves from 30 to 26) and the upper one 16 (its bottom moves from 10 to
    26). *)
Lemma spec_ratio_counterexample :
  height (line_box 0 10).1 = 10
  /\ height (line_box 30 50).1 = 20
  /\ pair_gap (line_box 0 10) (line_box 30 50) = 20
  /\ spec_lower_share 10 20 20 = Ok 16
  /\ plus_for_lower_rect two_lines = Ok [4]
  /\ plus_for_upper_rect two_lines = Ok [16]
  /\ rects_of <$> expand_rects two_lines
     = Ok [mkRect (-16) 26 0 100; mkRect 26 54 0 100].
Proof. repeat split; vm_compute; reflexivity. Qed.

(** C4 (as amended): [expand_rects] does not clamp a gap.  For every
    collection of pixel size and every pair of neighbours the two increments
    sum to the gap and have its sign: no increment is negative when the gap
    is not negative, and for a negative gap (overlapping contours) both
    increments are at most zero and at least one of them is negative, so a
    rectangle shrinks. *)
Theorem increments_follow_gap_sign (self : Rects) (i : nat) (rc0 rc1 : Rect * Contour) :
  pixel_sized self -> self !! i = Some rc0 -> self !! S i = Some rc1 ->
  exists lower upper l u,
    plus_for_lower_rect self = Ok lower
    /\ plus_for_upper_rect self = Ok upper
    /\ lower !! i = Some l
    /\ upper !! i = Some u
    /\ (0 <= pair_gap rc0 rc1 -> 0 <= l /\ 0 <= u)
    /\ (pair_gap rc0 rc1 < 0 -> l <= 0 /\ u <= 0 /\ (l < 0 \/ u < 0)).
Proof.
  intros Hps H0 H1.
  destruct (expand_rects_pair self i rc0 rc1 Hps H0 H1)
    as (lower & upper & self' & l & r0' & r1' & Hlo & Hup & _ & Hli & Hui & _ & Hok & _).
  exists lower, upper, l, (pair_gap rc0 rc1 - l).
  repeat (split; [assumption|]). split.
  - intros Hg. pose proof (share_ok_nonneg rc0 rc1 l Hok Hg). lia.
  - intros Hg. pose proof (share_ok_neg rc0 rc1 l Hok Hg). lia.
Qed.

Lemma increments_follow_gap_sign_witness :
  pixel_sized overlapping_lines
  /\ exists lower upper l u,
       plus_for_lower_rect overlapping_lines = Ok lower
       /\ plus_for_upper_rect overlapping_lines = Ok upper
       /\ lower !! 0%nat = Some l
       /\ upper !! 0%nat = Some u
       /\ (0 <= pair_gap (line_box 20 40) (line_box 30 50) -> 0 <= l /\ 0 <= u)
       /\ (pair_gap (line_box 20 40) (line_box 30 50) < 0 ->
           l <= 0 /\ u <= 0 /\ (l < 0 \/ u < 0)).
Proof.
  split; [pixel_sized_by_evaluation|].
  apply (increments_follow_gap_sign overlapping_lines 0 (line_box 20 40) (line_box 30 50));
    [pixel_sized_by_evaluation | reflexivity | reflexivity].
Defined.

(** C4, as stated, fails: two contours that overlap by 10 pixels give both
    rectangles the increment -5, and every edge moves inward. *)
Lemma negative_gap_counterexample :
  pair_gap (line_box 20 40) (line_box 30 50) = -10
  /\ plus_for_lower_rect overlapping_lines = Ok [-5]
  /\ plus_for_upper_rect overlapping_lines = Ok [-5]
  /\ rects_of <$> expand_rects overlapping_lines
     = Ok [mkRect 25 35 0 100; mkRect 35 45 0 100].
Proof. repeat split; vm_compute; reflexivity. Qed.

(** For every collection of pixel size and every pair of neighbours the
    increment [u] that moves the bottom edge of the upper rectangle down and
    the increment [l] that moves the top edge of the lower rectangle up sum
    to the gap between the two contours exactly.  [l] is the truncated share
    (within one pixel of the exact one); [u] is the rest of the gap, so it
    takes up whatever the truncation leaves. *)
Lemma increments_sum_to_gap (self : Rects) (i : nat) (rc0 rc1 : Rect * Contour) :
  pixel_sized self -> self !! i = Some rc0 -> self !! S i = Some rc1 ->
  exists lower upper l u self' r0' r1',
    plus_for_lower_rect self = Ok lower
    /\ plus_for_upper_rect self = Ok upper
    /\ lower !! i = Some l
    /\ upper !! i = Some u
    /\ u + l = pair_gap rc0 rc1
    /\ share_ok rc0 rc1 l
    /\ expand_rects self = Ok self'
    /\ self' !! i = Some (r0', rc0.2)
    /\ self' !! S i = Some (r1', rc1.2)
    /\ bottom r0' - bottom rc0.1 = u
    /\ top rc1.1 - top r1' = l.
Proof.
  intros Hps H0 H1.
  destruct (expand_rects_pair self i rc0 rc1 Hps H0 H1)
    as (lower & upper & self' & l & r0' & r1' & Hlo & Hup & Hexp & Hli & Hui & _ & Hok
        & Hr0 & Hr1 & Hb & Ht).
  exists lower, upper, l, (pair_gap rc0 rc1 - l), self', r0', r1'.
  repeat (split; [first [assumption | lia]|]). lia.
Qed.


(** ** The expansion: the edges of every rectangle *)

(** C6 (as amended): for every collection of pixel size with two or more
    rectangles whose contours do not overlap, [expand_rects] completes and
    every rectangle keeps its top edge at or above its bottom edge: the top
    edge only moves up, the bottom edge only moves down, the left and right
    edges do not move.  The vertical edges are not confined to the frame. *)
Theorem expand_rects_keeps_edge_order (self : Rects) :
  pixel_sized self -> (2 <= length self)%nat -> non_overlapping self ->
  exists self',
    expand_rects self = Ok self'
    /\ length self' = length self
    /\ forall (j : nat) rc,
         self !! j = Some rc ->
         exists r', self' !! j = Some (r', rc.2)
                    /\ top r' <= bottom r'
                    /\ top r' <= top rc.1 /\ bottom rc.1 <= bottom r'
                    /\ left r' = left rc.1 /\ right r' = right rc.1.
Proof.
  intros Hps HN Hgaps.
  destruct (expand_rects_grows self Hps HN Hgaps) as (self' & Hexp & Hlen & Hall).
  exists self'. split; [exact Hexp|]. split; [exact Hlen|].
  intros j rc Hj. destruct (Hall j rc Hj) as (r' & Hr' & Ht & Hb & Hl & Hr).
  exists r'. repeat (split; [first [assumption | idtac]|]); try assumption.
  destruct Hps as [Hheights _].
  pose proof (Forall_lookup_1 _ _ _ _ Hheights Hj) as [Hh _].
  unfold height in Hh. lia.
Qed.

Lemma expand_rects_keeps_edge_order_witness :
  pixel_sized three_lines /\ (2 <= length three_lines)%nat /\ non_overlapping three_lines
  /\ exists self',
       expand_rects three_lines = Ok self'
       /\ length self' = length three_lines
       /\ forall (j : nat) rc,
            three_lines !! j = Some rc ->
            exists r', self' !! j = Some (r', rc.2)
                       /\ top r' <= bottom r'
                       /\ top r' <= top rc.1 /\ bottom rc.1 <= bottom r'
                       /\ left r' = left rc.1 /\ right r' = right rc.1.
Proof.
  assert (Hno : non_overlapping three_lines).
  { intros i rc0 rc1.
    repeat (destruct i as [|i]; simpl;
            [intros [= <-] [= <-]; unfold pair_gap, gap_of; simpl; lia|]).
    simpl; intros; discriminate. }
  split; [pixel_sized_by_evaluation|]. split; [simpl; lia|]. split; [exact Hno|].
  apply (expand_rects_keeps_edge_order three_lines);
    [pixel_sized_by_evaluation | simpl; lia | exact Hno].
Defined.

(** C6, as stated, fails: in a frame 45 pixels high, two lines of height 10
    at rows 0 and 30 are sorted, do not overlap and lie within the frame;
    after [expand_rects] the first one starts at row -10 and the second one
    ends at row 50. *)
Lemma expand_rects_leaves_frame :
  Forall (in_frame (frame_height small_frame) (frame_width small_frame))
         (rects_of (frame_rects small_frame))
  /\ Sorted top_le (frame_rects small_frame)
  /\ non_overlapping (frame_rects small_frame)
  /\ exists f',
       Frame_expand_rects small_frame = Ok f'
       /\ frame_height f' = 45 /\ frame_width f' = 100
       /\ rects_of (frame_rects f') = [mkRect (-10) 20 0 100; mkRect 20 50 0 100]
       /\ ~ Forall (in_frame (frame_height f') (frame_width f')) (rects_of (frame_rects f')).
Proof.
  split; [|split; [|split]].
  - repeat constructor; simpl; lia.
  - repeat constructor; unfold top_le; simpl; lia.
  - intros i rc0 rc1.
    repeat (destruct i as [|i]; simpl;
            [intros [= <-] [= <-]; unfold pair_gap, gap_of; simpl; lia|]).
    simpl; intros; discriminate.
  - eexists. split; [vm_compute; reflexivity|]. cbn [frame_height frame_width frame_rects].
    repeat split. intros Hall. inversion Hall as [|? ? [Htop _] _]. simpl in Htop. lia.
Qed.

(** ** Calling [get_processed_img] again *)

(** C9: [get_processed_img] is [expand_rects] followed by the drawing, and it
    is not idempotent: on a frame with two lines 20 pixels apart the first
    call leaves the rectangles at rows -10..20 and 20..50, a second call
    moves them on to -20..30 and 10..60. *)
Theorem get_processed_img_not_idempotent (draw : Mat -> Contours -> Mat) :
  (forall f, get_processed_img draw f
             = (f' ← Frame_expand_rects f; Ok (draw_contours draw f')))
  /\ exists f f1 m1 f2 m2,
       frame_rects f = [line_box 0 10; line_box 30 40]
       /\ 0 < pair_gap (line_box 0 10) (line_box 30 40)
       /\ get_processed_img draw f = Ok (f1, m1)
       /\ get_processed_img draw f1 = Ok (f2, m2)
       /\ rects_of (frame_rects f1) = [mkRect (-10) 20 0 100; mkRect 20 50 0 100]
       /\ rects_of (frame_rects f2) = [mkRect (-20) 30 0 100; mkRect 10 60 0 100]
       /\ frame_rects f2 <> frame_rects f1.
Proof.
  split; [reflexivity|].
  assert (E1 : expand_rects [line_box 0 10; line_box 30 40]
               = Ok [(mkRect (-10) 20 0 100, (line_box 0 10).2);
                     (mkRect 20 50 0 100, (line_box 30 40).2)])
    by (vm_compute; reflexivity).
  assert (E2 : expand_rects [(mkRect (-10) 20 0 100, (line_box 0 10).2);
                             (mkRect 20 50 0 100, (line_box 30 40).2)]
               = Ok [(mkRect (-20) 30 0 100, (line_box 0 10).2);
                     (mkRect 10 60 0 100, (line_box 30 40).2)])
    by (vm_compute; reflexivity).
  exists small_frame. do 4 eexists.
  split; [reflexivity|]. split; [unfold pair_gap, gap_of; simpl; lia|].
  split.
  { unfold get_processed_img, Frame_expand_rects, small_frame.
    cbn [frame_rects]. rewrite E1. reflexivity. }
  split.
  { unfold get_processed_img, Frame_expand_rects, draw_contours.
    cbn [frame_rects fst]. rewrite E2. reflexivity. }
  split; [reflexivity|]. split; [reflexivity|].
  cbn [draw_contours frame_rects fst]. discriminate.
Qed.

(** ** Kernel sizes *)

Lemma F64_ceil_pos (m : positive) (e : Z) :
  exists k, F64.ceil (S754_finite false m e) = Ok k /\ 1 <= k.
Proof.
  eexists. split; [reflexivity|].
  assert (Z.shiftl (Zneg m) e < 0) by (apply Z.shiftl_neg; lia). lia.
Qed.

Lemma odd_rounding (y : Z) :
  1 <= y ->
  Z.odd (if y mod 2 =? 1 then y else y - 1) = true
  /\ 1 <= (if y mod 2 =? 1 then y else y - 1).
Proof.
  intros Hy. pose proof (Zmod_odd y) as Hm.
  destruct (Z.eqb_spec (y mod 2) 1) as [H1|H1].
  - split; [|exact Hy]. destruct (Z.odd y); [reflexivity | lia].
  - destruct (Z.odd y) eqn:Ho; [lia|]. split.
    + rewrite Z.sub_1_r, Z.odd_pred, <- Z.negb_odd, Ho. reflexivity.
    + assert (y <> 1) by (intros ->; discriminate). lia.
Qed.

Lemma to_odd_positive (x : PyNum) :
  num_positive x -> exists k, to_odd x = Ok k /\ Z.odd k = true /\ 1 <= k.
Proof.
  intros Hx. unfold to_odd.
  assert (Hc : exists y, PyFloat.ceil x = Ok y /\ 1 <= y).
  { destruct x as [z|[| | |[|] m e]]; simpl in Hx; try discriminate.
    - exists z. split; [reflexivity | lia].
    - apply F64_ceil_pos. }
  destruct Hc as (y & -> & Hy). simpl.
  eexists. split; [reflexivity|]. apply odd_rounding. exact Hy.
Qed.

Lemma to_odd_of_odd (k : Z) : Z.odd k = true -> to_odd (PyInt k) = Ok k.
Proof.
  intros Hk. unfold to_odd. simpl. rewrite Zmod_odd, Hk. reflexivity.
Qed.

Lemma max_with_1_positive (s : spec_float) :
  s <> S754_nan -> s <> S754_infinity false -> num_positive (PyFloat.max_with_1 s).
Proof.
  intros Hn Hi. unfold PyFloat.max_with_1.
  destruct (F64.ltb s PyFloat.one) eqn:E; simpl; [lia|].
  destruct s as [sz|[|]| |[|] m e]; try reflexivity; try congruence; discriminate.
Qed.

Lemma effective_zone_ksize_of_spec (s : spec_float) :
  s <> S754_nan -> s <> S754_infinity false ->
  exists k, effective_zone_ksize_of s = Ok k /\ Z.odd k = true /\ 1 <= k.
Proof.
  intros Hn Hi. unfold effective_zone_ksize_of.
  destruct (to_odd_positive _ (max_with_1_positive s Hn Hi)) as (k & -> & Hodd & Hk).
  simpl. rewrite to_odd_of_odd by exact Hodd. eauto.
Qed.

(** C7: for every positive blur size [s] (the value of a size formula
    [rate * dim // 100]), the kernel dimension computed from it is an odd
    integer and at least 1, both where the mask generator computes it
    ([to_odd s]) and where the effective-zone detector does
    ([to_odd (to_odd (max (s, 1)))]). *)
Theorem kernel_dimension_odd (s : spec_float) :
  is_pos_finite s = true ->
  exists k1 k2,
    to_odd (PyFloat s) = Ok k1 /\ Z.odd k1 = true /\ 1 <= k1
    /\ effective_zone_ksize_of s = Ok k2 /\ Z.odd k2 = true /\ 1 <= k2
    /\ (forall dim, PyFloat.percent_of blur_rate dim = Ok s ->
                    generate_frame_ksize dim = Ok k1)
    /\ (forall dim, PyFloat.percent_of offset_rate dim = Ok s ->
                    effective_zone_ksize dim = Ok k2).
Proof.
  intros Hs.
  destruct (to_odd_positive (PyFloat s) Hs) as (k1 & E1 & Ho1 & Hk1).
  destruct (effective_zone_ksize_of_spec s) as (k2 & E2 & Ho2 & Hk2).
  { intros ->. discriminate. }
  { intros ->. discriminate. }
  exists k1, k2. repeat (split; [assumption|]). split.
  - intros dim Hd. unfold generate_frame_ksize. rewrite Hd. exact E1.
  - intros dim Hd. unfold effective_zone_ksize. rewrite Hd. exact E2.
Qed.

Lemma kernel_dimension_odd_witness :
  is_pos_finite (F64.of_int 15) = true
  /\ exists k1 k2,
       to_odd (PyFloat (F64.of_int 15)) = Ok k1 /\ Z.odd k1 = true /\ 1 <= k1
       /\ effective_zone_ksize_of (F64.of_int 15) = Ok k2 /\ Z.odd k2 = true /\ 1 <= k2
       /\ (forall dim, PyFloat.percent_of blur_rate dim = Ok (F64.of_int 15) ->
                       generate_frame_ksize dim = Ok k1)
       /\ (forall dim, PyFloat.percent_of offset_rate dim = Ok (F64.of_int 15) ->
                       effective_zone_ksize dim = Ok k2).
Proof.
  split; [reflexivity|].
  apply (kernel_dimension_odd (F64.of_int 15)). reflexivity.
Defined.

(** The size formulas on sample dimensions.  A page 1000 pixels wide has blur
    size 15 and offset size 30; below 67 pixels the blur size is zero, which
    is not a positive blur size, and [to_odd] returns -1 for it. *)
Lemma kernel_sizes_sample :
  PyFloat.percent_of blur_rate 1000 = Ok (F64.of_int 15)
  /\ generate_frame_ksize 1000 = Ok 15
  /\ effective_zone_ksize 1000 = Ok 29
  /\ effective_zone_ksize 10 = Ok 1
  /\ generate_frame_ksize 67 = Ok 1
  /\ PyFloat.percent_of blur_rate 50 = Ok (S754_zero false)
  /\ generate_frame_ksize 50 = Ok (-1).
Proof. repeat split; vm_compute; reflexivity. Qed.

(** ** The guard of the clustering helper *)

(** C8: on an array whose first dimension is [rows], the helper raises its
    [TypeError] exactly when [rows] differs from the number of elements (the
    array has more than one column); otherwise the guard does not raise and
    the helper goes on to cluster the array reshaped to one column. *)
Theorem generate_row_label_Kmeans_guard
    (KMeans : Z -> ndarray spec_float -> result (list Z * list spec_float))
    (a : ndarray spec_float) (n_clusters rows : Z) (rest : list Z) :
  shape a = rows :: rest ->
  (rows <> np_size a ->
   generate_row_label_Kmeans KMeans a n_clusters = Raise (TypeError err_msg))
  /\ (rows = np_size a ->
      generate_row_label_Kmeans KMeans a n_clusters
      = KMeans n_clusters (reshape_column a)).
Proof.
  intros Hshape. unfold generate_row_label_Kmeans.
  rewrite Hshape. change (py_index (rows :: rest) 0) with (@Ok Z rows).
  cbn [mbind result_bind].
  split; intros H.
  - destruct (Z.eqb_spec rows (np_size a)); [contradiction | reflexivity].
  - destruct (Z.eqb_spec rows (np_size a)); [reflexivity | contradiction].
Qed.

Lemma generate_row_label_Kmeans_guard_witness :
  shape (mkArray float64 [3; 2] (replicate 6 (S754_zero false))) = 3 :: [2]
  /\ (3 <> np_size (mkArray float64 [3; 2] (replicate 6 (S754_zero false))) ->
      generate_row_label_Kmeans demo_KMeans
        (mkArray float64 [3; 2] (replicate 6 (S754_zero false))) 3
      = Raise (TypeError err_msg))
  /\ (3 = np_size (mkArray float64 [3; 2] (replicate 6 (S754_zero false))) ->
      generate_row_label_Kmeans demo_KMeans
        (mkArray float64 [3; 2] (replicate 6 (S754_zero false))) 3
      = demo_KMeans 3 (reshape_column (mkArray float64 [3; 2] (replicate 6 (S754_zero false))))).
Proof.
  split; [reflexivity|].
  apply (generate_row_label_Kmeans_guard demo_KMeans
           (mkArray float64 [3; 2] (replicate 6 (S754_zero false))) 3 3 [2]).
  reflexivity.
Defined.

(** The guard on sample shapes: a column of three values passes, three rows
    of two values are rejected. *)
Lemma generate_row_label_Kmeans_sample :
  generate_row_label_Kmeans demo_KMeans
    (mkArray float64 [3] (replicate 3 (S754_zero false))) 3 = Ok ([], [])
  /\ generate_row_label_Kmeans demo_KMeans
       (mkArray float64 [3; 1] (replicate 3 (S754_zero false))) 3 = Ok ([], [])
  /\ generate_row_label_Kmeans demo_KMeans
       (mkArray float64 [3; 2] (replicate 6 (S754_zero false))) 3
     = Raise (TypeError err_msg).
Proof. repeat split; reflexivity. Qed.

(** ** Validation of the input image *)

Lemma check_rgb_img_valid (o : PyObj) :
  check_rgb_img o = if valid_image_b o then Ok true else Raise AssertionError.
Proof.
  destruct o as [|[dt sh it]]; [reflexivity|].
  unfold check_rgb_img, valid_image_b, Pixel_dtype, ndim. cbn [dtype shape].
  destruct (Dtype_eqb dt uint8); [|reflexivity]. cbn [py_assert mbind result_bind andb].
  destruct sh as [|a [|b [|c [|d sh]]]]; try reflexivity.
  - unfold py_index. simpl. destruct (c =? 3); reflexivity.
  - cbn [length]. 
    replace (Z.of_nat (S (S (S (S (length sh))))) =? 2) with false by (symmetry; apply Z.eqb_neq; lia).
    replace (Z.of_nat (S (S (S (S (length sh))))) =? 3) with false by (symmetry; apply Z.eqb_neq; lia).
    reflexivity.
Qed.


(** ** Sorting by top edge *)

Lemma insert_by_top_perm (x : Rect * Contour) (l : Rects) :
  Permutation (insert_by_top x l) (x :: l).
Proof.
  induction l as [|y l IH]; simpl; [reflexivity|].
  destruct (top x.1 <=? top y.1); [reflexivity|].
  rewrite IH. apply perm_swap.
Qed.

Lemma insert_by_top_sorted (x : Rect * Contour) (l : Rects) :
  Sorted top_le l -> Sorted top_le (insert_by_top x l).
Proof.
  induction l as [|y l IH]; simpl; intros Hs.
  - constructor; constructor.
  - destruct (Z.leb_spec (top x.1) (top y.1)) as [Hle|Hgt].
    + constructor; [exact Hs|]. constructor. exact Hle.
    + assert (Hyx : top_le y x) by (unfold top_le; lia).
      inversion Hs as [|? ? Hs' Hhd]; subst.
      constructor; [apply IH; exact Hs'|].
      destruct l as [|z l]; simpl.
      * constructor. exact Hyx.
      * destruct (Z.leb_spec (top x.1) (top z.1)).
        -- constructor. exact Hyx.
        -- inversion Hhd; subst. constructor. assumption.
Qed.

Lemma Rects_sorted_sorted (rs : Rects) : Sorted top_le (Rects_sorted rs).
Proof.
  induction rs as [|x rs IH]; simpl; [constructor|].
  apply insert_by_top_sorted. exact IH.
Qed.

Lemma Rects_sorted_perm (rs : Rects) : Permutation (Rects_sorted rs) rs.
Proof.
  induction rs as [|x rs IH]; simpl; [reflexivity|].
  rewrite insert_by_top_perm, IH. reflexivity.
Qed.

(** Entries that are in order already, ties included, stay as they were
    detected. *)
Lemma Rects_sorted_stable (rs : Rects) : Sorted top_le rs -> Rects_sorted rs = rs.
Proof.
  induction rs as [|x rs IH]; intros Hs; [reflexivity|].
  inversion Hs as [|? ? Hs' Hhd]; subst. simpl. rewrite (IH Hs').
  destruct rs as [|y rs]; [reflexivity|]. simpl.
  inversion Hhd as [|? ? Hxy]; subst. unfold top_le in Hxy.
  destruct (Z.leb_spec (top x.1) (top y.1)); [reflexivity | lia].
Qed.

Lemma Rects_sorted_strongly (rs : Rects) : StronglySorted top_le (Rects_sorted rs).
Proof.
  apply Sorted_StronglySorted; [|apply Rects_sorted_sorted].
  intros x y z. unfold top_le. lia.
Qed.

(** ** Construction of a [Frame] *)

Section Construction.

Variable cv2_cvtColor_BGR2GRAY : Mat -> result Mat.
Variable cv2_GaussianBlur : Mat -> Z * Z -> Z -> result Mat.
Variable np_average_rows : Mat -> ndarray spec_float.
Variable KMeans_fit_predict : Z -> ndarray spec_float -> result (list Z * list spec_float).
Variable zone_boxes : Mat -> Z -> result (list (Z * Z * Z * Z)).
Variable paint_mask : Z -> Z -> list Z -> list spec_float -> Z -> Z -> result Mat.
Variable cv2_findContours : Mat -> result (list Contour).

(** An image that violates the dtype or shape invariants is rejected by the
    assertion, before any other step of the construction. *)
Lemma Frame_init_invalid (o : PyObj) :
  valid_image_b o = false ->
  Frame_init cv2_cvtColor_BGR2GRAY cv2_GaussianBlur np_average_rows KMeans_fit_predict
             zone_boxes paint_mask cv2_findContours o
  = Raise AssertionError.
Proof.
  intros Hv. unfold Frame_init. rewrite check_rgb_img_valid, Hv. reflexivity.
Qed.

(** A valid image goes on to the conversion to gray and the detection. *)
Lemma Frame_init_valid (a : Mat) :
  valid_image_b (NDArray a) = true ->
  Frame_init cv2_cvtColor_BGR2GRAY cv2_GaussianBlur np_average_rows KMeans_fit_predict
             zone_boxes paint_mask cv2_findContours (NDArray a)
  = (gray ← cv2_cvtColor_BGR2GRAY a;
     h ← py_index (shape a) 0;
     w ← py_index (shape a) 1;
     rs ← find_rects cv2_GaussianBlur np_average_rows KMeans_fit_predict zone_boxes
            paint_mask cv2_findContours gray w h;
     Ok (mkFrame a gray h w rs)).
Proof.
  intros Hv. unfold Frame_init. rewrite check_rgb_img_valid, Hv. reflexivity.
Qed.

(** C3: the claim that construction completes for every valid image fails on
    two-dimensional (grayscale) images.  The validation accepts them
    ([img.ndim in (2, 3)]), and the next statement converts the image with
    [cv2.COLOR_BGR2GRAY] unconditionally; OpenCV rejects a single-channel
    source for that conversion, so the construction ends with OpenCV's
    error. *)
Theorem Frame_init_rejects_grayscale (a : Mat) :
  (forall m : Mat, ndim m = 2 -> cv2_cvtColor_BGR2GRAY m = Raise Cv2Error) ->
  dtype a = uint8 -> ndim a = 2 ->
  valid_image_b (NDArray a) = true
  /\ check_rgb_img (NDArray a) = Ok true
  /\ Frame_init cv2_cvtColor_BGR2GRAY cv2_GaussianBlur np_average_rows KMeans_fit_predict
                zone_boxes paint_mask cv2_findContours (NDArray a)
     = Raise Cv2Error.
Proof.
  intros Hcv Hdt Hnd.
  assert (Hv : valid_image_b (NDArray a) = true).
  { unfold valid_image_b. rewrite Hdt. unfold ndim in Hnd.
    destruct (shape a) as [|x [|y [|z sh]]]; simpl in Hnd; try lia. reflexivity. }
  split; [exact Hv|]. split.
  - rewrite check_rgb_img_valid, Hv. reflexivity.
  - rewrite (Frame_init_valid a Hv), (Hcv a Hnd). reflexivity.
Qed.

(** C10: for every valid image on which the collaborators succeed, the
    construction completes and the rectangle collection of the new frame is
    the collection extracted from the contours, sorted by top edge; and every
    frame that the construction returns has its rectangles in that order. *)
Theorem Frame_init_sorted (a gray mask : Mat) (h w : Z) (rest : list Z)
    (con cs : list Contour) :
  valid_image_b (NDArray a) = true ->
  shape a = h :: w :: rest ->
  cv2_cvtColor_BGR2GRAY a = Ok gray ->
  generate_frame cv2_GaussianBlur np_average_rows KMeans_fit_predict zone_boxes
                 paint_mask gray w h = Ok mask ->
  cv2_findContours mask = Ok con ->
  np_array_contours con = Ok cs ->
  (exists f,
      Frame_init cv2_cvtColor_BGR2GRAY cv2_GaussianBlur np_average_rows
                 KMeans_fit_predict zone_boxes paint_mask cv2_findContours (NDArray a)
      = Ok f
      /\ frame_rects f = Rects_sorted (Rects_init cs)
      /\ StronglySorted top_le (frame_rects f)
      /\ Permutation (frame_rects f) (Rects_init cs))
  /\ (forall o f,
        Frame_init cv2_cvtColor_BGR2GRAY cv2_GaussianBlur np_average_rows
                   KMeans_fit_predict zone_boxes paint_mask cv2_findContours o
        = Ok f ->
        StronglySorted top_le (frame_rects f)).
Proof.
  intros Hv Hshape Hgray Hmask Hcon Hcs. split.
  - eexists. split.
    + rewrite (Frame_init_valid a Hv), Hgray, Hshape. cbn [mbind result_bind].
      pose proof (py_index_lookup (h :: w :: rest) 0 h eq_refl) as E0.
      pose proof (py_index_lookup (h :: w :: rest) 1 w eq_refl) as E1.
      change (Z.of_nat 0) with 0 in E0. change (Z.of_nat 1) with 1 in E1.
      rewrite E0. cbn [mbind result_bind]. rewrite E1.
      cbn [mbind result_bind]. unfold find_rects.
      rewrite Hmask. cbn [mbind result_bind]. rewrite Hcon. cbn [mbind result_bind].
      rewrite Hcs. reflexivity.
    + cbn [frame_rects]. split; [reflexivity|].
      split; [apply Rects_sorted_strongly | apply Rects_sorted_perm].
  - intros o f Hf. unfold Frame_init in Hf.
    destruct (check_rgb_img o) as [ok|e]; [|discriminate]. cbn [mbind result_bind] in Hf.
    destruct (py_assert ok) as [[]|e]; [|discriminate]. cbn [mbind result_bind] in Hf.
    destruct o as [|b]; [discriminate|].
    destruct (cv2_cvtColor_BGR2GRAY b) as [g|e]; [|discriminate].
    cbn [mbind result_bind] in Hf.
    destruct (py_index (shape b) 0) as [h'|e]; [|discriminate].
    cbn [mbind result_bind] in Hf.
    destruct (py_index (shape b) 1) as [w'|e]; [|discriminate].
    cbn [mbind result_bind] in Hf. unfold find_rects in Hf.
    destruct (generate_frame _ _ _ _ _ g w' h') as [mk|e]; [|discriminate].
    cbn [mbind result_bind] in Hf.
    destruct (cv2_findContours mk) as [cn|e]; [|discriminate].
    cbn [mbind result_bind] in Hf.
    destruct (np_array_contours cn) as [cs'|e]; [|discriminate].
    cbn [mbind result_bind] in Hf. injection Hf as <-.
    cbn [frame_rects]. apply Rects_sorted_strongly.
Qed.

End Construction.

Lemma Frame_init_rejects_grayscale_witness :
  (forall m : Mat, ndim m = 2 -> demo_cvtColor m = Raise Cv2Error)
  /\ dtype (blank [4; 4]) = uint8 /\ ndim (blank [4; 4]) = 2
  /\ valid_image_b (NDArray (blank [4; 4])) = true
  /\ check_rgb_img (NDArray (blank [4; 4])) = Ok true
  /\ demo_init (NDArray (blank [4; 4])) = Raise Cv2Error.
Proof.
  assert (Hcv : forall m : Mat, ndim m = 2 -> demo_cvtColor m = Raise Cv2Error).
  { intros m Hm. unfold demo_cvtColor. rewrite Hm. reflexivity. }
  split; [exact Hcv|]. split; [reflexivity|]. split; [reflexivity|].
  apply (Frame_init_rejects_grayscale demo_cvtColor demo_blur demo_average demo_KMeans
           demo_zone demo_mask demo_findContours (blank [4; 4]));
    [exact Hcv | reflexivity | reflexivity].
Defined.

Lemma Frame_init_sorted_witness :
  valid_image_b (NDArray (blank [60; 100; 3])) = true
  /\ shape (blank [60; 100; 3]) = 60 :: 100 :: [3]
  /\ demo_cvtColor (blank [60; 100; 3]) = Ok (blank [60; 100])
  /\ generate_frame demo_blur demo_average demo_KMeans demo_zone demo_mask
       (blank [60; 100]) 100 60 = Ok (blank [60; 100])
  /\ demo_findContours (blank [60; 100])
     = Ok [(line_box 30 50).2; (line_box 0 10).2]
  /\ np_array_contours [(line_box 30 50).2; (line_box 0 10).2]
     = Ok [(line_box 30 50).2; (line_box 0 10).2]
  /\ (exists f,
         demo_init (NDArray (blank [60; 100; 3])) = Ok f
         /\ frame_rects f
            = Rects_sorted (Rects_init [(line_box 30 50).2; (line_box 0 10).2])
         /\ StronglySorted top_le (frame_rects f)
         /\ Permutation (frame_rects f)
                        (Rects_init [(line_box 30 50).2; (line_box 0 10).2]))
  /\ (forall o f, demo_init o = Ok f -> StronglySorted top_le (frame_rects f)).
Proof.
  assert (H1 : valid_image_b (NDArray (blank [60; 100; 3])) = true) by reflexivity.
  assert (H2 : shape (blank [60; 100; 3]) = 60 :: 100 :: [3]) by reflexivity.
  assert (H3 : demo_cvtColor (blank [60; 100; 3]) = Ok (blank [60; 100]))
    by (vm_compute; reflexivity).
  assert (H4 : generate_frame demo_blur demo_average demo_KMeans demo_zone demo_mask
                 (blank [60; 100]) 100 60 = Ok (blank [60; 100]))
    by (vm_compute; reflexivity).
  assert (H5 : demo_findContours (blank [60; 100])
               = Ok [(line_box 30 50).2; (line_box 0 10).2]) by reflexivity.
  assert (H6 : np_array_contours [(line_box 30 50).2; (line_box 0 10).2]
               = Ok [(line_box 30 50).2; (line_box 0 10).2]) by reflexivity.
  repeat (split; [assumption|]).
  apply (Frame_init_sorted demo_cvtColor demo_blur demo_average demo_KMeans demo_zone
           demo_mask demo_findContours
           (blank [60; 100; 3]) (blank [60; 100]) (blank [60; 100]) 60 100 [3]
           [(line_box 30 50).2; (line_box 0 10).2]
           [(line_box 30 50).2; (line_box 0 10).2] H1 H2 H3 H4 H5 H6).
Defined.

(** The construction on sample images: a colour image is built with its two
    lines in reading order; a grayscale image passes the validation and stops
    at the conversion; an image with four channels is rejected by the
    validation. *)
Lemma Frame_init_sample :
  (rects_of <$> (frame_rects <$> demo_init (NDArray (blank [60; 100; 3]))))
  = Ok [mkRect 0 10 0 100; mkRect 30 50 0 100]
  /\ demo_init (NDArray (blank [60; 100])) = Raise Cv2Error
  /\ demo_init (NDArray (blank [60; 100; 4])) = Raise AssertionError
  /\ demo_init NotAnArray = Raise AssertionError.
Proof. repeat split; vm_compute; reflexivity. Qed.

(** * Further properties of the class *)

(** ** Rounding to an odd number *)

Lemma odd_rounding_any (y : Z) :
  Z.odd (if y mod 2 =? 1 then y else y - 1) = true
  /\ y - 1 <= (if y mod 2 =? 1 then y else y - 1) <= y.
Proof.
  pose proof (Zmod_odd y) as Hm.
  destruct (Z.eqb_spec (y mod 2) 1) as [H1|H1].
  - split; [|lia]. destruct (Z.odd y); [reflexivity | lia].
  - destruct (Z.odd y) eqn:Ho; [lia|]. split; [|lia].
    rewrite Z.sub_1_r, Z.odd_pred, <- Z.negb_odd, Ho. reflexivity.
Qed.

(** X3: [__to_odd] never rounds up past the ceiling: where [math.ceil] returns
    [y], the result is the greatest odd integer not above [y] (so [y] or
    [y - 1], and [-1] for [y = 0]); where [math.ceil] raises, on a NaN or an
    infinity, the same exception leaves [__to_odd]. *)
Theorem to_odd_greatest_odd (x : PyNum) :
  match PyFloat.ceil x with
  | Ok y => exists k, to_odd x = Ok k /\ Z.odd k = true /\ y - 1 <= k <= y
  | Raise e => to_odd x = Raise e
  end.
Proof.
  unfold to_odd. destruct (PyFloat.ceil x) as [y|e]; [|reflexivity].
  cbn [mbind result_bind]. eexists. split; [reflexivity|]. apply odd_rounding_any.
Qed.

(** X4: [__get_effective_zone] rounds its kernel dimensions twice; the second
    rounding changes nothing. *)
Theorem effective_zone_ksize_rounded_once (s : spec_float) :
  effective_zone_ksize_of s = to_odd (PyFloat.max_with_1 s).
Proof.
  unfold effective_zone_ksize_of.
  destruct (to_odd (PyFloat.max_with_1 s)) as [k|e] eqn:E; [|reflexivity].
  cbn [mbind result_bind]. apply to_odd_of_odd.
  unfold to_odd in E.
  destruct (PyFloat.ceil (PyFloat.max_with_1 s)) as [y|e]; [|discriminate].
  injection E as <-. apply odd_rounding_any.
Qed.

(** ** The validation, in terms of dtype and shape *)

Lemma valid_image_b_accepted (o : PyObj) : valid_image_b o = true <-> accepted_image o.
Proof.
  split.
  - destruct o as [|[dt sh it]]; [discriminate|]. unfold valid_image_b. cbn [dtype shape].
    intros H. apply andb_true_iff in H as [Hd Hs].
    assert (Hdt : dt = uint8) by (destruct dt; try discriminate; reflexivity).
    destruct sh as [|h [|w [|c [|? ?]]]]; try discriminate.
    + apply (accepted_gray _ h w); [exact Hdt | reflexivity].
    + apply Z.eqb_eq in Hs. subst c.
      apply (accepted_colour _ h w); [exact Hdt | reflexivity].
  - intros [a h w Hd Hs | a h w Hd Hs]; unfold valid_image_b; rewrite Hd, Hs; reflexivity.
Qed.

(** X1: [__check_rgb_img] returns [True] exactly on [uint8] arrays of two
    dimensions, or of three with three channels; on everything else it raises
    [AssertionError].  It never returns [False]. *)
Theorem check_rgb_img_outcomes (o : PyObj) :
  (check_rgb_img o = Ok true <-> accepted_image o)
  /\ (check_rgb_img o = Raise AssertionError <-> ~ accepted_image o)
  /\ check_rgb_img o <> Ok false.
Proof.
  rewrite check_rgb_img_valid. pose proof (valid_image_b_accepted o) as Hv.
  destruct (valid_image_b o).
  - assert (Ha : accepted_image o) by (apply Hv; reflexivity).
    split; [split; auto|].
    split; [split; [discriminate | intros; contradiction] | discriminate].
  - assert (Ha : ~ accepted_image o) by (intros Ha; apply Hv in Ha; discriminate).
    split; [split; [discriminate | intros; contradiction]|].
    split; [split; auto | discriminate].
Qed.

Section Validation.

Variable cv2_cvtColor_BGR2GRAY : Mat -> result Mat.
Variable cv2_GaussianBlur : Mat -> Z * Z -> Z -> result Mat.
Variable np_average_rows : Mat -> ndarray spec_float.
Variable KMeans_fit_predict : Z -> ndarray spec_float -> result (list Z * list spec_float).
Variable zone_boxes : Mat -> Z -> result (list (Z * Z * Z * Z)).
Variable paint_mask : Z -> Z -> list Z -> list spec_float -> Z -> Z -> result Mat.
Variable cv2_findContours : Mat -> result (list Contour).

(** X2: whatever OpenCV, numpy and scikit-learn do, the construction of a
    [Frame] from anything but an accepted image ends with [AssertionError]:
    the validation comes before every other step. *)
Theorem Frame_init_validates_first (o : PyObj) :
  ~ accepted_image o ->
  Frame_init cv2_cvtColor_BGR2GRAY cv2_GaussianBlur np_average_rows KMeans_fit_predict
             zone_boxes paint_mask cv2_findContours o
  = Raise AssertionError.
Proof.
  intros H. unfold Frame_init. rewrite check_rgb_img_valid.
  destruct (valid_image_b o) eqn:E; [|reflexivity].
  contradiction H. apply valid_image_b_accepted. exact E.
Qed.

End Validation.

Lemma Frame_init_validates_first_witness :
  ~ accepted_image (NDArray (mkArray float64 [4; 4; 3] (replicate 48 0)))
  /\ Frame_init demo_cvtColor demo_blur demo_average demo_KMeans demo_zone demo_mask
                demo_findContours (NDArray (mkArray float64 [4; 4; 3] (replicate 48 0)))
     = Raise AssertionError.
Proof.
  assert (H : ~ accepted_image (NDArray (mkArray float64 [4; 4; 3] (replicate 48 0)))).
  { intros H. apply valid_image_b_accepted in H. discriminate H. }
  split; [exact H|].
  apply (Frame_init_validates_first demo_cvtColor demo_blur demo_average demo_KMeans
           demo_zone demo_mask demo_findContours _ H).
Defined.

(** ** The effective zone *)

Lemma zone_fold (boxes : list (Z * Z * Z * Z)) (l0 r0 u0 d0 : Z) :
  exists l r u d,
    foldl (fun '(l, r, u, d) '(x, y, bw, bh) =>
             (Z.min l x, Z.max r (x + bw), Z.min u y, Z.max d (y + bh)))
          (l0, r0, u0, d0) boxes = (l, r, u, d)
    /\ l <= l0 /\ r0 <= r /\ u <= u0 /\ d0 <= d
    /\ Forall (box_in_zone (l, r, u, d)) boxes
    /\ (l = l0 \/ Exists (fun b => b.1.1.1 = l) boxes)
    /\ (r = r0 \/ Exists (fun b => b.1.1.1 + b.1.2 = r) boxes)
    /\ (u = u0 \/ Exists (fun b => b.1.1.2 = u) boxes)
    /\ (d = d0 \/ Exists (fun b => b.1.1.2 + b.2 = d) boxes).
Proof.
  revert l0 r0 u0 d0. induction boxes as [|[[[x y] bw] bh] boxes IH]; intros l0 r0 u0 d0.
  - exists l0, r0, u0, d0. cbn [foldl].
    split; [reflexivity|]. do 4 (split; [lia|]).
    split; [apply List.Forall_nil|]. repeat split; left; reflexivity.
  - cbn [foldl].
    destruct (IH (Z.min l0 x) (Z.max r0 (x + bw)) (Z.min u0 y) (Z.max d0 (y + bh)))
      as (l & r & u & d & -> & Hl & Hr & Hu & Hd & Hall & Htl & Htr & Htu & Htd).
    exists l, r, u, d. split; [reflexivity|].
    do 4 (split; [lia|]). split; [|split; [|split; [|split]]].
    + apply List.Forall_cons; [unfold box_in_zone; lia | exact Hall].
    + destruct Htl as [Htl|Htl]; [|right; apply Exists_cons_tl; exact Htl].
      destruct (Z.min_spec l0 x) as [[_ Hm]|[_ Hm]]; [left; lia|].
      right. apply Exists_cons_hd. cbn [fst]. lia.
    + destruct Htr as [Htr|Htr]; [|right; apply Exists_cons_tl; exact Htr].
      destruct (Z.max_spec r0 (x + bw)) as [[_ Hm]|[_ Hm]]; [|left; lia].
      right. apply Exists_cons_hd. cbn [fst snd]. lia.
    + destruct Htu as [Htu|Htu]; [|right; apply Exists_cons_tl; exact Htu].
      destruct (Z.min_spec u0 y) as [[_ Hm]|[_ Hm]]; [left; lia|].
      right. apply Exists_cons_hd. cbn [fst snd]. lia.
    + destruct Htd as [Htd|Htd]; [|right; apply Exists_cons_tl; exact Htd].
      destruct (Z.max_spec d0 (y + bh)) as [[_ Hm]|[_ Hm]]; [|left; lia].
      right. apply Exists_cons_hd. cbn [fst snd]. lia.
Qed.

Section Zone.

Variable cv2_GaussianBlur : Mat -> Z * Z -> Z -> result Mat.
Variable zone_boxes : Mat -> Z -> result (list (Z * Z * Z * Z)).

(** X7: where the blur and the outline detection complete,
    [__get_effective_zone] returns the smallest zone that holds every
    bounding box and the corner-to-corner zone [(w, 0, h, 0)] it starts
    from: every box lies within it, its left and upper ends are at most [w]
    and [h], its right and lower ends at least 0, and each end is the one it
    starts from or the edge of a box.  Without boxes it is [(w, 0, h, 0)],
    whose left end lies beyond its right end. *)
Theorem get_effective_zone_encloses (gray : Mat) (w h kx ky : Z) (blurred : Mat)
    (boxes : list (Z * Z * Z * Z)) :
  effective_zone_ksize w = Ok kx -> effective_zone_ksize h = Ok ky ->
  cv2_GaussianBlur gray (kx, ky) 0 = Ok blurred ->
  zone_boxes blurred 250 = Ok boxes ->
  exists l r u d,
    get_effective_zone cv2_GaussianBlur zone_boxes gray w h = Ok (l, r, u, d)
    /\ l <= w /\ 0 <= r /\ u <= h /\ 0 <= d
    /\ Forall (box_in_zone (l, r, u, d)) boxes
    /\ (l = w \/ Exists (fun b => b.1.1.1 = l) boxes)
    /\ (r = 0 \/ Exists (fun b => b.1.1.1 + b.1.2 = r) boxes)
    /\ (u = h \/ Exists (fun b => b.1.1.2 = u) boxes)
    /\ (d = 0 \/ Exists (fun b => b.1.1.2 + b.2 = d) boxes)
    /\ (boxes = [] -> (l, r, u, d) = (w, 0, h, 0)).
Proof.
  intros Hkx Hky Hblur Hboxes. unfold get_effective_zone.
  rewrite Hkx, Hky. cbn [mbind result_bind]. rewrite Hblur. cbn [mbind result_bind].
  rewrite Hboxes. cbn [mbind result_bind].
  destruct (zone_fold boxes w 0 h 0)
    as (l & r & u & d & Hf & Hl & Hr & Hu & Hd & Hall & Htl & Htr & Htu & Htd).
  exists l, r, u, d. rewrite Hf.
  split; [reflexivity|]. do 9 (split; [assumption|]).
  intros ->. cbn [foldl] in Hf. congruence.
Qed.

End Zone.

Lemma get_effective_zone_encloses_witness :
  effective_zone_ksize 100 = Ok 3 /\ effective_zone_ksize 60 = Ok 1
  /\ exists l r u d,
       get_effective_zone demo_blur (fun _ _ => Ok [(10, 5, 30, 8); (20, 30, 60, 12)])
                          (blank [60; 100]) 100 60 = Ok (l, r, u, d)
       /\ l <= 100 /\ 0 <= r /\ u <= 60 /\ 0 <= d
       /\ Forall (box_in_zone (l, r, u, d)) [(10, 5, 30, 8); (20, 30, 60, 12)]
       /\ (l = 100 \/ Exists (fun b => b.1.1.1 = l) [(10, 5, 30, 8); (20, 30, 60, 12)])
       /\ (r = 0 \/ Exists (fun b => b.1.1.1 + b.1.2 = r)
                           [(10, 5, 30, 8); (20, 30, 60, 12)])
       /\ (u = 60 \/ Exists (fun b => b.1.1.2 = u) [(10, 5, 30, 8); (20, 30, 60, 12)])
       /\ (d = 0 \/ Exists (fun b => b.1.1.2 + b.2 = d)
                           [(10, 5, 30, 8); (20, 30, 60, 12)])
       /\ ([(10, 5, 30, 8); (20, 30, 60, 12)] = [] -> (l, r, u, d) = (100, 0, 60, 0)).
Proof.
  assert (H1 : effective_zone_ksize 100 = Ok 3) by (vm_compute; reflexivity).
  assert (H2 : effective_zone_ksize 60 = Ok 1) by (vm_compute; reflexivity).
  split; [exact H1|]. split; [exact H2|].
  apply (get_effective_zone_encloses demo_blur
           (fun _ _ => Ok [(10, 5, 30, 8); (20, 30, 60, 12)])
           (blank [60; 100]) 100 60 3 1 (blank [60; 100])
           [(10, 5, 30, 8); (20, 30, 60, 12)] H1 H2 eq_refl eq_refl).
Defined.

(** ** The guard of the clustering helper, in terms of columns *)

(** X8: the guard compares the number of rows with the number of elements.  An
    array with rows is rejected exactly when the product of its other
    dimensions is not 1; an array without rows passes however many columns
    it has, and an array of no dimension at all ends the helper with
    [IndexError] before the guard. *)
Theorem generate_row_label_Kmeans_columns
    (KMeans : Z -> ndarray spec_float -> result (list Z * list spec_float))
    (a : ndarray spec_float) (n_clusters : Z) :
  match shape a with
  | [] => generate_row_label_Kmeans KMeans a n_clusters = Raise IndexError
  | rows :: rest =>
      generate_row_label_Kmeans KMeans a n_clusters
      = if (rows =? 0) || (foldr Z.mul 1 rest =? 1)
        then KMeans n_clusters (reshape_column a)
        else Raise (TypeError err_msg)
  end.
Proof.
  unfold generate_row_label_Kmeans, np_size.
  destruct (shape a) as [|rows rest]; [reflexivity|].
  change (py_index (rows :: rest) 0) with (@Ok Z rows).
  cbn [mbind result_bind foldr].
  set (P := foldr Z.mul 1 rest).
  destruct (Z.eqb_spec rows (rows * P)) as [E|E];
    destruct (Z.eqb_spec rows 0) as [E0|E0];
    destruct (Z.eqb_spec P 1) as [E1|E1]; cbn [negb orb]; try reflexivity; exfalso; nia.
Qed.

(** ** The mask *)

Lemma zip_with_replicate_fmap {A B C} (f : A -> B -> C) (r : A) (g : Z -> B) (l : list Z) :
  zip_with f (replicate (length l) r) (g <$> l) = (fun x => f r (g x)) <$> l.
Proof. induction l as [|x l IH]; simpl; [reflexivity | f_equal; exact IH]. Qed.

Lemma fmap_const_replicate {A B} (v : B) (n : nat) (x : A) :
  (fun _ => v) <$> replicate n x = replicate n v.
Proof. induction n as [|n IH]; simpl; [reflexivity | f_equal; exact IH]. Qed.

Lemma fmap_replicate_absent {A} (f : bool -> A) (absence : Z) (l : list Z) :
  np_any ((fun x => negb (x =? absence)) <$> l) = false ->
  replicate (length l) (f true) = (fun x => f (x =? absence)) <$> l.
Proof.
  unfold np_any. induction l as [|x l IH]; simpl; [reflexivity|].
  intros H. apply orb_false_elim in H as [Hx Hl].
  apply negb_false_iff in Hx. rewrite Hx. f_equal. apply IH. exact Hl.
Qed.

(** The rows after the painting: all white for the rows labelled as absence,
    all black for the others. *)
Lemma paint_rows_ok (h w : Z) (labels : list Z) (centers : list spec_float)
    (absence : Z) :
  0 <= h -> 0 <= w -> np_argmax centers = Ok absence -> length labels = Z.to_nat h ->
  paint_rows h w labels centers
  = Ok ((fun l => replicate (Z.to_nat w)
                    (if l =? absence then (255, 255, 255) else (0, 0, 0))) <$> labels).
Proof.
  intros Hh Hw Ha Hlen. unfold paint_rows. rewrite Ha. cbn [mbind result_bind].
  unfold np_zeros_u8.
  destruct (Z.ltb_spec h 0); [lia|]. destruct (Z.ltb_spec w 0); [lia|].
  cbn [orb mbind result_bind]. unfold image_map.
  rewrite !fmap_replicate. change (pixel_map (fun v => u8_add v 255) (0, 0, 0))
    with ((255, 255, 255) : Pixel).
  destruct (np_any _) eqn:Hany.
  - unfold assign_rows. rewrite length_fmap, length_replicate, Hlen, Nat.eqb_refl.
    f_equal. rewrite <- Hlen, zip_with_replicate_fmap.
    apply list_fmap_ext. intros _ l _.
    destruct (l =? absence); cbn [negb]; [reflexivity|].
    apply fmap_const_replicate.
  - f_equal. rewrite <- Hlen.
    apply (fmap_replicate_absent
             (fun b : bool => replicate (Z.to_nat w)
                                (if b then (255, 255, 255) else (0, 0, 0)))).
    exact Hany.
Qed.

Lemma rows_eq_replicate {A} (rows : list (list A)) (H W : nat) (v : A) :
  length rows = H -> Forall (fun row => length row = W) rows ->
  (forall y x : nat, (y < H)%nat -> (x < W)%nat -> rows !! y ≫= (.!! x) = Some v) ->
  rows = replicate H (replicate W v).
Proof.
  intros Hlen Hall Hpix. apply list_eq_same_length with H;
    [apply length_replicate | exact Hlen|].
  intros y row row' Hy Hrow Hrow'.
  apply lookup_replicate in Hrow' as [-> _].
  pose proof (Forall_lookup_1 _ _ _ _ Hall Hrow) as Hw.
  apply list_eq_same_length with W; [apply length_replicate | exact Hw|].
  intros x p p' Hx Hp Hp'.
  apply lookup_replicate in Hp' as [-> _].
  specialize (Hpix y x Hy Hx). rewrite Hrow in Hpix. simpl in Hpix. congruence.
Qed.

Section MaskProperties.

Variable gray_of : Pixel -> Z.
Hypothesis gray_black : gray_of (0, 0, 0) = 0.
Hypothesis gray_white : gray_of (255, 255, 255) = 255.

Lemma finish_frame_pixel (h w : Z) (labels : list Z) (absence left_end right_end : Z)
    (y x : nat) :
  0 <= h -> 0 <= w -> length labels = Z.to_nat h ->
  (y < Z.to_nat h)%nat -> (x < Z.to_nat w)%nat ->
  finish_frame gray_of h w
    ((fun l => replicate (Z.to_nat w)
                 (if l =? absence then (255, 255, 255) else (0, 0, 0))) <$> labels)
    left_end right_end !! y ≫= (.!! x)
  = Some (mask_value labels absence w left_end right_end y x).
Proof.
  intros Hh Hw Hlen Hy Hx. unfold finish_frame, image_map, assign_block, mask_value.
  rewrite !list_lookup_fmap, !list_lookup_imap, !list_lookup_fmap.
  destruct (labels !! y) as [l|] eqn:El;
    [|apply lookup_ge_None in El; lia].
  cbn [fmap option_fmap option_map mbind option_bind].
  rewrite !length_imap, !length_fmap, Hlen.
  rewrite (Z2Nat.id h) by lia.
  assert (Hrows : in_slice 0 h h y = true).
  { unfold in_slice, slice_bound. change (0 <? 0) with false. cbv iota.
    destruct (Z.ltb_spec h 0); [lia|]. rewrite Z.min_id.
    apply andb_true_intro. split; [apply Z.leb_le | apply Z.ltb_lt]; lia. }
  rewrite Hrows.
  rewrite !list_lookup_fmap, !list_lookup_imap, !length_imap, !length_replicate.
  rewrite lookup_replicate_2 by exact Hx.
  cbn [fmap option_fmap option_map mbind option_bind].
  rewrite (Z2Nat.id w) by lia. f_equal.
  unfold in_slice.
  assert (Hw0 : slice_bound 0 w = 0).
  { unfold slice_bound. change (0 <? 0) with false. cbv iota. lia. }
  assert (Hww : slice_bound w w = w).
  { unfold slice_bound. destruct (Z.ltb_spec w 0); lia. }
  rewrite Hw0, Hww.
  replace (0 <=? Z.of_nat x) with true by (symmetry; apply Z.leb_le; lia).
  replace (Z.of_nat x <? w) with true by (symmetry; apply Z.ltb_lt; lia).
  cbn [andb]. rewrite andb_true_r.
  destruct (Z.ltb_spec (Z.of_nat x) (slice_bound left_end w)) as [H1|H1];
    destruct (Z.leb_spec (slice_bound right_end w) (Z.of_nat x)) as [H2|H2];
    destruct (l =? absence); cbn [negb andb];
    repeat match goal with
           | |- context [?a <=? ?b] =>
               destruct (Z.leb_spec a b); try lia
           | |- context [?a <? ?b] =>
               destruct (Z.ltb_spec a b); try lia
           end;
    cbn [andb]; (exact gray_white || exact gray_black).
Qed.

(** The painted rows keep their number and their width through the rest of
    [__generate_frame]. *)
Lemma finish_frame_shape (h w : Z) (labels : list Z) (absence left_end right_end : Z) :
  length labels = Z.to_nat h ->
  length (finish_frame gray_of h w
            ((fun l => replicate (Z.to_nat w)
                         (if l =? absence then (255, 255, 255) else (0, 0, 0))) <$> labels)
            left_end right_end) = Z.to_nat h
  /\ Forall (fun row => length row = Z.to_nat w)
            (finish_frame gray_of h w
               ((fun l => replicate (Z.to_nat w)
                            (if l =? absence then (255, 255, 255) else (0, 0, 0))) <$> labels)
               left_end right_end).
Proof.
  intros Hlen. unfold finish_frame, image_map, assign_block. split.
  - rewrite !length_fmap, !length_imap, length_fmap. exact Hlen.
  - apply Forall_lookup. intros y row.
    rewrite !list_lookup_fmap, !list_lookup_imap, !list_lookup_fmap.
    destruct (labels !! y) as [l|]; [|discriminate].
    cbn [fmap option_fmap option_map mbind option_bind]. intros [= <-].
    rewrite !length_fmap.
    repeat match goal with
           | |- context [if ?c then _ else _] => destruct c
           end;
      rewrite ?length_imap, ?length_replicate; reflexivity.
Qed.

Lemma mask_rows_closed (h w : Z) (labels : list Z) (centers : list spec_float)
    (absence left_end right_end : Z) :
  0 <= h -> 0 <= w -> np_argmax centers = Ok absence -> length labels = Z.to_nat h ->
  mask_rows gray_of h w labels centers left_end right_end
  = Ok (finish_frame gray_of h w
          ((fun l => replicate (Z.to_nat w)
                       (if l =? absence then (255, 255, 255) else (0, 0, 0))) <$> labels)
          left_end right_end).
Proof.
  intros Hh Hw Ha Hlen. unfold mask_rows.
  rewrite (paint_rows_ok h w labels centers absence Hh Hw Ha Hlen). reflexivity.
Qed.

(** X9: the mask has [h] rows of [w] pixels; the pixel in row [y] and column [x]
    is white exactly when row [y] is not labelled as absence and
    [left_end <= x < right_end] (the ends taken as slice bounds), and black
    otherwise. *)
Theorem mask_rows_pixels (h w : Z) (labels : list Z) (centers : list spec_float)
    (absence left_end right_end : Z) :
  0 <= h -> 0 <= w -> np_argmax centers = Ok absence -> length labels = Z.to_nat h ->
  exists rows,
    mask_rows gray_of h w labels centers left_end right_end = Ok rows
    /\ length rows = Z.to_nat h
    /\ Forall (fun row => length row = Z.to_nat w) rows
    /\ forall y x : nat,
         (y < Z.to_nat h)%nat -> (x < Z.to_nat w)%nat ->
         rows !! y ≫= (.!! x)
         = Some (mask_value labels absence w left_end right_end y x).
Proof.
  intros Hh Hw Ha Hlen. eexists.
  split; [exact (mask_rows_closed h w labels centers absence left_end right_end
                   Hh Hw Ha Hlen)|].
  destruct (finish_frame_shape h w labels absence left_end right_end Hlen) as [Hn Hall].
  split; [exact Hn|]. split; [exact Hall|].
  intros y x Hy Hx. apply finish_frame_pixel; assumption.
Qed.

(** X10: where the zone is empty, its right end not beyond its left end, the mask
    is black all over, whatever the labels of the rows. *)
Theorem mask_rows_without_zone (h w : Z) (labels : list Z) (centers : list spec_float)
    (absence left_end right_end : Z) :
  0 <= h -> 0 <= w -> np_argmax centers = Ok absence -> length labels = Z.to_nat h ->
  slice_bound right_end w <= slice_bound left_end w ->
  mask_rows gray_of h w labels centers left_end right_end
  = Ok (replicate (Z.to_nat h) (replicate (Z.to_nat w) 0)).
Proof.
  intros Hh Hw Ha Hlen Hzone.
  rewrite (mask_rows_closed h w labels centers absence left_end right_end Hh Hw Ha Hlen).
  destruct (finish_frame_shape h w labels absence left_end right_end Hlen) as [Hn Hall].
  f_equal. apply rows_eq_replicate; [exact Hn | exact Hall|].
  intros y x Hy Hx.
  rewrite (finish_frame_pixel h w labels absence left_end right_end y x Hh Hw Hlen Hy Hx).
  f_equal.
  unfold mask_value. destruct (labels !! y) as [l|]; [|reflexivity].
  destruct (Z.leb_spec (slice_bound left_end w) (Z.of_nat x));
    destruct (Z.ltb_spec (Z.of_nat x) (slice_bound right_end w)); try lia;
    rewrite ?andb_false_r; reflexivity.
Qed.

Variable cv2_GaussianBlur : Mat -> Z * Z -> Z -> result Mat.
Variable np_average_rows : Mat -> ndarray spec_float.
Variable KMeans_fit_predict : Z -> ndarray spec_float -> result (list Z * list spec_float).
Variable zone_boxes : Mat -> Z -> result (list (Z * Z * Z * Z)).

(** X11: [__generate_frame] from end to end, where the blurs, the clustering and
    the outline detection complete and the clustering labels every row: the
    result is an image of [h] rows and [w] columns that is white exactly on
    the rows not labelled as absence, between the left and the right end of
    the zone returned by [__get_effective_zone]. *)
Theorem generate_frame_mask (gray : Mat) (w h kx ky kx' ky' : Z) (blurred blurred' : Mat)
    (labels : list Z) (centers : list spec_float) (absence : Z)
    (boxes : list (Z * Z * Z * Z)) :
  0 <= h -> 0 <= w ->
  generate_frame_ksize w = Ok kx -> generate_frame_ksize h = Ok ky ->
  cv2_GaussianBlur gray (kx, ky) 3 = Ok blurred ->
  generate_row_label_Kmeans KMeans_fit_predict (np_average_rows blurred) 3
  = Ok (labels, centers) ->
  np_argmax centers = Ok absence -> length labels = Z.to_nat h ->
  effective_zone_ksize w = Ok kx' -> effective_zone_ksize h = Ok ky' ->
  cv2_GaussianBlur gray (kx', ky') 0 = Ok blurred' ->
  zone_boxes blurred' 250 = Ok boxes ->
  exists l r u d rows,
    get_effective_zone cv2_GaussianBlur zone_boxes gray w h = Ok (l, r, u, d)
    /\ generate_frame cv2_GaussianBlur np_average_rows KMeans_fit_predict zone_boxes
                      (paint_mask_rows gray_of) gray w h
       = Ok (mkArray uint8 [h; w] (concat rows))
    /\ length rows = Z.to_nat h
    /\ Forall (fun row => length row = Z.to_nat w) rows
    /\ forall y x : nat,
         (y < Z.to_nat h)%nat -> (x < Z.to_nat w)%nat ->
         rows !! y ≫= (.!! x) = Some (mask_value labels absence w l r y x).
Proof.
  intros Hh Hw Hkx Hky Hblur Hk Ha Hlen Hkx' Hky' Hblur' Hboxes.
  assert (Hz : get_effective_zone cv2_GaussianBlur zone_boxes gray w h
               = Ok (foldl (fun '(l, r, u, d) '(x, y, bw, bh) =>
                              (Z.min l x, Z.max r (x + bw), Z.min u y, Z.max d (y + bh)))
                           (w, 0, h, 0) boxes)).
  { unfold get_effective_zone. rewrite Hkx', Hky'. cbn [mbind result_bind].
    rewrite Hblur'. cbn [mbind result_bind]. rewrite Hboxes. reflexivity. }
  destruct (foldl _ _ boxes) as [[[l r] u] d].
  pose proof (mask_rows_closed h w labels centers absence l r Hh Hw Ha Hlen) as Hrows.
  destruct (finish_frame_shape h w labels absence l r Hlen) as [Hn Hall].
  exists l, r, u, d. eexists. split; [exact Hz|]. split; [|split; [exact Hn|]].
  - unfold generate_frame. rewrite Hkx, Hky. cbn [mbind result_bind].
    rewrite Hblur. cbn [mbind result_bind]. rewrite Hk. cbn [mbind result_bind].
    rewrite Hz. cbn [mbind result_bind fst snd].
    unfold paint_mask_rows. rewrite Hrows. reflexivity.
  - split; [exact Hall|].
    intros y x Hy Hx. apply finish_frame_pixel; assumption.
Qed.

End MaskProperties.

Lemma mask_rows_pixels_witness :
  demo_gray (0, 0, 0) = 0 /\ demo_gray (255, 255, 255) = 255
  /\ np_argmax [F64.of_int 200; F64.of_int 50] = Ok 0
  /\ exists rows,
       mask_rows demo_gray 3 4 [0; 1; 0] [F64.of_int 200; F64.of_int 50] 1 3 = Ok rows
       /\ length rows = Z.to_nat 3
       /\ Forall (fun row => length row = Z.to_nat 4) rows
       /\ forall y x : nat,
            (y < Z.to_nat 3)%nat -> (x < Z.to_nat 4)%nat ->
            rows !! y ≫= (.!! x) = Some (mask_value [0; 1; 0] 0 4 1 3 y x).
Proof.
  split; [reflexivity|]. split; [reflexivity|]. split; [reflexivity|].
  apply (mask_rows_pixels demo_gray eq_refl eq_refl 3 4 [0; 1; 0]
           [F64.of_int 200; F64.of_int 50] 0 1 3);
    [lia | lia | reflexivity | reflexivity].
Defined.

Lemma mask_rows_without_zone_witness :
  slice_bound 0 4 <= slice_bound 4 4
  /\ mask_rows demo_gray 3 4 [0; 1; 0] [F64.of_int 200; F64.of_int 50] 4 0
     = Ok (replicate (Z.to_nat 3) (replicate (Z.to_nat 4) 0)).
Proof.
  split; [vm_compute; discriminate|].
  apply (mask_rows_without_zone demo_gray eq_refl eq_refl 3 4 [0; 1; 0]
           [F64.of_int 200; F64.of_int 50] 0 4 0);
    [lia | lia | reflexivity | reflexivity | vm_compute; discriminate].
Defined.

Lemma generate_frame_mask_witness :
  exists l r u d rows,
    get_effective_zone demo_blur (fun _ _ => Ok [(10, 5, 80, 50)]) (blank [67; 100]) 100 67
    = Ok (l, r, u, d)
    /\ generate_frame demo_blur demo_average demo_KMeans_rows
                      (fun _ _ => Ok [(10, 5, 80, 50)]) (paint_mask_rows demo_gray)
                      (blank [67; 100]) 100 67
       = Ok (mkArray uint8 [67; 100] (concat rows))
    /\ length rows = Z.to_nat 67
    /\ Forall (fun row => length row = Z.to_nat 100) rows
    /\ forall y x : nat,
         (y < Z.to_nat 67)%nat -> (x < Z.to_nat 100)%nat ->
         rows !! y ≫= (.!! x)
         = Some (mask_value (imap (fun i _ => Z.of_nat i mod 2)
                                  (replicate 67 (S754_zero false)))
                            0 100 l r y x).
Proof.
  apply (generate_frame_mask demo_gray eq_refl eq_refl demo_blur demo_average
           demo_KMeans_rows (fun _ _ => Ok [(10, 5, 80, 50)]) (blank [67; 100]) 100 67
           1 1 3 1 (blank [67; 100]) (blank [67; 100])
           (imap (fun i _ => Z.of_nat i mod 2) (replicate 67 (S754_zero false)))
           [F64.of_int 255; F64.of_int 128; F64.of_int 0] 0 [(10, 5, 80, 50)]);
    first [lia | vm_compute; reflexivity].
Defined.

(** ** Shares that the float computation gets exactly *)

Lemma shr_1_double (c : Z) :
  0 <= c -> shr_1 (Build_shr_record (c * 2) false false) = Build_shr_record c false false.
Proof.
  intros Hc. destruct c as [|p|p]; [reflexivity| |lia].
  replace (Zpos p * 2) with (Zpos p~0) by lia. reflexivity.
Qed.

Lemma iter_pos_shr_1_exact (p : positive) (c : Z) :
  0 <= c ->
  SpecFloat.iter_pos shr_1 p (Build_shr_record (c * 2 ^ Zpos p) false false)
  = Build_shr_record c false false.
Proof.
  revert c. induction p as [p IH|p IH|]; intros c Hc; cbn [SpecFloat.iter_pos].
  - assert (Hp : 0 < 2 ^ Zpos p) by (apply Z.pow_pos_nonneg; lia).
    replace (c * 2 ^ Zpos p~1) with (c * 2 ^ Zpos p * 2 ^ Zpos p * 2).
    + rewrite shr_1_double by nia. rewrite IH by nia. apply IH. exact Hc.
    + replace (Zpos p~1) with (Zpos p + Zpos p + 1) by lia.
      rewrite !Z.pow_add_r by lia. change (2 ^ 1) with 2. lia.
  - assert (Hp : 0 < 2 ^ Zpos p) by (apply Z.pow_pos_nonneg; lia).
    replace (c * 2 ^ Zpos p~0) with (c * 2 ^ Zpos p * 2 ^ Zpos p).
    + rewrite IH by nia. apply IH. exact Hc.
    + replace (Zpos p~0) with (Zpos p + Zpos p) by lia.
      rewrite !Z.pow_add_r by lia. lia.
  - change (2 ^ 1) with 2. apply shr_1_double. exact Hc.
Qed.

(** A mantissa of [prec] digits followed by [n] zero bits rounds to itself. *)
Lemma binary_round_aux_exact_shift (prec emax : Z) (sx : bool) (c : positive) (n e : Z) :
  1 < prec -> 0 <= n -> Zdigits2 (Zpos c) = prec ->
  emin prec emax <= e + n -> e + n <= emax - prec ->
  binary_round_aux prec emax sx (Zpos c * 2 ^ n) e loc_Exact = S754_finite sx c (e + n).
Proof.
  intros Hprec Hn Hd Hlo Hhi.
  destruct n as [|p|p]; [| |lia].
  - rewrite Z.mul_1_r, Z.add_0_r. apply binary_round_aux_exact; try assumption; lia.
  - assert (Hp : 0 < 2 ^ Zpos p) by (apply Z.pow_pos_nonneg; lia).
    destruct (Zdigits2_bounds (Zpos c) ltac:(lia)) as [Hc1 Hc2]. rewrite Hd in Hc1, Hc2.
    assert (Hdg : Zdigits2 (Zpos c * 2 ^ Zpos p) = prec + Zpos p).
    { apply Zdigits2_unique; [|lia]. split.
      - replace (prec + Zpos p - 1) with ((prec - 1) + Zpos p) by lia.
        rewrite Z.pow_add_r by lia. nia.
      - rewrite Z.pow_add_r by lia. nia. }
    unfold binary_round_aux, shr_fexp. rewrite Hdg.
    replace (fexp prec emax (prec + Zpos p + e) - e) with (Zpos p) by (unfold fexp; lia).
    cbn [shr shr_record_of_loc]. rewrite iter_pos_shr_1_exact by lia.
    cbn [shr_m loc_of_shr_record shr_r shr_s round_nearest_even]. rewrite Hd.
    replace (fexp prec emax (prec + (e + Zpos p)) - (e + Zpos p)) with 0
      by (unfold fexp; lia).
    cbn [shr shr_record_of_loc shr_m].
    destruct (Z.leb_spec (e + Zpos p) (emax - prec)); [reflexivity | lia].
Qed.

(** A double divided by a double of the same mantissa is a power of two. *)
Lemma F64_div_same_mantissa (s1 s2 : bool) (m : positive) (e1 e2 : Z) :
  Zdigits2 (Zpos m) = 53 -> -1074 <= e1 - e2 - 53 -> e1 - e2 - 52 <= 971 ->
  F64.div (S754_finite s1 m e1) (S754_finite s2 m e2)
  = S754_finite (xorb s1 s2) 4503599627370496 (e1 - e2 - 52).
Proof.
  intros Hd Hlo Hhi. unfold F64.div, F64.prec, F64.emax. cbn [SFdiv].
  rewrite (SFdiv_core_binary_full 53 1024 ltac:(lia) ltac:(lia) m m e1 e2 Hd Hd)
    by (unfold emin; lia).
  rewrite (Z.mul_comm (Zpos m) (2 ^ 53)), Z.div_mul, Z.mod_mul by lia.
  replace (new_location (Zpos m) 0) with loc_Exact
    by (unfold new_location, new_location_even, new_location_odd;
        destruct (Z.even (Zpos m)); reflexivity).
  change (2 ^ 53) with (Zpos 4503599627370496 * 2 ^ 1).
  rewrite binary_round_aux_exact_shift;
    [f_equal; lia | lia | lia | reflexivity | unfold emin; lia | lia].
Qed.

(** The product of a power of two and a double keeps the mantissa. *)
Lemma F64_mul_pow2 (s1 s2 : bool) (m : positive) (e1 e2 : Z) :
  Zdigits2 (Zpos m) = 53 -> -1074 <= e1 + e2 + 52 -> e1 + e2 + 52 <= 971 ->
  F64.mul (S754_finite s1 4503599627370496 e1) (S754_finite s2 m e2)
  = S754_finite (xorb s1 s2) m (e1 + e2 + 52).
Proof.
  intros Hd Hlo Hhi. unfold F64.mul, F64.prec, F64.emax. cbn [SFmul].
  replace (Zpos (4503599627370496 * m)) with (Zpos m * 2 ^ 52) by lia.
  rewrite binary_round_aux_exact_shift;
    [f_equal; lia | lia | lia | exact Hd | unfold emin; lia | lia].
Qed.

Lemma F2R_inj (m1 m2 e : Z) : F2R m1 e = F2R m2 e -> m1 = m2.
Proof.
  unfold F2R. intros H. apply eq_IZR.
  apply Rmult_eq_reg_r with (powerRZ 2 e); [exact H|].
  pose proof (powerRZ_2_pos e). lra.
Qed.

(** A value has one representation with a mantissa of [prec] digits. *)
Lemma normal_unique (prec : Z) (m1 m2 : positive) (e1 e2 : Z) :
  0 < prec -> Zdigits2 (Zpos m1) = prec -> Zdigits2 (Zpos m2) = prec ->
  F2R (Zpos m1) e1 = F2R (Zpos m2) e2 -> m1 = m2 /\ e1 = e2.
Proof.
  intros Hprec Hd1 Hd2 H.
  destruct (Zdigits2_bounds (Zpos m1) ltac:(lia)) as [Ha1 Ha2].
  destruct (Zdigits2_bounds (Zpos m2) ltac:(lia)) as [Hb1 Hb2].
  rewrite Hd1 in Ha1, Ha2. rewrite Hd2 in Hb1, Hb2.
  assert (Hp2 : 2 ^ prec = 2 * 2 ^ (prec - 1)).
  { rewrite <- Z.pow_succ_r by lia. f_equal. lia. }
  assert (Hstep : forall n, 0 < n -> 2 <= 2 ^ n).
  { intros n Hn. change 2 with (2 ^ 1) at 1. apply Z.pow_le_mono_r; lia. }
  destruct (Z.lt_trichotomy e1 e2) as [Hlt|[Heq|Hgt]].
  - exfalso. replace e2 with (e1 + (e2 - e1)) in H by lia.
    rewrite F2R_shift in H by lia. apply F2R_inj in H.
    pose proof (Hstep (e2 - e1) ltac:(lia)). nia.
  - subst e2. apply F2R_inj in H. split; [congruence | reflexivity].
  - exfalso. replace e1 with (e2 + (e1 - e2)) in H by lia.
    rewrite F2R_shift in H by lia. apply F2R_inj in H.
    pose proof (Hstep (e1 - e2) ltac:(lia)). nia.
Qed.

Lemma F2R_exp_succ (m e : Z) : F2R m (e + 1) = (2 * F2R m e)%R.
Proof. unfold F2R. rewrite powerRZ_add by lra. change (powerRZ 2 1) with (2 * 1)%R. lra. Qed.

(** The double of twice an integer has the mantissa of the double of the
    integer. *)
Lemma F64_of_int_twice (a : positive) :
  Zpos a < 2 ^ 52 ->
  exists m e, F64.of_int (Zpos a) = S754_finite false m e
              /\ F64.of_int (Zpos a~0) = S754_finite false m (e + 1)
              /\ Zdigits2 (Zpos m) = 53 /\ -52 <= e <= 0.
Proof.
  intros Ha.
  destruct (F64_of_int_pos a ltac:(lia)) as (m & e & H1 & Hd & He & Hv).
  destruct (F64_of_int_pos a~0 ltac:(lia)) as (m' & e' & H2 & Hd' & He' & Hv').
  exists m, e. split; [exact H1|]. split; [|split; [exact Hd | exact He]].
  rewrite H2.
  assert (Heq : F2R (Zpos m') e' = F2R (Zpos m) (e + 1)).
  { rewrite F2R_exp_succ, Hv, Hv'. rewrite <- mult_IZR. f_equal. }
  destruct (normal_unique 53 m' m e' (e + 1) ltac:(lia) Hd' Hd Heq) as [-> ->].
  reflexivity.
Qed.

Lemma shiftl_exact (m : positive) (e : Z) (p : Z) :
  F2R (Zpos m) e = IZR p -> Z.shiftl (Zpos m) e = p.
Proof.
  intros H. pose proof (shiftl_floor m e) as [H1 H2]. rewrite H in H1, H2.
  apply le_IZR in H1. rewrite <- plus_IZR in H2. apply lt_IZR in H2. lia.
Qed.

Lemma shiftl_half (m : positive) (e : Z) (p : Z) :
  F2R (Zpos m) e = IZR p -> Z.shiftl (Zpos m) (e - 1) = p / 2.
Proof.
  intros H. pose proof (shiftl_floor m (e - 1)) as [H1 H2].
  assert (Hh : (2 * F2R (Zpos m) (e - 1))%R = IZR p).
  { rewrite <- F2R_exp_succ. replace (e - 1 + 1) with e by lia. exact H. }
  set (k := Z.shiftl (Zpos m) (e - 1)) in *.
  assert (K1 : (IZR (2 * k) <= IZR p)%R) by (rewrite mult_IZR; lra).
  assert (K2 : (IZR p < IZR (2 * k + 2))%R) by (rewrite plus_IZR, mult_IZR; lra).
  apply le_IZR in K1. apply lt_IZR in K2.
  apply Z.div_unique with (p - 2 * k); lia.
Qed.

(** Two rectangles of the same height: the lower one takes half the gap,
    rounded toward zero. *)
Lemma lower_share_equal_heights (h g : Z) :
  0 < h < 2 ^ 26 -> Z.abs g < 2 ^ 32 -> lower_share h h g = Ok (Z.quot g 2).
Proof.
  intros Hh Hg. unfold lower_share, ratio_of.
  assert (Ha : 0 < h ^ 2 < 2 ^ 52).
  { change (2 ^ 52) with (2 ^ 26 * 2 ^ 26). nia. }
  destruct (h ^ 2) as [|a|a] eqn:Ea; try lia.
  replace (Zpos a + Zpos a) with (Zpos a~0) by lia.
  destruct (F64_of_int_twice a ltac:(lia)) as (m & e & -> & -> & Hd & He).
  rewrite F64_div_same_mantissa by (try exact Hd; lia).
  replace (e - (e + 1) - 52) with (-53) by lia. cbn [xorb].
  destruct g as [|p|p].
  - reflexivity.
  - destruct (binary_round_int 53 1024 ltac:(lia) ltac:(lia) false p
                ltac:(simpl in Hg; lia)) as (mg & eg & Hgv & Hdg & Heg & Hvg).
    change (F64.of_int (Zpos p)) with (binary_round 53 1024 false p 0).
    rewrite Hgv, F64_mul_pow2 by (try exact Hdg; lia).
    cbn [F64.trunc xorb cond_Zopp]. unfold F64.mag_floor.
    replace (-53 + eg + 52) with (eg - 1) by lia.
    rewrite (shiftl_half mg eg (Zpos p) Hvg).
    rewrite Z.quot_div_nonneg by lia. reflexivity.
  - destruct (binary_round_int 53 1024 ltac:(lia) ltac:(lia) true p
                ltac:(simpl in Hg; lia)) as (mg & eg & Hgv & Hdg & Heg & Hvg).
    change (F64.of_int (Zneg p)) with (binary_round 53 1024 true p 0).
    rewrite Hgv, F64_mul_pow2 by (try exact Hdg; lia).
    cbn [F64.trunc xorb cond_Zopp]. unfold F64.mag_floor.
    replace (-53 + eg + 52) with (eg - 1) by lia.
    rewrite (shiftl_half mg eg (Zpos p) Hvg).
    change (Zneg p) with (- Zpos p). rewrite Z.quot_opp_l by lia.
    rewrite Z.quot_div_nonneg by lia. reflexivity.
Qed.

(** An upper rectangle of height zero: the lower one takes nothing. *)
Lemma lower_share_flat_upper (h1 g : Z) :
  0 < h1 < 2 ^ 26 -> Z.abs g < 2 ^ 32 -> lower_share 0 h1 g = Ok 0.
Proof.
  intros Hh Hg. unfold lower_share, ratio_of.
  assert (Hb : 0 < h1 ^ 2 < 2 ^ 52).
  { change (2 ^ 52) with (2 ^ 26 * 2 ^ 26). nia. }
  change (0 ^ 2) with 0. rewrite Z.add_0_r.
  destruct (h1 ^ 2) as [|d|d] eqn:Ed; try lia.
  destruct (F64_of_int_pos d ltac:(lia)) as (md & ed & -> & _).
  destruct g as [|p|p]; [reflexivity| |].
  - destruct (binary_round_int 53 1024 ltac:(lia) ltac:(lia) false p
                ltac:(simpl in Hg; lia)) as (mg & eg & Hgv & _).
    change (F64.of_int (Zpos p)) with (binary_round 53 1024 false p 0).
    rewrite Hgv. reflexivity.
  - destruct (binary_round_int 53 1024 ltac:(lia) ltac:(lia) true p
                ltac:(simpl in Hg; lia)) as (mg & eg & Hgv & _).
    change (F64.of_int (Zneg p)) with (binary_round 53 1024 true p 0).
    rewrite Hgv. reflexivity.
Qed.

(** A lower rectangle of height zero: it takes the whole gap. *)
Lemma lower_share_flat_lower (h0 g : Z) :
  0 < h0 < 2 ^ 26 -> Z.abs g < 2 ^ 32 -> lower_share h0 0 g = Ok g.
Proof.
  intros Hh Hg. unfold lower_share, ratio_of.
  assert (Ha : 0 < h0 ^ 2 < 2 ^ 52).
  { change (2 ^ 52) with (2 ^ 26 * 2 ^ 26). nia. }
  change (0 ^ 2) with 0. rewrite Z.add_0_l.
  destruct (h0 ^ 2) as [|a|a] eqn:Ea; try lia.
  destruct (F64_of_int_pos a ltac:(lia)) as (m & e & -> & Hd & He & _).
  rewrite F64_div_same_mantissa by (try exact Hd; lia).
  replace (e - e - 52) with (-52) by lia. cbn [xorb].
  destruct g as [|p|p].
  - reflexivity.
  - destruct (binary_round_int 53 1024 ltac:(lia) ltac:(lia) false p
                ltac:(simpl in Hg; lia)) as (mg & eg & Hgv & Hdg & Heg & Hvg).
    change (F64.of_int (Zpos p)) with (binary_round 53 1024 false p 0).
    rewrite Hgv, F64_mul_pow2 by (try exact Hdg; lia).
    cbn [F64.trunc xorb cond_Zopp]. unfold F64.mag_floor.
    replace (-52 + eg + 52) with eg by lia.
    rewrite (shiftl_exact mg eg (Zpos p) Hvg). reflexivity.
  - destruct (binary_round_int 53 1024 ltac:(lia) ltac:(lia) true p
                ltac:(simpl in Hg; lia)) as (mg & eg & Hgv & Hdg & Heg & Hvg).
    change (F64.of_int (Zneg p)) with (binary_round 53 1024 true p 0).
    rewrite Hgv, F64_mul_pow2 by (try exact Hdg; lia).
    cbn [F64.trunc xorb cond_Zopp]. unfold F64.mag_floor.
    replace (-52 + eg + 52) with eg by lia.
    rewrite (shiftl_exact mg eg (Zpos p) Hvg). reflexivity.
Qed.

(** X18: two neighbours of the same height share their gap evenly: the lower one
    moves its top edge up by half the gap, rounded toward zero, and the upper
    one moves its bottom edge down by the rest. *)
Theorem expand_rects_equal_heights (self : Rects) (i : nat) (rc0 rc1 : Rect * Contour) :
  pixel_sized self -> self !! i = Some rc0 -> self !! S i = Some rc1 ->
  height rc0.1 = height rc1.1 ->
  exists self' r0' r1',
    expand_rects self = Ok self'
    /\ self' !! i = Some (r0', rc0.2)
    /\ self' !! S i = Some (r1', rc1.2)
    /\ top rc1.1 - top r1' = Z.quot (pair_gap rc0 rc1) 2
    /\ bottom r0' - bottom rc0.1 = pair_gap rc0 rc1 - Z.quot (pair_gap rc0 rc1) 2.
Proof.
  intros Hps H0 H1 Hh.
  destruct (expand_rects_pair self i rc0 rc1 Hps H0 H1)
    as (lower & upper & self' & l & r0' & r1' & _ & _ & He & _ & _ & Hl & _
        & Hi & HSi & Hb & Ht).
  destruct Hps as [Hall Hadj].
  destruct (Hadj i rc0 rc1 H0 H1) as [Hpos Hgap].
  pose proof (Forall_lookup_1 _ _ _ _ Hall H0) as [Hh0 _].
  unfold pair_share in Hl. rewrite <- Hh in Hl.
  rewrite lower_share_equal_heights in Hl by (try exact Hgap; lia).
  injection Hl as <-.
  exists self', r0', r1'. repeat (split; [assumption|]).
  unfold pair_gap in *. split; lia.
Qed.

Lemma expand_rects_equal_heights_witness :
  pixel_sized [line_box 0 10; line_box 35 45]
  /\ exists self' r0' r1',
       expand_rects [line_box 0 10; line_box 35 45] = Ok self'
       /\ self' !! 0%nat = Some (r0', (line_box 0 10).2)
       /\ self' !! 1%nat = Some (r1', (line_box 35 45).2)
       /\ top (line_box 35 45).1 - top r1'
          = Z.quot (pair_gap (line_box 0 10) (line_box 35 45)) 2
       /\ bottom r0' - bottom (line_box 0 10).1
          = pair_gap (line_box 0 10) (line_box 35 45)
            - Z.quot (pair_gap (line_box 0 10) (line_box 35 45)) 2.
Proof.
  split; [pixel_sized_by_evaluation|].
  apply (expand_rects_equal_heights [line_box 0 10; line_box 35 45] 0
           (line_box 0 10) (line_box 35 45));
    [pixel_sized_by_evaluation | reflexivity | reflexivity | reflexivity].
Defined.

(** X19: a rectangle of height zero takes the whole gap to its neighbour: it moves
    its facing edge by the gap, and the neighbour does not move its own (the
    share of a rectangle is weighted by the squared height of the other
    one). *)
Theorem expand_rects_flat_neighbour (self : Rects) (i : nat) (rc0 rc1 : Rect * Contour) :
  pixel_sized self -> self !! i = Some rc0 -> self !! S i = Some rc1 ->
  exists self' r0' r1',
    expand_rects self = Ok self'
    /\ self' !! i = Some (r0', rc0.2)
    /\ self' !! S i = Some (r1', rc1.2)
    /\ (height rc0.1 = 0 ->
        bottom r0' = bottom rc0.1 + pair_gap rc0 rc1 /\ top r1' = top rc1.1)
    /\ (height rc1.1 = 0 ->
        bottom r0' = bottom rc0.1 /\ top r1' = top rc1.1 - pair_gap rc0 rc1).
Proof.
  intros Hps H0 H1.
  destruct (expand_rects_pair self i rc0 rc1 Hps H0 H1)
    as (lower & upper & self' & l & r0' & r1' & _ & _ & He & _ & _ & Hl & _
        & Hi & HSi & Hb & Ht).
  destruct Hps as [Hall Hadj].
  destruct (Hadj i rc0 rc1 H0 H1) as [Hpos Hgap].
  pose proof (Forall_lookup_1 _ _ _ _ Hall H0) as [Hh0 _].
  pose proof (Forall_lookup_1 _ _ _ _ Hall H1) as [Hh1 _].
  exists self', r0', r1'. repeat (split; [assumption|]).
  unfold pair_share in Hl. split; intros Hz; rewrite Hz in Hl.
  - rewrite lower_share_flat_upper in Hl by (try exact Hgap; lia).
    injection Hl as <-. lia.
  - rewrite lower_share_flat_lower in Hl by (try exact Hgap; lia).
    injection Hl as <-. unfold pair_gap in *. lia.
Qed.

Lemma expand_rects_flat_neighbour_witness :
  pixel_sized [line_box 0 10; line_box 30 30]
  /\ exists self' r0' r1',
       expand_rects [line_box 0 10; line_box 30 30] = Ok self'
       /\ self' !! 0%nat = Some (r0', (line_box 0 10).2)
       /\ self' !! 1%nat = Some (r1', (line_box 30 30).2)
       /\ (height (line_box 0 10).1 = 0 ->
           bottom r0' = bottom (line_box 0 10).1
                        + pair_gap (line_box 0 10) (line_box 30 30)
           /\ top r1' = top (line_box 30 30).1)
       /\ (height (line_box 30 30).1 = 0 ->
           bottom r0' = bottom (line_box 0 10).1
           /\ top r1' = top (line_box 30 30).1
                        - pair_gap (line_box 0 10) (line_box 30 30)).
Proof.
  split; [pixel_sized_by_evaluation|].
  apply (expand_rects_flat_neighbour [line_box 0 10; line_box 30 30] 0
           (line_box 0 10) (line_box 30 30));
    [pixel_sized_by_evaluation | reflexivity | reflexivity].
Defined.

(** ** The size formulas, exactly *)

(** A mantissa of at least 53 digits whose value has a 53-digit
    representation rounds to that representation. *)
Lemma binary_round_aux_representable (s : bool) (m : Z) (e : Z) (c : positive) (e' : Z) :
  0 < m -> 53 <= Zdigits2 m -> Zdigits2 (Zpos c) = 53 ->
  F2R m e = F2R (Zpos c) e' -> -1074 <= e' -> e' <= 971 ->
  binary_round_aux 53 1024 s m e loc_Exact = S754_finite s c e'.
Proof.
  intros Hmpos Hm Hc Hv Hlo Hhi.
  destruct (Zdigits2_bounds m Hmpos) as [Hm1 _].
  destruct (Zdigits2_bounds (Zpos c) ltac:(lia)) as [_ Hc2]. rewrite Hc in Hc2.
  assert (H52 : 2 ^ 52 <= m).
  { apply Z.le_trans with (2 ^ (Zdigits2 m - 1)); [apply Z.pow_le_mono_r; lia | exact Hm1]. }
  assert (He : e <= e').
  { destruct (Z.le_gt_cases e e') as [H|H]; [exact H|]. exfalso.
    replace e with (e' + (e - e')) in Hv by lia.
    rewrite F2R_shift in Hv by lia. apply F2R_inj in Hv.
    assert (2 <= 2 ^ (e - e')).
    { change 2 with (2 ^ 1) at 1. apply Z.pow_le_mono_r; lia. }
    change (2 ^ 53) with (2 * 2 ^ 52) in Hc2. nia. }
  replace e' with (e + (e' - e)) in Hv by lia.
  rewrite F2R_shift in Hv by lia. apply F2R_inj in Hv. subst m.
  rewrite binary_round_aux_exact_shift; [f_equal; lia | lia | lia | exact Hc | | ];
    unfold emin; lia.
Qed.

Lemma binary_round_representable (s : bool) (mx : positive) (ex : Z) (c : positive) (e' : Z) :
  Zdigits2 (Zpos c) = 53 -> F2R (Zpos mx) ex = F2R (Zpos c) e' ->
  -1021 <= ex -> -1074 <= e' -> e' <= 971 ->
  binary_round 53 1024 s mx ex = S754_finite s c e'.
Proof.
  intros Hc Hv Hex Hlo Hhi. unfold binary_round.
  pose proof (digits2_pos_bounds mx) as [Hd1 Hd2].
  set (d := Zpos (digits2_pos mx)) in *.
  assert (Hd0 : 0 < d) by (unfold d; lia).
  replace (fexp 53 1024 (d + ex)) with (d + ex - 53) by (unfold fexp, emin; lia).
  unfold shl_align. replace (d + ex - 53 - ex) with (d - 53) by lia.
  destruct (d - 53) as [|k|k] eqn:Ek.
  - apply binary_round_aux_representable; try assumption; try lia.
    change (Zdigits2 (Zpos mx)) with d. lia.
  - apply binary_round_aux_representable; try assumption; try lia.
    change (Zdigits2 (Zpos mx)) with d. lia.
  - assert (Hk : Zpos k = 53 - d) by lia.
    assert (Hm : Zpos (Pos.iter xO mx k) = Zpos mx * 2 ^ (53 - d))
      by (rewrite Pos_iter_xO, Hk; reflexivity).
    assert (Hpk : 0 < 2 ^ (53 - d)) by (apply Z.pow_pos_nonneg; lia).
    assert (Hdg : Zdigits2 (Zpos (Pos.iter xO mx k)) = 53).
    { apply Zdigits2_unique; [|lia]. rewrite Hm. split.
      - replace (53 - 1) with ((d - 1) + (53 - d)) by lia.
        rewrite Z.pow_add_r by lia. nia.
      - replace 53 with (d + (53 - d)) at 2 by lia.
        rewrite Z.pow_add_r by lia. nia. }
    apply binary_round_aux_representable; try assumption; try lia.
    rewrite Hm, <- F2R_shift by lia.
    replace (d + ex - 53 + (53 - d)) with ex by lia. exact Hv.
Qed.

(** Every positive integer below [2 ^ 53], divided by a power of two, is a
    double. *)
Lemma dyadic_exists (N j : Z) :
  0 < N < 2 ^ 53 ->
  exists c e, Zdigits2 (Zpos c) = 53 /\ -52 - j <= e <= - j
              /\ F2R (Zpos c) e = F2R N (- j)
              /\ F64.of_int N = S754_finite false c (e + j).
Proof.
  intros HN. destruct N as [|p|p]; try lia.
  destruct (F64_of_int_pos p ltac:(lia)) as (c & e & Hf & Hd & He & Hv).
  exists c, (e - j). split; [exact Hd|]. split; [lia|]. split.
  - unfold F2R in *. replace (e - j) with (e + - j) by lia.
    rewrite powerRZ_add by lra. rewrite <- Rmult_assoc, Hv. reflexivity.
  - rewrite Hf. f_equal. lia.
Qed.

Lemma dyadic_unique (f g : spec_float) (N j : Z) : dyadic f N j -> dyadic g N j -> f = g.
Proof.
  intros [[H0 ->]|[HN (m & e & -> & Hd & He & Hv)]] [[H0' ->]|[HN' (m' & e' & -> & Hd' & He' & Hv')]];
    try lia; [reflexivity|].
  destruct (normal_unique 53 m m' e e' ltac:(lia) Hd Hd' ltac:(congruence)) as [-> ->].
  reflexivity.
Qed.

Lemma dyadic_of_int (N : Z) : 0 <= N < 2 ^ 53 -> dyadic (F64.of_int N) N 0.
Proof.
  intros HN. destruct (Z.eq_dec N 0) as [->|H0]; [left; split; reflexivity|].
  right. split; [lia|].
  destruct (dyadic_exists N 0 ltac:(lia)) as (c & e & Hd & He & Hv & Hf).
  exists c, e. rewrite Hf, Z.add_0_r. auto.
Qed.

(** The product of a double and a rate [3 / 2 ^ j]. *)
Lemma F64_mul_dyadic (mr : positive) (er j : Z) (x : spec_float) (p : Z) :
  Zdigits2 (Zpos mr) = 53 -> F2R (Zpos mr) er = F2R 3 (- j) -> 0 <= j <= 1 ->
  0 <= p -> 3 * p < 2 ^ 53 -> dyadic x p 0 ->
  dyadic (F64.mul (S754_finite false mr er) x) (3 * p) j.
Proof.
  intros Hdr Hvr Hj Hp H3p [[-> ->]|[Hp0 (m & e & -> & Hd & He & Hv)]].
  - left. split; reflexivity.
  - right. split; [lia|].
    destruct (dyadic_exists (3 * p) j ltac:(lia)) as (c & e' & Hdc & He' & Hvc & _).
    exists c, e'. split; [|auto].
    unfold F64.mul, F64.prec, F64.emax. cbn [SFmul xorb].
    destruct (Zdigits2_bounds (Zpos mr) ltac:(lia)) as [Ha1 Ha2].
    destruct (Zdigits2_bounds (Zpos m) ltac:(lia)) as [Hb1 Hb2].
    rewrite Hdr in Ha1, Ha2. rewrite Hd in Hb1, Hb2.
    apply binary_round_aux_representable; try assumption; try lia.
    + rewrite Pos2Z.inj_mul. apply Zdigits2_lower; [lia|].
      change (2 ^ (53 - 1)) with (2 ^ 52) in *.
      apply Z.le_trans with (2 ^ 52 * 2 ^ 52); [|nia].
      rewrite <- Z.pow_add_r by lia. apply Z.pow_le_mono_r; lia.
    + rewrite Hvc, Pos2Z.inj_mul.
      transitivity (F2R (Zpos mr) er * F2R (Zpos m) e)%R.
      * unfold F2R. rewrite mult_IZR, powerRZ_add by lra. lra.
      * rewrite Hvr, Hv. unfold F2R. rewrite mult_IZR.
        change (powerRZ 2 (- 0)) with 1%R. lra.
Qed.

Lemma hundred_value : F64.of_int 100 = S754_finite false 7036874417766400 (-46).
Proof. vm_compute. reflexivity. Qed.

Lemma hundred_F2R (e0 : Z) :
  e0 <= -46 -> 7036874417766400 * 2 ^ (-46 - e0) = 100 * 2 ^ (- e0).
Proof.
  intros He. change 7036874417766400 with (100 * 2 ^ 46).
  rewrite <- Z.mul_assoc, <- Z.pow_add_r by lia. do 2 f_equal. lia.
Qed.

(** The mantissa of a dyadic number, aligned to a smaller exponent. *)
Lemma aligned_mantissa (m : positive) (e N j e0 : Z) :
  F2R (Zpos m) e = F2R N (- j) -> e0 <= e -> e0 <= - j ->
  Zpos m * 2 ^ (e - e0) = N * 2 ^ (- j - e0).
Proof.
  intros Hv He Hj. apply (F2R_inj _ _ e0).
  rewrite <- !F2R_shift by lia.
  replace (e0 + (e - e0)) with e by lia.
  replace (e0 + (- j - e0)) with (- j) by lia. exact Hv.
Qed.

Lemma shl_align_fst (m : positive) (e ez : Z) :
  ez <= e -> Zpos (fst (shl_align m e ez)) = Zpos m * 2 ^ (e - ez).
Proof.
  intros He. unfold shl_align. destruct (ez - e) as [|d|d] eqn:Ed; try lia.
  - replace (e - ez) with 0 by lia. cbn [fst]. lia.
  - cbn [fst]. rewrite Pos_iter_xO. do 2 f_equal. lia.
Qed.

(** [fmod] by 100 of a dyadic number is exact. *)
Lemma fmod_dyadic (v : spec_float) (T j : Z) :
  0 <= j <= 1 -> T < 2 ^ 53 -> dyadic v T j ->
  dyadic (PyFloat.fmod v (F64.of_int 100)) (T mod (100 * 2 ^ j)) j.
Proof.
  intros Hj HT [[-> ->]|[HT0 (m & e & -> & Hd & He & Hv)]].
  - left. split; reflexivity.
  - rewrite hundred_value. cbn [PyFloat.fmod].
    set (e0 := Z.min e (-46)).
    assert (He0 : e0 <= e /\ e0 <= -46 /\ -54 <= e0) by (unfold e0; lia).
    rewrite !Z.shiftl_mul_pow2 by lia.
    rewrite (aligned_mantissa m e T j e0 Hv) by lia.
    rewrite hundred_F2R by lia.
    assert (Hpj : 0 < 2 ^ j) by (apply Z.pow_pos_nonneg; lia).
    assert (Hpa : 0 < 2 ^ (- j - e0)) by (apply Z.pow_pos_nonneg; lia).
    replace (100 * 2 ^ (- e0)) with ((100 * 2 ^ j) * 2 ^ (- j - e0)).
    2:{ rewrite <- Z.mul_assoc, <- Z.pow_add_r by lia. do 2 f_equal. lia. }
    rewrite Z.mul_mod_distr_r by lia.
    pose proof (Z.mod_pos_bound T (100 * 2 ^ j) ltac:(lia)) as HR.
    set (R := T mod (100 * 2 ^ j)) in *.
    assert (H2j : 2 ^ j <= 2) by (change 2 with (2 ^ 1) at 2; apply Z.pow_le_mono_r; lia).
    destruct (Z.eq_dec R 0) as [->|HR0].
    + left. split; reflexivity.
    + right. split; [lia|].
      destruct (dyadic_exists R j ltac:(lia)) as (c & e' & Hdc & He' & Hvc & _).
      exists c, e'. split; [|auto].
      cbn [cond_Zopp]. destruct (R * 2 ^ (- j - e0)) as [|r|r] eqn:Er; try nia.
      cbn [binary_normalize]. unfold F64.prec, F64.emax.
      apply binary_round_representable; try assumption; try lia.
      rewrite <- Er, <- F2R_shift by lia.
      replace (e0 + (- j - e0)) with (- j) by lia. symmetry. exact Hvc.
Qed.

(** The difference of two dyadic numbers is exact. *)
Lemma sub_dyadic (x y : spec_float) (T R j : Z) :
  0 <= j <= 1 -> R <= T -> T < 2 ^ 53 -> dyadic x T j -> dyadic y R j ->
  dyadic (F64.sub x y) (T - R) j.
Proof.
  intros Hj HRT HT [[-> ->]|[HT0 (m & e & -> & Hd & He & Hv)]]
         [[-> ->]|[HR0 (m' & e' & -> & Hd' & He' & Hv')]]; try lia.
  - left. split; reflexivity.
  - rewrite Z.sub_0_r. right. split; [lia|]. exists m, e. auto.
  - unfold F64.sub, F64.prec, F64.emax. cbn [SFsub cond_Zopp].
    set (ez := Z.min e e').
    assert (Hez : ez <= e /\ ez <= e' /\ -54 <= ez) by (unfold ez; lia).
    rewrite !shl_align_fst by lia.
    rewrite (aligned_mantissa m e T j ez Hv) by lia.
    rewrite (aligned_mantissa m' e' R j ez Hv') by lia.
    rewrite <- Z.mul_sub_distr_r.
    assert (Hpa : 0 < 2 ^ (- j - ez)) by (apply Z.pow_pos_nonneg; lia).
    destruct (Z.eq_dec (T - R) 0) as [->|HD].
    + left. split; reflexivity.
    + right. split; [lia|].
      destruct (dyadic_exists (T - R) j ltac:(lia)) as (c & ec & Hdc & Hec & Hvc & _).
      exists c, ec. split; [|auto].
      destruct ((T - R) * 2 ^ (- j - ez)) as [|r|r] eqn:Er; try nia.
      cbn [binary_normalize].
      apply binary_round_representable; try assumption; try lia.
      rewrite <- Er, <- F2R_shift by lia.
      replace (ez + (- j - ez)) with (- j) by lia. symmetry. exact Hvc.
Qed.

(** A quotient that is a double is computed exactly. *)
Lemma F64_div_exact (m1 m2 c : positive) (e1 e2 e' : Z) :
  Zdigits2 (Zpos m1) = 53 -> Zdigits2 (Zpos m2) = 53 -> Zdigits2 (Zpos c) = 53 ->
  F2R (Zpos m1) e1 = (F2R (Zpos c) e' * F2R (Zpos m2) e2)%R ->
  -1074 <= e1 - e2 - 53 -> -1074 <= e' -> e' <= 971 ->
  F64.div (S754_finite false m1 e1) (S754_finite false m2 e2) = S754_finite false c e'.
Proof.
  intros Hd1 Hd2 Hdc Hv Hlo Hlo' Hhi.
  destruct (Zdigits2_bounds (Zpos m1) ltac:(lia)) as [Ha1 Ha2].
  destruct (Zdigits2_bounds (Zpos m2) ltac:(lia)) as [Hb1 Hb2].
  destruct (Zdigits2_bounds (Zpos c) ltac:(lia)) as [Hc1 Hc2].
  rewrite Hd1 in Ha1, Ha2. rewrite Hd2 in Hb1, Hb2. rewrite Hdc in Hc1, Hc2.
  change (2 ^ (53 - 1)) with (2 ^ 52) in *.
  assert (Hv' : F2R (Zpos m1) e1 = F2R (Zpos c * Zpos m2) (e' + e2)).
  { rewrite Hv. unfold F2R. rewrite mult_IZR, powerRZ_add by lra. lra. }
  set (k := e1 - (e' + e2)).
  assert (Hk : 0 <= k /\ k <= 53 /\ Zpos m1 * 2 ^ k = Zpos c * Zpos m2).
  { destruct (Z.le_gt_cases 0 k) as [Hk0|Hk0].
    - replace e1 with (e' + e2 + k) in Hv' by (unfold k; lia).
      rewrite F2R_shift in Hv' by lia. apply F2R_inj in Hv'.
      split; [exact Hk0|]. split; [|exact Hv'].
      destruct (Z.le_gt_cases k 53) as [H|H]; [exact H|]. exfalso.
      assert (2 ^ 54 <= 2 ^ k) by (apply Z.pow_le_mono_r; lia).
      assert (Zpos c * Zpos m2 < 2 ^ 53 * 2 ^ 53) by nia.
      assert (2 ^ 52 * 2 ^ 54 <= Zpos m1 * 2 ^ k) by nia.
      change (2 ^ 54) with (2 ^ 53 * 2) in *. change (2 ^ 53) with (2 ^ 52 * 2) in *. nia.
    - exfalso. replace (e' + e2) with (e1 + (- k)) in Hv' by (unfold k; lia).
      rewrite F2R_shift in Hv' by lia. apply F2R_inj in Hv'.
      assert (2 <= 2 ^ (- k)).
      { change 2 with (2 ^ 1) at 1. apply Z.pow_le_mono_r; lia. }
      assert (2 ^ 52 * 2 ^ 52 <= Zpos c * Zpos m2) by nia.
      change (2 ^ 53) with (2 ^ 52 * 2) in *. nia. }
  destruct Hk as (Hk0 & Hk53 & Hkm).
  assert (Hq : Zpos m1 * 2 ^ 53 = (Zpos c * 2 ^ (53 - k)) * Zpos m2).
  { replace 53 with (k + (53 - k)) at 1 by lia. rewrite Z.pow_add_r by lia.
    rewrite Z.mul_assoc, Hkm. ring. }
  unfold F64.div, F64.prec, F64.emax. cbn [SFdiv xorb].
  rewrite (SFdiv_core_binary_full 53 1024 ltac:(lia) ltac:(lia) m1 m2 e1 e2 Hd1 Hd2)
    by (unfold emin; lia).
  rewrite Hq, Z.div_mul, Z.mod_mul by lia.
  replace (new_location (Zpos m2) 0) with loc_Exact
    by (unfold new_location, new_location_even, new_location_odd;
        destruct (Z.even (Zpos m2)); reflexivity).
  rewrite binary_round_aux_exact_shift;
    [f_equal; unfold k; lia | lia | lia | exact Hdc | unfold emin, k; lia | unfold k; lia].
Qed.

Lemma hundred_real : F2R 7036874417766400 (-46) = 100%R.
Proof.
  change 7036874417766400 with (100 * 2 ^ 46).
  rewrite <- (F2R_shift 100 (-46) 46) by lia. unfold F2R. simpl. lra.
Qed.

(** The quotient by 100 of a dyadic multiple of 100 is exact. *)
Lemma div_dyadic (u : spec_float) (q j : Z) :
  0 <= j <= 1 -> 0 <= q -> 100 * 2 ^ j * q < 2 ^ 53 ->
  dyadic u (100 * 2 ^ j * q) j ->
  dyadic (F64.div u (F64.of_int 100)) q 0.
Proof.
  intros Hj Hq Hb Hu.
  assert (Hpj : 0 < 2 ^ j) by (apply Z.pow_pos_nonneg; lia).
  destruct Hu as [[H0 ->]|[HU0 (m & e & -> & Hd & He & Hv)]].
  - left. split; [nia | rewrite hundred_value; reflexivity].
  - assert (Hq0 : 0 < q) by nia.
    right. split; [exact Hq0|].
    destruct (dyadic_exists q 0 ltac:(nia)) as (c & e' & Hdc & He' & Hvc & _).
    exists c, e'. split; [|auto].
    rewrite hundred_value. apply F64_div_exact; try assumption; try lia; [reflexivity|].
    rewrite Hv, Hvc, hundred_real. unfold F2R.
    rewrite !mult_IZR. change (powerRZ 2 (- 0)) with 1%R.
    replace (IZR (2 ^ j)) with (powerRZ 2 j) by (apply powerRZ_2_nonneg; lia).
    rewrite powerRZ_neg' by lra.
    pose proof (powerRZ_2_pos j). field. lra.
Qed.

Lemma dyadic_not_negative (f : spec_float) (N j : Z) :
  dyadic f N j -> F64.ltb f (S754_zero false) = false.
Proof. intros [[_ ->]|[_ (m & e & -> & _)]]; reflexivity. Qed.

Lemma sign_binary_round_aux (m e : Z) (l : location) :
  PyFloat.sign (binary_round_aux 53 1024 false m e l) = false.
Proof.
  unfold binary_round_aux.
  destruct (shr_fexp 53 1024 m e l) as [mrs' e1].
  destruct (shr_fexp 53 1024 _ e1 loc_Exact) as [mrs'' e2].
  destruct (shr_m mrs''); [reflexivity| |reflexivity].
  destruct (e2 <=? 1024 - 53); reflexivity.
Qed.

Lemma sign_div_dyadic (v : spec_float) (T j : Z) :
  dyadic v T j -> PyFloat.sign (F64.div v (F64.of_int 100)) = false.
Proof.
  rewrite hundred_value. intros [[_ ->]|[_ (m & e & -> & _)]]; [reflexivity|].
  unfold F64.div, F64.prec, F64.emax. cbn [SFdiv xorb].
  destruct (SFdiv_core_binary 53 1024 (Zpos m) e 7036874417766400 (-46)) as [[mz ez] lz].
  apply sign_binary_round_aux.
Qed.

Lemma floor_dyadic (f : spec_float) (q : Z) :
  q < 2 ^ 53 -> dyadic f q 0 -> PyFloat.floor f = f.
Proof.
  intros Hq [[_ ->]|[Hq0 (m & e & -> & Hd & He & Hv)]]; [reflexivity|].
  cbn [PyFloat.floor]. destruct (Z.leb_spec 0 e) as [H|H]; [reflexivity|].
  cbn [cond_Zopp].
  assert (Hvq : F2R (Zpos m) e = IZR q).
  { rewrite Hv. unfold F2R. change (powerRZ 2 (- 0)) with 1%R. lra. }
  rewrite (shiftl_exact m e q Hvq).
  destruct q as [|p|p]; try lia. cbn [binary_normalize].
  unfold F64.prec, F64.emax.
  apply binary_round_representable; try assumption; try lia.
  rewrite Hvq. unfold F2R. change (powerRZ 2 0) with 1%R. lra.
Qed.

Lemma sub_self (s : bool) (m : positive) (e : Z) :
  F64.sub (S754_finite s m e) (S754_finite s m e) = S754_zero false.
Proof.
  unfold F64.sub. cbn [SFsub]. rewrite Z.sub_diag. reflexivity.
Qed.

(** [v // 100] on a dyadic number [T / 2 ^ j] is the double of the integer
    quotient. *)
Lemma floordiv_dyadic (v : spec_float) (T j : Z) :
  0 <= j <= 1 -> 0 <= T < 2 ^ 53 -> dyadic v T j ->
  exists f, PyFloat.floordiv v (F64.of_int 100) = Ok f
            /\ dyadic f (T / (100 * 2 ^ j)) 0.
Proof.
  intros Hj HT Hv.
  assert (Hpj : 0 < 2 ^ j) by (apply Z.pow_pos_nonneg; lia).
  pose proof (Z.div_mod T (100 * 2 ^ j) ltac:(lia)) as Hdm.
  pose proof (Z.mod_pos_bound T (100 * 2 ^ j) ltac:(lia)) as HR.
  assert (Hq0 : 0 <= T / (100 * 2 ^ j)) by (apply Z.div_pos; lia).
  set (q := T / (100 * 2 ^ j)) in *. set (R := T mod (100 * 2 ^ j)) in *.
  pose proof (fmod_dyadic v T j Hj ltac:(lia) Hv) as Hmd. fold R in Hmd.
  pose proof (sub_dyadic v _ T R j Hj ltac:(nia) ltac:(lia) Hv Hmd) as Hsub.
  replace (T - R) with (100 * 2 ^ j * q) in Hsub by lia.
  pose proof (div_dyadic _ q j Hj Hq0 ltac:(nia) Hsub) as Hdv.
  unfold PyFloat.floordiv.
  replace (PyFloat.is_zero (F64.of_int 100)) with false
    by (rewrite hundred_value; reflexivity).
  rewrite (dyadic_not_negative _ _ _ Hmd).
  replace (F64.ltb (F64.of_int 100) (S754_zero false)) with false
    by (rewrite hundred_value; reflexivity).
  cbn [Bool.eqb negb]. rewrite andb_false_r.
  set (dv := F64.div (F64.sub v (PyFloat.fmod v (F64.of_int 100))) (F64.of_int 100)) in *.
  rewrite (floor_dyadic dv q ltac:(nia) Hdv).
  destruct Hdv as [[Hq ->]|[Hqp (m & e & Hdvm & Hd & He & Hvq)]].
  - cbn [PyFloat.is_zero negb]. rewrite (sign_div_dyadic v T j Hv).
    eexists. split; [reflexivity|]. left. split; [exact Hq | reflexivity].
  - rewrite Hdvm. cbn [PyFloat.is_zero negb]. rewrite sub_self.
    replace (F64.ltb PyFloat.half (S754_zero false)) with false
      by (vm_compute; reflexivity).
    eexists. split; [reflexivity|]. right. split; [exact Hqp|].
    exists m, e. auto.
Qed.

Lemma PyFloat_of_int_ok (n : Z) :
  0 <= n < 2 ^ 53 -> PyFloat.of_int n = Ok (F64.of_int n).
Proof.
  intros Hn. unfold PyFloat.of_int.
  destruct (dyadic_of_int n Hn) as [[_ ->]|[_ (m & e & -> & _)]]; reflexivity.
Qed.

Lemma blur_rate_value : blur_rate = S754_finite false 6755399441055744 (-52).
Proof. vm_compute. reflexivity. Qed.

Lemma offset_rate_value : offset_rate = S754_finite false 6755399441055744 (-51).
Proof. vm_compute. reflexivity. Qed.

Lemma three_F2R (e : Z) : F2R 6755399441055744 e = F2R 3 (e + 51).
Proof.
  change 6755399441055744 with (3 * 2 ^ 51). symmetry. apply F2R_shift. lia.
Qed.

(** [__blur_rate * n // 100] is the double of [3 * n // 200], and
    [__offset_rate * n // 100] the double of [3 * n // 100]. *)
Lemma percent_of_exact (n : Z) :
  0 <= n < 2 ^ 51 ->
  (exists f, PyFloat.percent_of blur_rate n = Ok f /\ dyadic f (3 * n / 200) 0)
  /\ (exists f, PyFloat.percent_of offset_rate n = Ok f /\ dyadic f (3 * n / 100) 0).
Proof.
  intros Hn. unfold PyFloat.percent_of.
  rewrite PyFloat_of_int_ok by lia. cbn [mbind result_bind].
  pose proof (dyadic_of_int n ltac:(lia)) as Hx.
  assert (H3 : 3 * n < 2 ^ 53) by lia.
  split.
  - rewrite blur_rate_value.
    apply (floordiv_dyadic _ (3 * n) 1); [lia | lia|].
    apply F64_mul_dyadic; try assumption; try lia; [reflexivity|].
    rewrite three_F2R. reflexivity.
  - rewrite offset_rate_value.
    apply (floordiv_dyadic _ (3 * n) 0); [lia | lia|].
    apply F64_mul_dyadic; try assumption; try lia; [reflexivity|].
    rewrite three_F2R. reflexivity.
Qed.

Lemma shiftl_neg_exact (m : positive) (e q : Z) :
  F2R (Zpos m) e = IZR q -> Z.shiftl (Zneg m) e = - q.
Proof.
  intros Hv. destruct (Z.le_gt_cases 0 e) as [He|He].
  - rewrite Z.shiftl_mul_pow2 by lia.
    rewrite <- (shiftl_exact m e q Hv), Z.shiftl_mul_pow2 by lia. lia.
  - rewrite Z.shiftl_div_pow2 by lia.
    assert (Hm : Zpos m = q * 2 ^ (- e)).
    { apply (F2R_inj _ _ e). rewrite <- F2R_shift by lia.
      replace (e + - e) with 0 by lia. rewrite Hv. unfold F2R.
      change (powerRZ 2 0) with 1%R. lra. }
    change (Zneg m) with (- Zpos m). rewrite Hm, <- Z.mul_opp_l.
    apply Z.div_mul. pose proof (Z.pow_pos_nonneg 2 (- e)). lia.
Qed.

Lemma ceil_dyadic (f : spec_float) (q : Z) : dyadic f q 0 -> F64.ceil f = Ok q.
Proof.
  intros [[-> ->]|[Hq0 (m & e & -> & Hd & He & Hv)]]; [reflexivity|].
  cbn [F64.ceil]. rewrite (shiftl_neg_exact m e q); [f_equal; lia|].
  rewrite Hv. unfold F2R. change (powerRZ 2 (- 0)) with 1%R. lra.
Qed.

Lemma compare_cont_not_lt (m k : positive) :
  (k <= m)%positive -> Pos.compare_cont Eq m k <> Lt.
Proof.
  intros Hk. change (Pos.compare_cont Eq m k) with (Pos.compare m k).
  rewrite Pos.compare_lt_iff. lia.
Qed.

Lemma ltb_one_dyadic (f : spec_float) (q : Z) :
  dyadic f q 0 -> F64.ltb f PyFloat.one = (q <? 1).
Proof.
  intros [[-> ->]|[Hq0 (m & e & -> & Hd & He & Hv)]]; [reflexivity|].
  replace (q <? 1) with false by (symmetry; apply Z.ltb_ge; lia).
  replace PyFloat.one with (S754_finite false 4503599627370496 (-52))
    by (vm_compute; reflexivity).
  destruct (Zdigits2_bounds (Zpos m) ltac:(lia)) as [Hm1 _]. rewrite Hd in Hm1.
  change (2 ^ (53 - 1)) with (Zpos 4503599627370496) in Hm1.
  assert (Hk : (4503599627370496 <= m)%positive) by lia.
  apply compare_cont_not_lt in Hk. revert Hk.
  generalize 4503599627370496%positive. intros k Hk.
  unfold F64.ltb, SFltb. cbn [SFcompare].
  destruct (Z.compare_spec e (-52)) as [E|E|E]; [|lia|reflexivity].
  destruct (Pos.compare_cont Eq m k); [reflexivity | contradiction | reflexivity].
Qed.

Lemma odd_rounding_closed (y : Z) :
  (if y mod 2 =? 1 then y else y - 1) = largest_odd_le y.
Proof.
  unfold largest_odd_le. destruct (Z.eqb_spec (y mod 2) 1); Z.div_mod_to_equations; lia.
Qed.

Lemma generate_frame_ksize_closed (dim : Z) :
  0 <= dim < 2 ^ 51 ->
  generate_frame_ksize dim = Ok (largest_odd_le (3 * dim / 200)).
Proof.
  intros Hd. destruct (percent_of_exact dim Hd) as [(f & Hf & Hdf) _].
  unfold generate_frame_ksize. rewrite Hf. cbn [mbind result_bind].
  unfold to_odd. cbn [PyFloat.ceil]. rewrite (ceil_dyadic f _ Hdf).
  cbn [mbind result_bind]. rewrite odd_rounding_closed. reflexivity.
Qed.

Lemma effective_zone_ksize_closed (dim : Z) :
  0 <= dim < 2 ^ 51 ->
  effective_zone_ksize dim = Ok (largest_odd_le (Z.max (3 * dim / 100) 1)).
Proof.
  intros Hd. destruct (percent_of_exact dim Hd) as [_ (g & Hg & Hdg)].
  unfold effective_zone_ksize. rewrite Hg. cbn [mbind result_bind].
  unfold effective_zone_ksize_of, PyFloat.max_with_1.
  rewrite (ltb_one_dyadic g _ Hdg).
  assert (Hq : 0 <= 3 * dim / 100) by (apply Z.div_pos; lia).
  destruct (Z.ltb_spec (3 * dim / 100) 1) as [H1|H1].
  - replace (Z.max (3 * dim / 100) 1) with 1 by lia. reflexivity.
  - replace (Z.max (3 * dim / 100) 1) with (3 * dim / 100) by lia.
    unfold to_odd at 2. cbn [PyFloat.ceil]. rewrite (ceil_dyadic g _ Hdg).
    cbn [mbind result_bind]. rewrite to_odd_of_odd by apply odd_rounding_any.
    rewrite odd_rounding_closed. reflexivity.
Qed.

(** ** What [expand_rects] never changes *)

Lemma fmap_alter_invariant {A B} (h : A -> B) (g : A -> A) (i : nat) (l : list A) :
  (forall x, h (g x) = h x) -> h <$> alter g i l = h <$> l.
Proof.
  intros Hg. revert i. induction l as [|x l IH]; intros [|i]; simpl; try reflexivity.
  - rewrite Hg. reflexivity.
  - f_equal. apply IH.
Qed.

Lemma rect_call_same (rs rs' : Rects) (i : Z) (method : Z -> Rect -> Rect)
    (arr : list Z) (j : Z) :
  (forall d r, left (method d r) = left r /\ right (method d r) = right r) ->
  rect_call rs i method arr j = Ok rs' -> same_frame_of_reference rs rs'.
Proof.
  intros Hm. unfold rect_call.
  destruct (py_index rs i) as [x|e]; [|discriminate]. cbn [mbind result_bind].
  destruct (py_index arr j) as [d|e]; [|discriminate]. cbn [mbind result_bind].
  intros [= <-]. unfold same_frame_of_reference, get_contours, rects_of.
  rewrite length_alter. repeat split.
  - apply fmap_alter_invariant. reflexivity.
  - rewrite <- !list_fmap_compose. apply fmap_alter_invariant.
    intros [r c]. simpl. apply Hm.
  - rewrite <- !list_fmap_compose. apply fmap_alter_invariant.
    intros [r c]. simpl. apply Hm.
Qed.

Lemma same_frame_of_reference_refl (rs : Rects) : same_frame_of_reference rs rs.
Proof. repeat split. Qed.

Lemma same_frame_of_reference_trans (a b c : Rects) :
  same_frame_of_reference a b -> same_frame_of_reference b c ->
  same_frame_of_reference a c.
Proof.
  intros (H1 & H2 & H3 & H4) (K1 & K2 & K3 & K4).
  repeat split; congruence.
Qed.

Lemma expand_body_same (Len : Z) (upper lower : list Z) (rs rs' : Rects) (i : Z) :
  expand_body Len upper lower rs i = Ok rs' -> same_frame_of_reference rs rs'.
Proof.
  assert (Ha : forall d r, left (expand_above d r) = left r
                           /\ right (expand_above d r) = right r) by (split; reflexivity).
  assert (Hb : forall d r, left (expand_below d r) = left r
                           /\ right (expand_below d r) = right r) by (split; reflexivity).
  unfold expand_body. intros H.
  destruct (i <? Len - 1).
  - destruct (rect_call rs i expand_below upper i) as [r1|e] eqn:E1; [|discriminate].
    cbn [mbind result_bind] in H.
    destruct (rect_call r1 (i + 1) expand_above lower i) as [r2|e] eqn:E2; [|discriminate].
    cbn [mbind result_bind] in H.
    pose proof (rect_call_same _ _ _ _ _ _ Hb E1) as S1.
    pose proof (rect_call_same _ _ _ _ _ _ Ha E2) as S2.
    pose proof (same_frame_of_reference_trans _ _ _ S1 S2) as S12.
    destruct (i =? 0).
    + destruct (rect_call r2 i expand_above upper i) as [r3|e] eqn:E3; [|discriminate].
      cbn [mbind result_bind] in H.
      pose proof (rect_call_same _ _ _ _ _ _ Ha E3) as S3.
      destruct (i =? Len - 1).
      * pose proof (rect_call_same _ _ _ _ _ _ Hb H) as S4.
        eauto using same_frame_of_reference_trans.
      * injection H as <-. eauto using same_frame_of_reference_trans.
    + cbn [mbind result_bind] in H. destruct (i =? Len - 1).
      * pose proof (rect_call_same _ _ _ _ _ _ Hb H) as S4.
        eauto using same_frame_of_reference_trans.
      * injection H as <-. exact S12.
  - cbn [mbind result_bind] in H. destruct (i =? 0).
    + destruct (rect_call rs i expand_above upper i) as [r3|e] eqn:E3; [|discriminate].
      cbn [mbind result_bind] in H.
      pose proof (rect_call_same _ _ _ _ _ _ Ha E3) as S3.
      destruct (i =? Len - 1).
      * pose proof (rect_call_same _ _ _ _ _ _ Hb H) as S4.
        eauto using same_frame_of_reference_trans.
      * injection H as <-. exact S3.
    + cbn [mbind result_bind] in H. destruct (i =? Len - 1).
      * exact (rect_call_same _ _ _ _ _ _ Hb H).
      * injection H as <-. apply same_frame_of_reference_refl.
Qed.

Lemma rfold_same (Len : Z) (upper lower : list Z) (l : list Z) (rs rs' : Rects) :
  rfold (expand_body Len upper lower) l rs = Ok rs' -> same_frame_of_reference rs rs'.
Proof.
  revert rs. induction l as [|i l IH]; intros rs; simpl.
  - intros [= <-]. apply same_frame_of_reference_refl.
  - destruct (expand_body Len upper lower rs i) as [r1|e] eqn:E; [|discriminate].
    cbn [mbind result_bind]. intros H.
    eapply same_frame_of_reference_trans; [exact (expand_body_same _ _ _ _ _ _ E) | eauto].
Qed.

Lemma expand_rects_invariant (self self' : Rects) :
  expand_rects self = Ok self' -> same_frame_of_reference self self'.
Proof.
  intros H. unfold expand_rects in H.
  destruct (plus_for_lower_rect self) as [lower|e]; [|discriminate].
  cbn [mbind result_bind] in H.
  destruct (plus_for_upper_rect self) as [upper|e]; [|discriminate].
  cbn [mbind result_bind] in H.
  exact (rfold_same _ _ _ _ _ _ H).
Qed.

Lemma plus_for_lower_defined (self : Rects) :
  Forall (fun c => (2 <= length c)%nat) (get_contours self) ->
  exists lower, plus_for_lower_rect self = Ok lower.
Proof.
  intros Hall. rewrite plus_for_lower_closed by exact Hall.
  apply rmap_defined. apply Forall_forall. intros [rc0 rc1] _.
  unfold pair_share, lower_share.
  destruct (F64.mul _ _); eexists; reflexivity.
Qed.

(** X13: two or more rectangles whose contours have two points or more: whatever
    the heights and the gaps, also where the ratio is 0 / 0, [expand_rects]
    completes; the collection then has as many rectangles as before, with
    the same contours and the same left and right edges, and the gaps a
    second call reads from the contours are the gaps of the first. *)
Theorem expand_rects_preserves (self : Rects) :
  (2 <= length self)%nat ->
  Forall (fun c => (2 <= length c)%nat) (get_contours self) ->
  exists self',
    expand_rects self = Ok self'
    /\ length self' = length self
    /\ get_contours self' = get_contours self
    /\ left <$> rects_of self' = left <$> rects_of self
    /\ right <$> rects_of self' = right <$> rects_of self
    /\ dist self' = dist self.
Proof.
  intros HN Hall.
  destruct (plus_for_lower_defined self Hall) as [lower Hlower].
  pose proof (expand_rects_closed self lower HN Hall Hlower) as H.
  eexists. split; [exact H|].
  destruct (expand_rects_invariant _ _ H) as (H1 & H2 & H3 & H4).
  repeat (split; [assumption|]).
  unfold dist, py_len. rewrite H1, H2. reflexivity.
Qed.

Lemma expand_rects_preserves_witness :
  (2 <= length flat_lines)%nat
  /\ ratio_for_lower flat_lines = [S754_nan]
  /\ exists self',
       expand_rects flat_lines = Ok self'
       /\ length self' = length flat_lines
       /\ get_contours self' = get_contours flat_lines
       /\ left <$> rects_of self' = left <$> rects_of flat_lines
       /\ right <$> rects_of self' = right <$> rects_of flat_lines
       /\ dist self' = dist flat_lines.
Proof.
  split; [simpl; lia|]. split; [vm_compute; reflexivity|].
  apply (expand_rects_preserves flat_lines); [simpl; lia|].
  unfold flat_lines, line_box, get_contours. simpl.
  repeat (apply List.Forall_cons; [simpl; lia|]). apply List.Forall_nil.
Defined.

(** ** Neighbours after the expansion *)

(** X14: after [expand_rects] the distance between the facing edges of two
    neighbours is what it was before, less the gap read from their contours;
    where that gap is the distance between the two edges, the bottom edge of
    the upper rectangle and the top edge of the lower one coincide. *)
Theorem expand_rects_closes_gap (self : Rects) (i : nat) (rc0 rc1 : Rect * Contour) :
  pixel_sized self -> self !! i = Some rc0 -> self !! S i = Some rc1 ->
  exists self' r0' r1',
    expand_rects self = Ok self'
    /\ self' !! i = Some (r0', rc0.2)
    /\ self' !! S i = Some (r1', rc1.2)
    /\ top r1' - bottom r0' = (top rc1.1 - bottom rc0.1) - pair_gap rc0 rc1
    /\ (pair_gap rc0 rc1 = top rc1.1 - bottom rc0.1 -> bottom r0' = top r1').
Proof.
  intros Hps H0 H1.
  destruct (expand_rects_pair self i rc0 rc1 Hps H0 H1)
    as (lower & upper & self' & l & r0' & r1' & _ & _ & He & _ & _ & _ & _
        & Hi & HSi & Hb & Ht).
  exists self', r0', r1'. repeat (split; [assumption|]). split; lia.
Qed.

Lemma expand_rects_closes_gap_witness :
  pixel_sized three_lines
  /\ exists self' r0' r1',
       expand_rects three_lines = Ok self'
       /\ self' !! 1%nat = Some (r0', (line_box 30 50).2)
       /\ self' !! 2%nat = Some (r1', (line_box 70 75).2)
       /\ top r1' - bottom r0'
          = (top (line_box 70 75).1 - bottom (line_box 30 50).1)
            - pair_gap (line_box 30 50) (line_box 70 75)
       /\ (pair_gap (line_box 30 50) (line_box 70 75)
           = top (line_box 70 75).1 - bottom (line_box 30 50).1 ->
           bottom r0' = top r1').
Proof.
  split; [pixel_sized_by_evaluation|].
  apply (expand_rects_closes_gap three_lines 1 (line_box 30 50) (line_box 70 75));
    [pixel_sized_by_evaluation | reflexivity | reflexivity].
Defined.

(** X15: the first and the last rectangle have one neighbour only; [expand_rects]
    moves their outer edge by the amount it moves their inner edge: the first
    rectangle grows upward by what it grows downward, the last one downward by
    what it grows upward. *)
Theorem expand_rects_edge_rectangles (self : Rects) (first last : Rect * Contour) :
  pixel_sized self -> (2 <= length self)%nat ->
  self !! 0%nat = Some first -> self !! (length self - 1)%nat = Some last ->
  exists self' f' l',
    expand_rects self = Ok self'
    /\ self' !! 0%nat = Some (f', first.2)
    /\ self' !! (length self - 1)%nat = Some (l', last.2)
    /\ top first.1 - top f' = bottom f' - bottom first.1
    /\ bottom l' - bottom last.1 = top last.1 - top l'.
Proof.
  intros Hps HN Hf Hl.
  pose proof (pixel_sized_contours self Hps) as Hall.
  destruct (pixel_sized_lower self Hps) as (lower & Hlower & _ & _).
  pose proof (expand_rects_closed self lower HN Hall Hlower) as Hexp.
  set (upper := np_sub (gaps (get_contours self)) lower) in *.
  exists (after_iterations (length self) upper lower (length self) self).
  eexists. eexists. split; [exact Hexp|].
  rewrite (after_iterations_final _ upper lower self 0 first eq_refl Hf).
  rewrite (after_iterations_final _ upper lower self _ last eq_refl Hl).
  split; [reflexivity|]. split; [reflexivity|]. cbn [top bottom fst].
  replace (length self - 1 - 1)%nat with (length self - 2)%nat by lia.
  split; repeat case_decide; lia.
Qed.

Lemma expand_rects_edge_rectangles_witness :
  pixel_sized three_lines
  /\ exists self' f' l',
       expand_rects three_lines = Ok self'
       /\ self' !! 0%nat = Some (f', (line_box 0 10).2)
       /\ self' !! (length three_lines - 1)%nat = Some (l', (line_box 70 75).2)
       /\ top (line_box 0 10).1 - top f' = bottom f' - bottom (line_box 0 10).1
       /\ bottom l' - bottom (line_box 70 75).1 = top (line_box 70 75).1 - top l'.
Proof.
  split; [pixel_sized_by_evaluation|].
  apply (expand_rects_edge_rectangles three_lines (line_box 0 10) (line_box 70 75));
    [pixel_sized_by_evaluation | simpl; lia | reflexivity | reflexivity].
Defined.

(** ** When the expansion completes *)

(** X16: on rectangles of pixel size [expand_rects] completes exactly when their
    number is not one. *)
Theorem expand_rects_completes_iff (self : Rects) :
  pixel_sized self ->
  (exists self', expand_rects self = Ok self') <-> length self <> 1%nat.
Proof.
  intros Hps. split.
  - intros [self' H] HN.
    destruct self as [|[r c] [|? ?]]; try discriminate HN.
    discriminate H.
  - intros HN. destruct self as [|rc0 [|rc1 self]].
    + exists []. reflexivity.
    + contradiction HN. reflexivity.
    + destruct (expand_rects_pair (rc0 :: rc1 :: self) 0 rc0 rc1 Hps eq_refl eq_refl)
        as (_ & _ & self' & _ & _ & _ & _ & _ & He & _). eauto.
Qed.

Lemma expand_rects_completes_iff_witness :
  pixel_sized two_lines
  /\ ((exists self', expand_rects two_lines = Ok self') <-> length two_lines <> 1%nat).
Proof.
  split; [pixel_sized_by_evaluation|].
  apply (expand_rects_completes_iff two_lines). pixel_sized_by_evaluation.
Defined.

Lemma py_index_cases {A} (a : list A) (i : Z) :
  (exists x, py_index a i = Ok x) \/ py_index a i = Raise IndexError.
Proof.
  unfold py_index. destruct (_ && _); [|right; reflexivity].
  destruct (a !! _); [left; eauto | right; reflexivity].
Qed.

Lemma py_index_beyond {A} (a : list A) (i : nat) :
  (length a <= i)%nat -> py_index a (Z.of_nat i) = Raise IndexError.
Proof.
  intros H. unfold py_index.
  destruct (Z.of_nat i <? 0) eqn:E; [lia|].
  destruct (Z.ltb_spec (Z.of_nat i) (Z.of_nat (length a))); [lia|].
  rewrite andb_false_r. reflexivity.
Qed.

Lemma contour_step_cases (cs : Contours) (i : Z) :
  (exists p, contour_step cs i = Ok p) \/ contour_step cs i = Raise IndexError.
Proof.
  unfold contour_step.
  destruct (py_index_cases cs (i + 1)) as [[c1 ->]| ->]; [|right; reflexivity].
  cbn [mbind result_bind].
  destruct (py_index_cases c1 0) as [[p ->]| ->]; [|right; reflexivity].
  cbn [mbind result_bind].
  destruct (py_index_cases cs i) as [[c0 ->]| ->]; [|right; reflexivity].
  cbn [mbind result_bind].
  destruct (py_index_cases c0 1) as [[q ->]| ->]; [|right; reflexivity].
  left. eauto.
Qed.

Lemma contour_step_short (cs : Contours) (i : nat) (c : Contour) :
  cs !! i = Some c -> (length c < 2)%nat ->
  contour_step cs (Z.of_nat i) = Raise IndexError.
Proof.
  intros Hc Hlen. unfold contour_step.
  destruct (py_index_cases cs (Z.of_nat i + 1)) as [[c1 ->]| ->]; [|reflexivity].
  cbn [mbind result_bind].
  destruct (py_index_cases c1 0) as [[p ->]| ->]; [|reflexivity].
  cbn [mbind result_bind].
  rewrite (py_index_lookup _ _ _ Hc). cbn [mbind result_bind].
  change 1 with (Z.of_nat 1). rewrite py_index_beyond by lia. reflexivity.
Qed.

Lemma rmap_raise {A B} (f : A -> result B) (l : list A) (e : exn) (x : A) :
  (forall a, (exists b, f a = Ok b) \/ f a = Raise e) ->
  x ∈ l -> f x = Raise e -> rmap f l = Raise e.
Proof.
  intros Hf Hin Hx. induction l as [|a l IH]; [inversion Hin|].
  simpl. destruct (Hf a) as [[b Hb]|Hb]; rewrite Hb; [|reflexivity].
  cbn [mbind result_bind].
  apply elem_of_cons in Hin as [->|Hin]; [congruence|].
  rewrite (IH Hin). reflexivity.
Qed.

(** X17: a contour of fewer than two points that has a lower neighbour stops
    [expand_rects] with [IndexError]: its second point is read for the gap. *)
Theorem expand_rects_short_contour (self : Rects) (i : nat) (c : Contour) :
  get_contours self !! i = Some c -> (S i < length self)%nat -> (length c < 2)%nat ->
  expand_rects self = Raise IndexError.
Proof.
  intros Hc Hi Hlen.
  assert (Hd : dist self = Raise IndexError).
  { unfold dist.
    rewrite (rmap_raise _ _ IndexError (Z.of_nat i)); [reflexivity | | |].
    - apply contour_step_cases.
    - unfold py_range, py_len. apply list_elem_of_In, in_map_iff. exists i. split; [lia|].
      apply in_seq. lia.
    - exact (contour_step_short _ _ _ Hc Hlen). }
  unfold expand_rects, plus_for_lower_rect. rewrite Hd. reflexivity.
Qed.

Lemma expand_rects_short_contour_witness :
  expand_rects [(mkRect 0 10 0 100, [(0, 0)]); line_box 30 50] = Raise IndexError.
Proof.
  apply (expand_rects_short_contour
           [(mkRect 0 10 0 100, [(0, 0)]); line_box 30 50] 0 [(0, 0)]);
    [reflexivity | simpl; lia | simpl; lia].
Defined.

(** X5: for every page dimension below [2 ^ 51] the kernel dimensions agree with
    their formulas in integers: the float computation
    [__blur_rate * dim // 100] of the mask generator is [3 * dim // 200], the
    computation [max (__offset_rate * dim // 100, 1)] of the zone detector is
    [max (3 * dim // 100, 1)], and each is brought down to the greatest odd
    integer not above it. *)
Theorem kernel_sizes_exact (dim : Z) :
  0 <= dim < 2 ^ 51 ->
  generate_frame_ksize dim = Ok (largest_odd_le (3 * dim / 200))
  /\ effective_zone_ksize dim = Ok (largest_odd_le (Z.max (3 * dim / 100) 1)).
Proof.
  intros Hd. split.
  - apply generate_frame_ksize_closed. exact Hd.
  - apply effective_zone_ksize_closed. exact Hd.
Qed.

Lemma kernel_sizes_exact_witness :
  0 <= 2480 < 2 ^ 51
  /\ generate_frame_ksize 2480 = Ok (largest_odd_le (3 * 2480 / 200))
  /\ effective_zone_ksize 2480 = Ok (largest_odd_le (Z.max (3 * 2480 / 100) 1)).
Proof. split; [lia|]. apply (kernel_sizes_exact 2480). lia. Defined.

(** X6: the kernel dimension of the mask generator is [-1], which is no kernel
    size, exactly on pages of fewer than 67 pixels; from 67 pixels on it is
    odd and at least 1.  The kernel dimension of the zone detector is odd and
    at least 1 on every page. *)
Theorem generate_frame_ksize_threshold (dim : Z) :
  0 <= dim < 2 ^ 51 ->
  (generate_frame_ksize dim = Ok (-1) <-> dim < 67)
  /\ (exists k, generate_frame_ksize dim = Ok k /\ Z.odd k = true
                /\ (67 <= dim -> 1 <= k))
  /\ (exists k, effective_zone_ksize dim = Ok k /\ Z.odd k = true /\ 1 <= k).
Proof.
  intros Hd.
  rewrite (generate_frame_ksize_closed dim Hd), (effective_zone_ksize_closed dim Hd).
  assert (Hodd : forall y, Z.odd (largest_odd_le y) = true).
  { intros y. rewrite <- odd_rounding_closed. apply odd_rounding_any. }
  split; [|split].
  - split.
    + intros [= H]. unfold largest_odd_le in H. Z.div_mod_to_equations. lia.
    + intros H. f_equal. unfold largest_odd_le. Z.div_mod_to_equations. lia.
  - eexists. split; [reflexivity|]. split; [apply Hodd|].
    intros H. unfold largest_odd_le. Z.div_mod_to_equations. lia.
  - eexists. split; [reflexivity|]. split; [apply Hodd|].
    unfold largest_odd_le. Z.div_mod_to_equations. lia.
Qed.

Lemma generate_frame_ksize_threshold_witness :
  0 <= 66 < 2 ^ 51
  /\ (generate_frame_ksize 66 = Ok (-1) <-> 66 < 67)
  /\ (exists k, generate_frame_ksize 66 = Ok k /\ Z.odd k = true /\ (67 <= 66 -> 1 <= k))
  /\ (exists k, effective_zone_ksize 66 = Ok k /\ Z.odd k = true /\ 1 <= k).
Proof. split; [lia|]. apply (generate_frame_ksize_threshold 66). lia. Defined.

(** ** Detection *)

Lemma np_array_contours_ragged (con : list Contour) (i j : nat) (c c' : Contour) :
  con !! i = Some c -> con !! j = Some c' -> length c <> length c' ->
  np_array_contours con = Raise ValueError.
Proof.
  intros Hi Hj Hne. destruct con as [|c0 t]; [discriminate|].
  unfold np_array_contours.
  destruct (forallb (fun c' => Nat.eqb (length c') (length c0)) t) eqn:E; [|reflexivity].
  exfalso. rewrite forallb_forall in E.
  assert (Hall : forall k x, (c0 :: t) !! k = Some x -> length x = length c0).
  { intros [|k] x Hk; [injection Hk as <-; reflexivity|].
    apply Nat.eqb_eq, E. apply list_elem_of_In. eapply list_elem_of_lookup_2. exact Hk. }
  rewrite (Hall _ _ Hi), (Hall _ _ Hj) in Hne. contradiction.
Qed.

Section Detection.

Variable cv2_GaussianBlur : Mat -> Z * Z -> Z -> result Mat.
Variable np_average_rows : Mat -> ndarray spec_float.
Variable KMeans_fit_predict : Z -> ndarray spec_float -> result (list Z * list spec_float).
Variable zone_boxes : Mat -> Z -> result (list (Z * Z * Z * Z)).
Variable paint_mask : Z -> Z -> list Z -> list spec_float -> Z -> Z -> result Mat.
Variable cv2_findContours : Mat -> result (list Contour).

(** X12: [__find_rects] packs the contours found in the mask into one array of
    points: where two of them differ in their number of points the call ends
    with [ValueError], and no [Frame] is built. *)
Theorem find_rects_ragged_contours (gray mask : Mat) (w h : Z) (con : list Contour)
    (i j : nat) (c c' : Contour) :
  generate_frame cv2_GaussianBlur np_average_rows KMeans_fit_predict zone_boxes
                 paint_mask gray w h = Ok mask ->
  cv2_findContours mask = Ok con ->
  con !! i = Some c -> con !! j = Some c' -> length c <> length c' ->
  find_rects cv2_GaussianBlur np_average_rows KMeans_fit_predict zone_boxes
             paint_mask cv2_findContours gray w h = Raise ValueError.
Proof.
  intros Hm Hc Hi Hj Hne. unfold find_rects.
  rewrite Hm. cbn [mbind result_bind]. rewrite Hc. cbn [mbind result_bind].
  rewrite (np_array_contours_ragged con i j c c' Hi Hj Hne). reflexivity.
Qed.

End Detection.

Lemma find_rects_ragged_contours_witness :
  find_rects demo_blur demo_average demo_KMeans demo_zone demo_mask
             (fun _ => Ok [[(0, 0); (0, 10); (100, 10); (100, 0)];
                           [(0, 30); (0, 50); (40, 52); (100, 50); (100, 30)]])
             (blank [60; 100]) 100 60
  = Raise ValueError.
Proof.
  apply (find_rects_ragged_contours demo_blur demo_average demo_KMeans demo_zone
           demo_mask _ (blank [60; 100]) (blank [60; 100]) 100 60
           [[(0, 0); (0, 10); (100, 10); (100, 0)];
            [(0, 30); (0, 50); (40, 52); (100, 50); (100, 30)]]
           0 1 [(0, 0); (0, 10); (100, 10); (100, 0)]
           [(0, 30); (0, 50); (40, 52); (100, 50); (100, 30)]);
    first [vm_compute; reflexivity | reflexivity | simpl; lia].
Defined.
